(** * Express-Jobly: the Company and Job data-access models

    A shallow embedding of [models/company.js] and [models/job.js]: the
    dynamic construction of filtered SELECT statements, the partial update,
    and the single-entity reads with their nested relation.  The JavaScript
    values the models handle, the SQL text they emit and the store that
    executes it are all made explicit, so that statements about the rows
    returned can be stated and proved. *)

From Stdlib Require Import String Ascii List ZArith Bool Lia Arith.
From Stdlib Require Import DecimalString DecimalNat Sorted Permutation.
Import ListNotations.
Open Scope string_scope.
#[local] Set Warnings "-register-all".

(** ** Characters and small string utilities *)

Definition dq : string := String (ascii_of_nat 34) EmptyString.
Definition nl : string := String (ascii_of_nat 10) EmptyString.

Definition is_ws (c : ascii) : bool :=
  let n := nat_of_ascii c in
  ((n =? 32) || ((9 <=? n) && (n <=? 13)))%nat.

Definition digit_of (c : ascii) : option nat :=
  let n := nat_of_ascii c in
  if ((48 <=? n) && (n <=? 57))%nat then Some (n - 48) else None.

Definition is_digit (c : ascii) : bool :=
  match digit_of c with Some _ => true | None => false end.

Fixpoint all_ws (s : string) : bool :=
  match s with
  | EmptyString => true
  | String c r => is_ws c && all_ws r
  end.

Fixpoint skip_ws (s : string) : string :=
  match s with
  | EmptyString => EmptyString
  | String c r => if is_ws c then skip_ws r else s
  end.

(** Decimal digits followed by optional white space; [acc] is the value read
    so far. *)
Fixpoint digits_value (acc : Z) (s : string) : option Z :=
  match s with
  | EmptyString => Some acc
  | String c r =>
      match digit_of c with
      | Some d => digits_value (acc * 10 + Z.of_nat d) r
      | None => if all_ws s then Some acc else None
      end
  end.

Definition unsigned_value (s : string) : option Z :=
  match s with
  | EmptyString => None
  | String c _ => if is_digit c then digits_value 0 s else None
  end.

(** An optionally signed decimal integer, white space allowed around it. *)
Definition parse_int (s : string) : option Z :=
  match skip_ws s with
  | EmptyString => None
  | String c r =>
      if Ascii.eqb c "-" then option_map Z.opp (unsigned_value r)
      else if Ascii.eqb c "+" then unsigned_value r
      else unsigned_value (String c r)
  end.

Definition nat_to_string (n : nat) : string :=
  NilEmpty.string_of_uint (Nat.to_uint n).

Definition Z_to_string (z : Z) : string :=
  NilZero.string_of_int (Z.to_int z).

(** ** JavaScript values

    Numbers are the integers (the contract of both models types every numeric
    field as an integer); a numeric string that does not denote an integer
    (a fraction, an exponent, a hexadecimal literal) has no value in this
    model and converts to NaN.  An object is the list of its own properties
    in insertion order. *)

Module JS.

Inductive jsval : Type :=
| JUndefined
| JNull
| JBool (b : bool)
| JNum (n : Z)
| JStr (s : string)
| JArr (xs : list jsval)
| JObj (props : list (string * jsval)).

Definition obj : Type := list (string * jsval).

(** [ToString], as used by template literals. *)
Fixpoint ToString (v : jsval) : string :=
  match v with
  | JUndefined => "undefined"
  | JNull => "null"
  | JBool true => "true"
  | JBool false => "false"
  | JNum n => Z_to_string n
  | JStr s => s
  | JArr xs =>
      (fix join (l : list jsval) : string :=
         match l with
         | [] => EmptyString
         | x :: r =>
             let e := match x with
                      | JUndefined | JNull => EmptyString
                      | _ => ToString x
                      end in
             match r with
             | [] => e
             | _ :: _ => e ++ "," ++ join r
             end
         end) xs
  | JObj _ => "[object Object]"
  end.

(** [ToBoolean]: the test of [if (v)] and of [!v]. *)
Definition truthy (v : jsval) : bool :=
  match v with
  | JUndefined | JNull => false
  | JBool b => b
  | JNum n => negb (n =? 0)%Z
  | JStr s => negb (s =? EmptyString)
  | JArr _ | JObj _ => true
  end.

(** [v !== undefined] *)
Definition is_defined (v : jsval) : bool :=
  match v with JUndefined => false | _ => true end.

(** [v === true] *)
Definition is_true (v : jsval) : bool :=
  match v with JBool true => true | _ => false end.

Definition ToPrimitive (v : jsval) : jsval :=
  match v with
  | JArr _ | JObj _ => JStr (ToString v)
  | _ => v
  end.

(** [ToNumber] on primitives; [None] is NaN. *)
Definition ToNumber (v : jsval) : option Z :=
  match v with
  | JUndefined => None
  | JNull => Some 0%Z
  | JBool b => Some (if b then 1 else 0)%Z
  | JNum n => Some n
  | JStr s => if all_ws s then Some 0%Z else parse_int s
  | JArr _ | JObj _ => None
  end.

(** [a > b]: two strings compare by code units, anything else as numbers,
    and a comparison with NaN is false. *)
Definition gt (a b : jsval) : bool :=
  match ToPrimitive a, ToPrimitive b with
  | JStr x, JStr y => String.ltb y x
  | pa, pb =>
      match ToNumber pa, ToNumber pb with
      | Some x, Some y => (y <? x)%Z
      | _, _ => false
      end
  end.

(** Property read [o.k] (or destructuring [{k} = o]): [undefined] when
    absent. *)
Fixpoint get (o : obj) (k : string) : jsval :=
  match o with
  | [] => JUndefined
  | (k', v) :: r => if k' =? k then v else get r k
  end.

Fixpoint has (o : obj) (k : string) : bool :=
  match o with
  | [] => false
  | (k', _) :: r => (k' =? k) || has r k
  end.

(** Assignment [o.k = v]: replaces in place, or appends a new property. *)
Fixpoint set (o : obj) (k : string) (v : jsval) : obj :=
  match o with
  | [] => [(k, v)]
  | (k', v') :: r => if k' =? k then (k, v) :: r else (k', v') :: set r k v
  end.

(** [delete o.k] *)
Fixpoint delete (o : obj) (k : string) : obj :=
  match o with
  | [] => []
  | (k', v') :: r => if k' =? k then delete r k else (k', v') :: delete r k
  end.

(** [Object.keys] and [Object.values] *)
Definition keys (o : obj) : list string := map fst o.
Definition values (o : obj) : list jsval := map snd o.

(** [xs.join(sep)] on an array of strings *)
Definition join (sep : string) (xs : list string) : string :=
  String.concat sep xs.

(** [xs.push(x)] *)
Definition push {A : Type} (xs : list A) (x : A) : list A := xs ++ [x].

(** [rows[0]] *)
Definition first (rows : list jsval) : jsval := hd JUndefined rows.

End JS.
Import JS.

(** ** The SQL text the models emit

    The statements reach the store as text.  The store reads them with the
    lexer and parser below, which cover the statement forms of the two
    models: SELECT with an optional LEFT JOIN, WHERE and ORDER BY, and
    INSERT, UPDATE and DELETE with RETURNING.  Keywords are read in upper
    case and identifiers as they stand, the way the models write them. *)

Module Sql.

Inductive token : Type :=
| TWord (w : string)        (* keyword, bare identifier or number *)
| TQuoted (w : string)      (* a double-quoted identifier *)
| TParam (n : nat)          (* the placeholder [$n] *)
| TOp (o : string)
| TComma
| TLParen
| TRParen
| TBad.

Inductive lstate : Type :=
| LIdle
| LWord (acc : string)
| LQuoted (acc : string)
| LParam (acc : nat)
| LOp (acc : string).

Definition is_word_char (c : ascii) : bool :=
  let n := nat_of_ascii c in
  (((48 <=? n) && (n <=? 57)) || ((65 <=? n) && (n <=? 90))
   || ((97 <=? n) && (n <=? 122)) || (n =? 95) || (n =? 46))%nat.

Definition is_op_char (c : ascii) : bool :=
  let n := nat_of_ascii c in
  ((n =? 60) || (n =? 61) || (n =? 62) || (n =? 33))%nat.

Definition snoc (s : string) (c : ascii) : string := s ++ String c EmptyString.

(** The token a state stands for when its run of characters ends. *)
Definition flush (st : lstate) : list token :=
  match st with
  | LIdle => []
  | LWord a => [TWord a]
  | LQuoted _ => [TBad]
  | LParam n => [TParam n]
  | LOp a => [TOp a]
  end.

(** A character that extends the run of the current state. *)
Definition extend (st : lstate) (c : ascii) : option lstate :=
  match st with
  | LWord a => if is_word_char c then Some (LWord (snoc a c)) else None
  | LParam n =>
      match digit_of c with
      | Some d => Some (LParam (d + 10 * n))
      | None => None
      end
  | LOp a => if is_op_char c then Some (LOp (snoc a c)) else None
  | LIdle | LQuoted _ => None
  end.

(** A character met outside any run. *)
Definition start (c : ascii) : lstate * list token :=
  if is_ws c then (LIdle, [])
  else if Ascii.eqb c (ascii_of_nat 34) then (LQuoted EmptyString, [])
  else if Ascii.eqb c "$" then (LParam 0, [])
  else if is_word_char c then (LWord (String c EmptyString), [])
  else if is_op_char c then (LOp (String c EmptyString), [])
  else if Ascii.eqb c "," then (LIdle, [TComma])
  else if Ascii.eqb c "(" then (LIdle, [TLParen])
  else if Ascii.eqb c ")" then (LIdle, [TRParen])
  else (LIdle, [TBad]).

Fixpoint lex_from (st : lstate) (s : string) : list token :=
  match s with
  | EmptyString => flush st
  | String c r =>
      match st with
      | LQuoted a =>
          if Ascii.eqb c (ascii_of_nat 34) then TQuoted a :: lex_from LIdle r
          else lex_from (LQuoted (snoc a c)) r
      | _ =>
          match extend st c with
          | Some st' => lex_from st' r
          | None =>
              let '(st', toks) := start c in
              flush st ++ toks ++ lex_from st' r
          end
      end
  end.

Definition lex (s : string) : list token := lex_from LIdle s.

(** The placeholders of a statement, in the order they occur in its text. *)
Definition placeholders (sql : string) : list nat :=
  flat_map (fun t => match t with TParam n => [n] | _ => [] end) (lex sql).

(** *** Abstract syntax *)

Inductive operand : Type :=
| OParam (n : nat)
| OInt (z : Z).

Inductive cmp : Type := CmpEq | CmpGe | CmpLe | CmpGt | CmpLt | CmpILike.

Record cond : Type := Cond { cond_col : string; cond_op : cmp; cond_rhs : operand }.

(** [col] or [col AS alias] *)
Record item : Type := Item { item_col : string; item_alias : option string }.

(** [LEFT JOIN table alias ON l = r] *)
Record join : Type :=
  Join { join_table : string; join_alias : string;
         join_lhs : string; join_rhs : string }.

Record source : Type :=
  Source { src_table : string; src_alias : option string;
           src_join : option join }.

Inductive stmt : Type :=
| Select (items : list item) (src : source) (filter : list cond)
         (order : option string)
| Insert (table : string) (cols : list string) (vals : list operand)
         (returning : list item)
| Update (table : string) (sets : list (string * operand))
         (filter : list cond) (returning : list item)
| Delete (table : string) (filter : list cond) (returning : list item).

(** *** Parser *)

Definition is_word (w : string) (t : token) : bool :=
  match t with TWord x => x =? w | _ => false end.

Definition is_comma (t : token) : bool :=
  match t with TComma => true | _ => false end.

(** The tokens before the first one satisfying [stop], and the rest. *)
Fixpoint break (stop : token -> bool) (ts : list token)
  : list token * list token :=
  match ts with
  | [] => ([], [])
  | t :: r =>
      if stop t then ([], ts)
      else let '(a, b) := break stop r in (t :: a, b)
  end.

(** The runs of tokens between separators. *)
Fixpoint split (sep : token -> bool) (ts : list token) : list (list token) :=
  match ts with
  | [] => [[]]
  | t :: r =>
      if sep t then [] :: split sep r
      else match split sep r with
           | [] => [[t]]
           | g :: gs => (t :: g) :: gs
           end
  end.

Fixpoint sequence {A : Type} (l : list (option A)) : option (list A) :=
  match l with
  | [] => Some []
  | None :: _ => None
  | Some x :: r => option_map (cons x) (sequence r)
  end.

Definition parse_each {A : Type} (f : list token -> option A)
  (sep : token -> bool) (ts : list token) : option (list A) :=
  sequence (map f (split sep ts)).

Definition parse_operand (t : token) : option operand :=
  match t with
  | TParam n => Some (OParam n)
  | TWord w => option_map OInt (unsigned_value w)
  | _ => None
  end.

Definition parse_cmp (o : token) : option cmp :=
  match o with
  | TOp o =>
      if o =? "=" then Some CmpEq
      else if o =? ">=" then Some CmpGe
      else if o =? "<=" then Some CmpLe
      else if o =? ">" then Some CmpGt
      else if o =? "<" then Some CmpLt
      else None
  | TWord w => if w =? "ILIKE" then Some CmpILike else None
  | _ => None
  end.

Definition parse_column (t : token) : option string :=
  match t with
  | TWord w => Some w
  | TQuoted w => Some w
  | _ => None
  end.

Definition parse_cond (ts : list token) : option cond :=
  match ts with
  | [c; o; v] =>
      match parse_column c, parse_cmp o, parse_operand v with
      | Some c, Some o, Some v => Some (Cond c o v)
      | _, _, _ => None
      end
  | _ => None
  end.

Definition parse_item (ts : list token) : option item :=
  match ts with
  | [c] => option_map (fun c => Item c None) (parse_column c)
  | [c; kw; a] =>
      if is_word "AS" kw then
        match parse_column c, parse_column a with
        | Some c, Some a => Some (Item c (Some a))
        | _, _ => None
        end
      else None
  | _ => None
  end.

Definition parse_set (ts : list token) : option (string * operand) :=
  match ts with
  | [c; o; v] =>
      match parse_column c, parse_cmp o, parse_operand v with
      | Some c, Some CmpEq, Some v => Some (c, v)
      | _, _, _ => None
      end
  | _ => None
  end.

Definition parse_one {A : Type} (f : token -> option A) (ts : list token)
  : option A :=
  match ts with [t] => f t | _ => None end.

Definition parse_source (ts : list token) : option source :=
  match ts with
  | [TWord t] => Some (Source t None None)
  | [TWord t; TWord a] => Some (Source t (Some a) None)
  | [TWord t; TWord a; l; j; TWord t2; TWord a2; o; TWord x; e; TWord y] =>
      if is_word "LEFT" l && is_word "JOIN" j && is_word "ON" o
         && match e with TOp e => e =? "=" | _ => false end
      then Some (Source t (Some a) (Some (Join t2 a2 x y)))
      else None
  | _ => None
  end.

(** [WHERE c1 AND c2 ...], possibly absent, up to the next clause. *)
Definition parse_where (stop : token -> bool) (ts : list token)
  : option (list cond * list token) :=
  match ts with
  | t :: r =>
      if is_word "WHERE" t then
        let '(cs, rest) := break stop r in
        option_map (fun cs => (cs, rest)) (parse_each parse_cond (is_word "AND") cs)
      else Some ([], ts)
  | [] => Some ([], [])
  end.

Definition parse_returning (ts : list token) : option (list item) :=
  match ts with
  | t :: r =>
      if is_word "RETURNING" t then parse_each parse_item is_comma r else None
  | [] => Some []
  end.

Definition parse_order (ts : list token) : option (option string) :=
  match ts with
  | [] => Some None
  | [o; b; TWord c] =>
      if is_word "ORDER" o && is_word "BY" b then Some (Some c) else None
  | _ => None
  end.

Definition parse_select (ts : list token) : option stmt :=
  let '(its, r1) := break (is_word "FROM") ts in
  match r1 with
  | _ :: r2 =>
      let '(src, r3) :=
        break (fun t => is_word "WHERE" t || is_word "ORDER" t) r2 in
      match parse_each parse_item is_comma its, parse_source src,
            parse_where (is_word "ORDER") r3 with
      | Some its, Some src, Some (cs, r4) =>
          option_map (Select its src cs) (parse_order r4)
      | _, _, _ => None
      end
  | [] => None
  end.

Definition parse_insert (ts : list token) : option stmt :=
  match ts with
  | TWord into :: TWord t :: TLParen :: r =>
      let '(cols, r1) := break (fun t => match t with TRParen => true | _ => false end) r in
      match r1 with
      | TRParen :: v :: TLParen :: r2 =>
          let '(vals, r3) := break (fun t => match t with TRParen => true | _ => false end) r2 in
          match r3 with
          | TRParen :: r4 =>
              if (into =? "INTO") && is_word "VALUES" v then
                match parse_each (parse_one parse_column) is_comma cols,
                      parse_each (parse_one parse_operand) is_comma vals,
                      parse_returning r4 with
                | Some cols, Some vals, Some ret =>
                    Some (Insert t cols vals ret)
                | _, _, _ => None
                end
              else None
          | _ => None
          end
      | _ => None
      end
  | _ => None
  end.

Definition parse_update (ts : list token) : option stmt :=
  match ts with
  | TWord t :: kw :: r =>
      if is_word "SET" kw then
        let '(sets, r1) :=
          break (fun t => is_word "WHERE" t || is_word "RETURNING" t) r in
        match parse_each parse_set is_comma sets,
              parse_where (is_word "RETURNING") r1 with
        | Some sets, Some (cs, r2) =>
            option_map (Update t sets cs) (parse_returning r2)
        | _, _ => None
        end
      else None
  | _ => None
  end.

Definition parse_delete (ts : list token) : option stmt :=
  match ts with
  | kw :: TWord t :: r =>
      if is_word "FROM" kw then
        match parse_where (is_word "RETURNING") r with
        | Some (cs, r1) => option_map (Delete t cs) (parse_returning r1)
        | None => None
        end
      else None
  | _ => None
  end.

Definition parse_tokens (ts : list token) : option stmt :=
  match ts with
  | TWord k :: r =>
      if k =? "SELECT" then parse_select r
      else if k =? "INSERT" then parse_insert r
      else if k =? "UPDATE" then parse_update r
      else if k =? "DELETE" then parse_delete r
      else None
  | _ => None
  end.

Definition parse (sql : string) : option stmt := parse_tokens (lex sql).

End Sql.

(** ** The store

    Modelled from the spec: the executing collaborator [db] (a PostgreSQL
    connection, [require("../db")]) is not under src/.  Section 6 gives its
    single operation, execute(sqlText, orderedParams) -> rows, and section 3
    the two tables with the nullability of their columns.  The model reads
    the statement text with [Sql.parse] and runs it on the two tables with
    the usual SQL meaning: a comparison with NULL selects nothing, text
    compares by code units, ILIKE folds ASCII letters, ORDER BY is ascending
    with NULLs last and keeps the table order among equal keys.  Integer
    columns are unbounded.  Key uniqueness and the foreign-key and CHECK
    constraints belong to the schema, which is not modelled: the theorems
    below hold for every content of the two tables.  [None] stands for a
    statement the store rejects. *)

Module Store.
Import Sql.

Inductive sqltype : Type := TyInt | TyText | TyNumeric.

(** A NUMERIC value: [num_mant / 10 ^ num_scale]. *)
Record numeric : Type := Numeric { num_mant : Z; num_scale : nat }.

Inductive sqlval : Type :=
| VNull
| VInt (z : Z)
| VText (s : string)
| VNum (d : numeric).

Record company : Type :=
  MkCompany { c_handle : string; c_name : string; c_description : string;
            c_num_employees : option Z; c_logo_url : option string }.

Record job : Type :=
  MkJob { j_id : Z; j_title : string; j_salary : option Z;
        j_equity : option numeric; j_company_handle : string }.

Record store : Type :=
  Build { companies : list company; jobs : list job; next_job_id : Z }.

(** *** Values *)

Fixpoint has_digit (s : string) : bool :=
  match s with
  | EmptyString => false
  | String c r => is_digit c || has_digit r
  end.

Fixpoint read_numeric (dot : bool) (m : Z) (sc : nat) (s : string)
  : option numeric :=
  match s with
  | EmptyString => Some (Numeric m sc)
  | String c r =>
      match digit_of c with
      | Some d =>
          read_numeric dot (m * 10 + Z.of_nat d) (if dot then S sc else sc) r
      | None =>
          if Ascii.eqb c "." && negb dot then read_numeric true m sc r
          else None
      end
  end.

Definition negate (d : numeric) : numeric :=
  Numeric (- num_mant d) (num_scale d).

Definition parse_numeric (s : string) : option numeric :=
  if has_digit s then
    match s with
    | String c r =>
        if Ascii.eqb c "-" then option_map negate (read_numeric false 0 0 r)
        else read_numeric false 0 0 s
    | EmptyString => None
    end
  else None.

Fixpoint zeros (n : nat) : string :=
  match n with O => EmptyString | S k => String "0" (zeros k) end.

Definition numeric_to_string (d : numeric) : string :=
  let a := Z.abs (num_mant d) in
  let p := (10 ^ Z.of_nat (num_scale d))%Z in
  let frac := Z_to_string (a mod p) in
  (if (num_mant d <? 0)%Z then "-" else EmptyString)
  ++ Z_to_string (a / p)
  ++ match num_scale d with
     | O => EmptyString
     | S _ => "." ++ zeros (num_scale d - String.length frac) ++ frac
     end.

Definition numeric_compare (x y : numeric) : comparison :=
  (num_mant x * 10 ^ Z.of_nat (num_scale y)
   ?= num_mant y * 10 ^ Z.of_nat (num_scale x))%Z.

(** A bound parameter, read at the type its position asks for. *)
Definition bind (ty : sqltype) (v : jsval) : option sqlval :=
  match v with
  | JUndefined | JNull => Some VNull
  | JNum n =>
      Some match ty with
           | TyInt => VInt n
           | TyText => VText (Z_to_string n)
           | TyNumeric => VNum (Numeric n 0)
           end
  | JStr s =>
      match ty with
      | TyText => Some (VText s)
      | TyInt => option_map VInt (parse_int s)
      | TyNumeric => option_map VNum (parse_numeric s)
      end
  | JBool b =>
      match ty with
      | TyText => Some (VText (if b then "true" else "false"))
      | TyInt | TyNumeric => None
      end
  | JArr _ | JObj _ => None
  end.

(** A column value as the driver hands it back: NUMERIC arrives as text. *)
Definition to_js (v : sqlval) : jsval :=
  match v with
  | VNull => JNull
  | VInt z => JNum z
  | VText s => JStr s
  | VNum d => JStr (numeric_to_string d)
  end.

Definition of_opt {A : Type} (f : A -> sqlval) (o : option A) : sqlval :=
  match o with Some a => f a | None => VNull end.

(** *** Comparison, pattern matching, ordering *)

Definition lower (c : ascii) : ascii :=
  let n := nat_of_ascii c in
  if ((65 <=? n) && (n <=? 90))%nat then ascii_of_nat (n + 32) else c.

Fixpoint lower_string (s : string) : string :=
  match s with
  | EmptyString => EmptyString
  | String c r => String (lower c) (lower_string r)
  end.

(** LIKE: [%] is any run of characters, [_] any one character, and a
    backslash takes the next pattern character literally. *)
Fixpoint like (p s : string) {struct p} : bool :=
  match p with
  | EmptyString => match s with EmptyString => true | _ => false end
  | String c p' =>
      if Ascii.eqb c "%" then
        (fix any (s : string) : bool :=
           like p' s
           || match s with
              | EmptyString => false
              | String _ s' => any s'
              end) s
      else if Ascii.eqb c "_" then
        match s with String _ s' => like p' s' | EmptyString => false end
      else if Ascii.eqb c "\" then
        match p', s with
        | String e p'', String d s' => Ascii.eqb e d && like p'' s'
        | _, _ => false
        end
      else
        match s with
        | String d s' => Ascii.eqb c d && like p' s'
        | EmptyString => false
        end
  end.

Definition ilike (p s : string) : bool := like (lower_string p) (lower_string s).

Definition compare (a b : sqlval) : option comparison :=
  match a, b with
  | VInt x, VInt y => Some (x ?= y)%Z
  | VText x, VText y => Some (String.compare x y)
  | VNum x, VNum y => Some (numeric_compare x y)
  | _, _ => None
  end.

(** [a op b] as a WHERE clause sees it: true, or not true. *)
Definition test (op : cmp) (a b : sqlval) : bool :=
  match op with
  | CmpILike =>
      match a, b with VText s, VText p => ilike p s | _, _ => false end
  | _ =>
      match compare a b with
      | Some c =>
          match op, c with
          | CmpEq, Eq => true
          | CmpGe, (Eq | Gt) => true
          | CmpLe, (Eq | Lt) => true
          | CmpGt, Gt => true
          | CmpLt, Lt => true
          | _, _ => false
          end
      | None => false
      end
  end.

Definition leb (a b : sqlval) : bool :=
  match a, b with
  | _, VNull => true
  | VNull, _ => false
  | _, _ => match compare a b with Some Gt => false | _ => true end
  end.

Fixpoint insert {A : Type} (le : A -> A -> bool) (x : A) (l : list A)
  : list A :=
  match l with
  | [] => [x]
  | y :: r => if le x y then x :: l else y :: insert le x r
  end.

Fixpoint sort {A : Type} (le : A -> A -> bool) (l : list A) : list A :=
  match l with
  | [] => []
  | x :: r => insert le x (sort le r)
  end.

(** *** Relations and tables *)

Definition column (R : Type) : Type := (sqltype * (R -> sqlval))%type.

Record relation : Type :=
  Relation { row : Type; rows : list row;
             col : string -> option (column row) }.

(** [q.name] splits into its qualifier and its name. *)
Fixpoint qualifier (w : string) : option (string * string) :=
  match w with
  | EmptyString => None
  | String c r =>
      if Ascii.eqb c "." then Some (EmptyString, r)
      else match qualifier r with
           | Some (q, n) => Some (String c q, n)
           | None => None
           end
  end.

Definition unqualified (w : string) : string :=
  match qualifier w with Some (_, n) => n | None => w end.

Definition company_col (c : string) : option (column company) :=
  if c =? "handle" then Some (TyText, fun r => VText (c_handle r))
  else if c =? "name" then Some (TyText, fun r => VText (c_name r))
  else if c =? "description" then
    Some (TyText, fun r => VText (c_description r))
  else if c =? "num_employees" then
    Some (TyInt, fun r => of_opt VInt (c_num_employees r))
  else if c =? "logo_url" then
    Some (TyText, fun r => of_opt VText (c_logo_url r))
  else None.

Definition job_col (c : string) : option (column job) :=
  if c =? "id" then Some (TyInt, fun r => VInt (j_id r))
  else if c =? "title" then Some (TyText, fun r => VText (j_title r))
  else if c =? "salary" then Some (TyInt, fun r => of_opt VInt (j_salary r))
  else if c =? "equity" then
    Some (TyNumeric, fun r => of_opt VNum (j_equity r))
  else if c =? "company_handle" then
    Some (TyText, fun r => VText (j_company_handle r))
  else None.

Definition to_int (v : sqlval) : option (option Z) :=
  match v with VNull => Some None | VInt z => Some (Some z) | _ => None end.

Definition to_text (v : sqlval) : option (option string) :=
  match v with VNull => Some None | VText s => Some (Some s) | _ => None end.

Definition to_num (v : sqlval) : option (option numeric) :=
  match v with VNull => Some None | VNum d => Some (Some d) | _ => None end.

(** A required (NOT NULL) text column. *)
Definition required (v : sqlval) : option string :=
  match v with VText s => Some s | _ => None end.

Definition company_set (c : string) (v : sqlval) (r : company)
  : option company :=
  let '(MkCompany h n d e l) := r in
  if c =? "handle" then option_map (fun x => MkCompany x n d e l) (required v)
  else if c =? "name" then option_map (fun x => MkCompany h x d e l) (required v)
  else if c =? "description" then
    option_map (fun x => MkCompany h n x e l) (required v)
  else if c =? "num_employees" then
    option_map (fun x => MkCompany h n d x l) (to_int v)
  else if c =? "logo_url" then
    option_map (fun x => MkCompany h n d e x) (to_text v)
  else None.

Definition job_set (c : string) (v : sqlval) (r : job) : option job :=
  let '(MkJob i t s e h) := r in
  if c =? "id" then
    match v with VInt x => Some (MkJob x t s e h) | _ => None end
  else if c =? "title" then option_map (fun x => MkJob i x s e h) (required v)
  else if c =? "salary" then option_map (fun x => MkJob i t x e h) (to_int v)
  else if c =? "equity" then option_map (fun x => MkJob i t s x h) (to_num v)
  else if c =? "company_handle" then
    option_map (fun x => MkJob i t s e x) (required v)
  else None.

Fixpoint assoc (k : string) (l : list (string * sqlval)) : sqlval :=
  match l with
  | [] => VNull
  | (k', v) :: r => if k' =? k then v else assoc k r
  end.

(** A new company row; every column comes from the statement. *)
Definition new_company (st : store) (vs : list (string * sqlval))
  : option (company * store) :=
  match required (assoc "handle" vs), required (assoc "name" vs),
        required (assoc "description" vs),
        to_int (assoc "num_employees" vs), to_text (assoc "logo_url" vs) with
  | Some h, Some n, Some d, Some e, Some l =>
      let r := MkCompany h n d e l in
      Some (r, Build (companies st ++ [r]) (jobs st) (next_job_id st))
  | _, _, _, _, _ => None
  end.

(** A new job row; the id is generated by the store. *)
Definition new_job (st : store) (vs : list (string * sqlval))
  : option (job * store) :=
  match required (assoc "title" vs), to_int (assoc "salary" vs),
        to_num (assoc "equity" vs), required (assoc "company_handle" vs) with
  | Some t, Some s, Some e, Some h =>
      let r := MkJob (next_job_id st) t s e h in
      Some (r, Build (companies st) (jobs st ++ [r]) (next_job_id st + 1))
  | _, _, _, _ => None
  end.

Record table : Type :=
  Table { trow : Type;
          tget : store -> list trow;
          tput : store -> list trow -> store;
          tcol : string -> option (column trow);
          tset : string -> sqlval -> trow -> option trow;
          tnew : store -> list (string * sqlval) -> option (trow * store) }.

Definition companies_table : table :=
  Table company companies
        (fun st l => Build l (jobs st) (next_job_id st))
        company_col company_set new_company.

Definition jobs_table : table :=
  Table job jobs
        (fun st l => Build (companies st) l (next_job_id st))
        job_col job_set new_job.

Definition table_of (t : string) : option table :=
  if t =? "companies" then Some companies_table
  else if t =? "jobs" then Some jobs_table
  else None.

(** A table under an alias: its columns answer to [name] and [alias.name]. *)
Definition aliased {X : Type} (alias : string) (f : string -> option X)
  (w : string) : option X :=
  match qualifier w with
  | Some (q, n) => if q =? alias then f n else None
  | None => f w
  end.

Definition scan (T : table) (alias : string) (st : store) : relation :=
  Relation (trow T) (tget T st) (aliased alias (tcol T)).

Definition same_type (a b : sqltype) : bool :=
  match a, b with
  | TyInt, TyInt | TyText, TyText | TyNumeric, TyNumeric => true
  | _, _ => false
  end.

Definition on_left {L R : Type} (c : column L) : column (L * option R) :=
  (fst c, fun p => snd c (fst p)).

Definition on_right {L R : Type} (c : column R) : column (L * option R) :=
  (fst c, fun p => match snd p with Some r => snd c r | None => VNull end).

Definition join_col (L R : relation) (w : string)
  : option (column (row L * option (row R))) :=
  match col L w, col R w with
  | Some c, None => Some (on_left c)
  | None, Some c => Some (on_right c)
  | _, _ => None
  end.

(** [L LEFT JOIN R ON lhs = rhs]: every row of [L], once with each row of
    [R] the condition pairs it with, and once with NULLs when there is
    none. *)
Definition left_join (L R : relation) (lhs rhs : string) : option relation :=
  match join_col L R lhs, join_col L R rhs with
  | Some (ta, f), Some (tb, g) =>
      if same_type ta tb then
        Some (Relation
                (row L * option (row R))
                (flat_map
                   (fun l =>
                      match filter (fun r => test CmpEq (f (l, Some r))
                                                  (g (l, Some r))) (rows R) with
                      | [] => [(l, None)]
                      | ms => map (fun r => (l, Some r)) ms
                      end) (rows L))
                (join_col L R))
      else None
  | _, _ => None
  end.

Definition source_relation (st : store) (s : source) : option relation :=
  match table_of (src_table s) with
  | None => None
  | Some T =>
      let L := scan T (match src_alias s with
                       | Some a => a
                       | None => src_table s
                       end) st in
      match src_join s with
      | None => Some L
      | Some j =>
          match table_of (join_table j) with
          | None => None
          | Some T' =>
              left_join L (scan T' (join_alias j) st) (join_lhs j) (join_rhs j)
          end
      end
  end.

(** *** Running a statement *)

Definition operand_value (ty : sqltype) (params : list jsval) (o : operand)
  : option sqlval :=
  match o with
  | OParam O => None
  | OParam (S n) =>
      match nth_error params n with
      | Some v => bind ty v
      | None => None
      end
  | OInt z =>
      match ty with
      | TyInt => Some (VInt z)
      | TyNumeric => Some (VNum (Numeric z 0))
      | TyText => None
      end
  end.

Definition compile_cond (R : relation) (params : list jsval) (c : cond)
  : option (row R -> bool) :=
  match col R (cond_col c) with
  | None => None
  | Some (ty, f) =>
      match cond_op c, ty with
      | CmpILike, (TyInt | TyNumeric) => None
      | _, _ =>
          option_map (fun v r => test (cond_op c) (f r) v)
                     (operand_value ty params (cond_rhs c))
      end
  end.

Definition compile_item (R : relation) (it : item)
  : option (string * (row R -> sqlval)) :=
  match col R (item_col it) with
  | None => None
  | Some (_, f) =>
      Some (match item_alias it with
            | Some a => a
            | None => unqualified (item_col it)
            end, f)
  end.

Definition compile_order (R : relation) (o : option string)
  : option (row R -> row R -> bool) :=
  match o with
  | None => Some (fun _ _ => true)
  | Some c =>
      match col R c with
      | Some (_, f) => Some (fun a b => leb (f a) (f b))
      | None => None
      end
  end.

Definition compile_set (T : table) (params : list jsval)
  (s : string * operand) : option (string * sqlval) :=
  match tcol T (fst s) with
  | None => None
  | Some (ty, _) =>
      option_map (fun v => (fst s, v)) (operand_value ty params (snd s))
  end.

Definition satisfies {R : Type} (ps : list (R -> bool)) (r : R) : bool :=
  forallb (fun p => p r) ps.

Definition project {R : Type} (proj : list (string * (R -> sqlval))) (r : R)
  : jsval :=
  JObj (map (fun p => (fst p, to_js (snd p r))) proj).

Fixpoint assign (T : table) (asg : list (string * sqlval)) (r : trow T)
  : option (trow T) :=
  match asg with
  | [] => Some r
  | (c, v) :: rest =>
      match tset T c v r with
      | Some r' => assign T rest r'
      | None => None
      end
  end.

(** The table after an update, and the rows it changed. *)
Fixpoint update_rows {A : Type} (hit : A -> bool) (f : A -> option A)
  (l : list A) : option (list A * list A) :=
  match l with
  | [] => Some ([], [])
  | r :: l' =>
      if hit r then
        match f r, update_rows hit f l' with
        | Some r', Some (all, changed) => Some (r' :: all, r' :: changed)
        | _, _ => None
        end
      else
        match update_rows hit f l' with
        | Some (all, changed) => Some (r :: all, changed)
        | None => None
        end
  end.

Definition operands (s : stmt) : list operand :=
  match s with
  | Select _ _ cs _ => map cond_rhs cs
  | Insert _ _ vs _ => vs
  | Update _ sets cs _ => map snd sets ++ map cond_rhs cs
  | Delete _ cs _ => map cond_rhs cs
  end.

Definition used (s : stmt) : list nat :=
  flat_map (fun o => match o with OParam n => [n] | OInt _ => [] end)
           (operands s).

(** The parameters supplied are exactly the placeholders [$1 .. $n] of the
    statement. *)
Definition params_ok (s : stmt) (params : list jsval) : bool :=
  forallb (fun n => (1 <=? n)%nat && (n <=? List.length params)%nat) (used s)
  && forallb (fun i => existsb (Nat.eqb i) (used s))
             (seq 1 (List.length params)).

Definition run (st : store) (s : stmt) (params : list jsval)
  : option (list jsval * store) :=
  match s with
  | Select items src cs order =>
      match source_relation st src with
      | None => None
      | Some R =>
          match Sql.sequence (map (compile_cond R params) cs),
                Sql.sequence (map (compile_item R) items),
                compile_order R order with
          | Some ps, Some proj, Some le =>
              Some (map (project proj)
                        (sort le (filter (satisfies ps) (rows R))), st)
          | _, _, _ => None
          end
      end
  | Insert t cols vals ret =>
      match table_of t with
      | None => None
      | Some T =>
          if (List.length cols =? List.length vals)%nat then
            match Sql.sequence (map (compile_set T params) (combine cols vals)),
                  Sql.sequence (map (compile_item (scan T t st)) ret) with
            | Some vs, Some proj =>
                match tnew T st vs with
                | Some (r, st') => Some ([project proj r], st')
                | None => None
                end
            | _, _ => None
            end
          else None
      end
  | Update t sets cs ret =>
      match table_of t with
      | None => None
      | Some T =>
          match Sql.sequence (map (compile_set T params) sets),
                Sql.sequence (map (compile_cond (scan T t st) params) cs),
                Sql.sequence (map (compile_item (scan T t st)) ret) with
          | Some asg, Some ps, Some proj =>
              match update_rows (satisfies ps) (assign T asg) (tget T st) with
              | Some (all, changed) =>
                  Some (map (project proj) changed, tput T st all)
              | None => None
              end
          | _, _, _ => None
          end
      end
  | Delete t cs ret =>
      match table_of t with
      | None => None
      | Some T =>
          match Sql.sequence (map (compile_cond (scan T t st) params) cs),
                Sql.sequence (map (compile_item (scan T t st)) ret) with
          | Some ps, Some proj =>
              Some (map (project proj)
                        (filter (satisfies ps) (tget T st)),
                    tput T st
                         (filter (fun r => negb (satisfies ps r)) (tget T st)))
          | _, _ => None
          end
      end
  end.

(** Modelled from the spec: the operation execute(sqlText, orderedParams)
    of the connection object ([db.query]), which is not under src/.  The
    text is parsed, the parameters must be exactly the placeholders of the
    statement, and the statement is run on the tables. *)
Definition execute (st : store) (sql : string) (params : list jsval)
  : option (list jsval * store) :=
  match Sql.parse sql with
  | Some s => if params_ok s params then run st s params else None
  | None => None
  end.

End Store.

(** ** Errors, the world and the monad of the models

    A call either returns or throws; it may query the store, and the world
    records every statement issued together with its parameters. *)

(** Modelled from the spec: the error classes of expressError.js are not
    under src/.  Section 6 names the two kinds the models raise;
    [DatabaseError] stands for a failure of the store itself, which the
    models let through. *)
Inductive error : Type :=
| BadRequestError (message : string)
| NotFoundError (message : string)
| DatabaseError.

Record world : Type :=
  World { db : Store.store; issued : list (string * list jsval) }.

Definition M (A : Type) : Type := world -> (error + A) * world.

Definition ret {A : Type} (a : A) : M A := fun w => (inr a, w).

Definition throw {A : Type} (e : error) : M A := fun w => (inl e, w).

Definition bind {A B : Type} (m : M A) (k : A -> M B) : M B :=
  fun w =>
    match m w with
    | (inr a, w') => k a w'
    | (inl e, w') => (inl e, w')
    end.

Notation "x <- m ;; k" := (bind m (fun x => k))
  (at level 61, m at next level, right associativity).

Notation "' p <- m ;; k" := (bind m (fun x => let 'p := x in k))
  (at level 61, p pattern, m at next level, right associativity).

(** [await db.query(sql, params)], giving the [rows] of the result. *)
Definition db_query (sql : string) (params : list jsval) : M (list jsval) :=
  fun w =>
    let log := JS.push (issued w) (sql, params) in
    match Store.execute (db w) sql params with
    | Some (rows, st) => (inr rows, World st log)
    | None => (inl DatabaseError, World (db w) log)
    end.

(** [v.k] and [v.k = x] and [delete v.k] on a value that is an object. *)
Definition prop (v : jsval) (k : string) : jsval :=
  match v with JObj o => JS.get o k | _ => JUndefined end.

Definition assign (v : jsval) (k : string) (x : jsval) : jsval :=
  match v with JObj o => JObj (JS.set o k x) | _ => v end.

Definition remove_prop (v : jsval) (k : string) : jsval :=
  match v with JObj o => JObj (JS.delete o k) | _ => v end.

(** ** helpers/sql.js *)

Fixpoint mapi {A B : Type} (f : A -> nat -> B) (idx : nat) (l : list A)
  : list B :=
  match l with
  | [] => []
  | x :: r => f x idx :: mapi f (S idx) r
  end.

Fixpoint lookup (m : list (string * string)) (k : string) : option string :=
  match m with
  | [] => None
  | (k', v) :: r => if k' =? k then Some v else lookup r k
  end.

(** [jsToSql[colName] || colName] *)
Definition column_name (jsToSql : list (string * string)) (colName : string)
  : string :=
  match lookup jsToSql colName with
  | Some c => c
  | None => colName
  end.

(** Modelled from the spec: [sqlForPartialUpdate] of helpers/sql.js is not
    under src/.  Section 4.2: it fails with a BadRequest-kind error if the
    data object has zero keys, checked before building any SQL; for each key
    it emits ["<column_name>"=$<n>] with [n] the 1-based index in iteration
    order, the column name taken from the mapping or else the key itself;
    it returns the comma-joined fragment and the ordered array of values. *)
Definition sqlForPartialUpdate (dataToUpdate : JS.obj)
  (jsToSql : list (string * string)) : M (string * list jsval) :=
  let keys := JS.keys dataToUpdate in
  if (List.length keys =? 0)%nat then throw (BadRequestError "No data")
  else
    let cols :=
      mapi (fun colName idx =>
              dq ++ column_name jsToSql colName ++ dq
              ++ "=$" ++ nat_to_string (idx + 1))
           0 keys in
    ret (JS.join ", " cols, JS.values dataToUpdate).

(** ** models/company.js *)

Module Company.

Definition duplicate_check_sql : string :=
  "SELECT handle" ++ nl ++
  "           FROM companies" ++ nl ++
  "           WHERE handle = $1".

Definition create_sql : string :=
  "INSERT INTO companies" ++ nl ++
  "           (handle, name, description, num_employees, logo_url)" ++ nl ++
  "           VALUES ($1, $2, $3, $4, $5)" ++ nl ++
  "           RETURNING handle, name, description, num_employees AS " ++ dq ++ "numEmployees" ++ dq ++ ", logo_url AS " ++ dq ++ "logoUrl" ++ dq.

(** [create({ handle, name, description, numEmployees, logoUrl })] *)
Definition create (data : JS.obj) : M jsval :=
  let handle := JS.get data "handle" in
  let name := JS.get data "name" in
  let description := JS.get data "description" in
  let numEmployees := JS.get data "numEmployees" in
  let logoUrl := JS.get data "logoUrl" in
  duplicateCheck <- db_query duplicate_check_sql [handle] ;;
  if truthy (JS.first duplicateCheck) then
    throw (BadRequestError ("Duplicate company: " ++ ToString handle))
  else
    result <- db_query create_sql
                [handle; name; description; numEmployees; logoUrl] ;;
    let company := JS.first result in
    ret company.

(** The SELECT list and FROM clause of [findAll] (lines 61-66). *)
Definition findAll_select : string :=
  "SELECT handle," ++ nl ++
  "                  name," ++ nl ++
  "                  description," ++ nl ++
  "                  num_employees AS " ++ dq ++ "numEmployees" ++ dq ++ "," ++ nl ++
  "                  logo_url AS " ++ dq ++ "logoUrl" ++ dq ++ nl ++
  "                FROM companies".

(** Lines 76-93: the bound values and the conditions, in the order they are
    pushed. *)
Definition findAll_where (minEmployees maxEmployees name : jsval)
  : list jsval * list string :=
  let queryValues : list jsval := [] in
  let whereExpressions : list string := [] in
  let '(queryValues, whereExpressions) :=
    if is_defined minEmployees then
      let queryValues := JS.push queryValues minEmployees in
      (queryValues,
       JS.push whereExpressions
         ("num_employees >= $" ++ nat_to_string (List.length queryValues)))
    else (queryValues, whereExpressions) in
  let '(queryValues, whereExpressions) :=
    if is_defined maxEmployees then
      let queryValues := JS.push queryValues maxEmployees in
      (queryValues,
       JS.push whereExpressions
         ("num_employees <= $" ++ nat_to_string (List.length queryValues)))
    else (queryValues, whereExpressions) in
  let '(queryValues, whereExpressions) :=
    if truthy name then
      let queryValues := JS.push queryValues (JStr ("%" ++ ToString name ++ "%")) in
      (queryValues,
       JS.push whereExpressions
         ("name ILIKE $" ++ nat_to_string (List.length queryValues)))
    else (queryValues, whereExpressions) in
  (queryValues, whereExpressions).

(** Lines 95-101: the final text. *)
Definition findAll_query (whereExpressions : list string) : string :=
  let query := findAll_select in
  let query :=
    if (0 <? List.length whereExpressions)%nat
    then query ++ " WHERE " ++ JS.join " AND " whereExpressions
    else query in
  query ++ " ORDER BY name".

(** [findAll(searchFilters = {})] *)
Definition findAll (searchFilters : JS.obj) : M (list jsval) :=
  let minEmployees := JS.get searchFilters "minEmployees" in
  let maxEmployees := JS.get searchFilters "maxEmployees" in
  let name := JS.get searchFilters "name" in
  if JS.gt minEmployees maxEmployees then
    throw (BadRequestError
             "Minimum employees cannot be greater than max employees.")
  else
    let '(queryValues, whereExpressions) :=
      findAll_where minEmployees maxEmployees name in
    companiesRes <- db_query (findAll_query whereExpressions) queryValues ;;
    ret companiesRes.

Definition get_company_sql : string :=
  "SELECT handle," ++ nl ++
  "                  name," ++ nl ++
  "                  description," ++ nl ++
  "                  num_employees AS " ++ dq ++ "numEmployees" ++ dq ++ "," ++ nl ++
  "                  logo_url AS " ++ dq ++ "logoUrl" ++ dq ++ nl ++
  "           FROM companies" ++ nl ++
  "           WHERE handle = $1".

Definition get_jobs_sql : string :=
  "SELECT id, title, salary, equity" ++ nl ++
  "      FROM jobs" ++ nl ++
  "      WHERE company_handle = $1".

(** [get(handle)] *)
Definition get (handle : string) : M jsval :=
  companyRes <- db_query get_company_sql [JStr handle] ;;
  let company := JS.first companyRes in
  if negb (truthy company) then
    throw (NotFoundError ("No company: " ++ handle))
  else
    jobsRes <- db_query get_jobs_sql [prop company "handle"] ;;
    let company := assign company "jobs" (JArr jobsRes) in
    ret company.

Definition update_sql (setCols handleVarIdx : string) : string :=
  "UPDATE companies " ++ nl ++
  "                      SET " ++ setCols ++ " " ++ nl ++
  "                      WHERE handle = " ++ handleVarIdx ++ " " ++ nl ++
  "                      RETURNING handle, " ++ nl ++
  "                                name, " ++ nl ++
  "                                description, " ++ nl ++
  "                                num_employees AS " ++ dq ++ "numEmployees" ++ dq ++ ", " ++ nl ++
  "                                logo_url AS " ++ dq ++ "logoUrl" ++ dq.

Definition jsToSql : list (string * string) :=
  [("numEmployees", "num_employees"); ("logoUrl", "logo_url")].

(** [update(handle, data)] *)
Definition update (handle : string) (data : JS.obj) : M jsval :=
  '(setCols, values) <- sqlForPartialUpdate data jsToSql ;;
  let handleVarIdx := "$" ++ nat_to_string (List.length values + 1) in
  let querySql := update_sql setCols handleVarIdx in
  result <- db_query querySql (values ++ [JStr handle])%list ;;
  let company := JS.first result in
  if negb (truthy company) then
    throw (NotFoundError ("No company: " ++ handle))
  else ret company.

Definition remove_sql : string :=
  "DELETE" ++ nl ++
  "           FROM companies" ++ nl ++
  "           WHERE handle = $1" ++ nl ++
  "           RETURNING handle".

(** [remove(handle)]; the function has no return statement. *)
Definition remove (handle : string) : M jsval :=
  result <- db_query remove_sql [JStr handle] ;;
  let company := JS.first result in
  if negb (truthy company) then
    throw (NotFoundError ("No company: " ++ handle))
  else ret JUndefined.

End Company.

(** ** models/job.js *)

Module Job.

Definition create_sql : string :=
  "INSERT INTO jobs" ++ nl ++
  "            (title, salary, equity, company_handle)" ++ nl ++
  "            VALUES" ++ nl ++
  "            ($1, $2, $3, $4)" ++ nl ++
  "            RETURNING id, title, salary, equity, company_handle AS " ++ dq ++ "companyHandle" ++ dq.

(** [create(data)] *)
Definition create (data : JS.obj) : M jsval :=
  result <- db_query create_sql
              [JS.get data "title"; JS.get data "salary";
               JS.get data "equity"; JS.get data "company_handle"] ;;
  let job := JS.first result in
  ret job.

(** The SELECT list and FROM clause of [findAll] (lines 44-49). *)
Definition findAll_select : string :=
  "SELECT j.id, j.title, j.salary, j.equity, " ++ nl ++
  "            j.company_handle AS " ++ dq ++ "companyHandle" ++ dq ++ ", c.name" ++ nl ++
  "            FROM jobs j" ++ nl ++
  "            LEFT JOIN companies c" ++ nl ++
  "            ON c.handle = j.company_handle".

(** Lines 51-70: the bound values and the conditions, in the order they are
    pushed. *)
Definition findAll_where (title minSalary hasEquity : jsval)
  : list jsval * list string :=
  let queryValues : list jsval := [] in
  let whereExpressions : list string := [] in
  let '(queryValues, whereExpressions) :=
    if is_defined title then
      let queryValues := JS.push queryValues (JStr ("%" ++ ToString title ++ "%")) in
      (queryValues,
       JS.push whereExpressions
         ("title ILIKE $" ++ nat_to_string (List.length queryValues)))
    else (queryValues, whereExpressions) in
  let '(queryValues, whereExpressions) :=
    if is_defined minSalary then
      let queryValues := JS.push queryValues minSalary in
      (queryValues,
       JS.push whereExpressions
         ("salary >= $" ++ nat_to_string (List.length queryValues)))
    else (queryValues, whereExpressions) in
  let whereExpressions :=
    if is_true hasEquity then JS.push whereExpressions "equity > 0"
    else whereExpressions in
  (queryValues, whereExpressions).

(** Lines 72-76: the final text. *)
Definition findAll_query (whereExpressions : list string) : string :=
  let query := findAll_select in
  let query :=
    if (0 <? List.length whereExpressions)%nat
    then query ++ " WHERE " ++ JS.join " AND " whereExpressions
    else query in
  query ++ " ORDER BY title".

(** [findAll(searchFilters = {})] *)
Definition findAll (searchFilters : JS.obj) : M (list jsval) :=
  let title := JS.get searchFilters "title" in
  let minSalary := JS.get searchFilters "minSalary" in
  let hasEquity := JS.get searchFilters "hasEquity" in
  let '(queryValues, whereExpressions) :=
    findAll_where title minSalary hasEquity in
  jobResults <- db_query (findAll_query whereExpressions) queryValues ;;
  ret jobResults.

Definition get_job_sql : string :=
  "SELECT  " ++ nl ++
  "            id, title, salary, equity, company_handle AS " ++ dq ++ "companyHandle" ++ dq ++ nl ++
  "            FROM jobs" ++ nl ++
  "            WHERE id = $1".

Definition get_company_sql : string :=
  "SELECT handle, name, description, " ++ nl ++
  "            num_employees AS " ++ dq ++ "numEmployees" ++ dq ++ ", " ++ nl ++
  "            logo_url AS " ++ dq ++ "logoUrl" ++ dq ++ " " ++ nl ++
  "            FROM companies" ++ nl ++
  "            WHERE handle = $1".

(** [get(id)] *)
Definition get (id : Z) : M jsval :=
  jobResults <- db_query get_job_sql [JNum id] ;;
  let job := JS.first jobResults in
  if negb (truthy job) then
    throw (NotFoundError ("Job ID: " ++ Z_to_string id ++ " not found."))
  else
    companyResults <- db_query get_company_sql [prop job "companyHandle"] ;;
    let job := remove_prop job "companyHandle" in
    let job := assign job "company" (JS.first companyResults) in
    ret job.

Definition update_sql (setCols _id : string) : string :=
  "UPDATE jobs" ++ nl ++
  "            SET " ++ setCols ++ nl ++
  "            WHERE id = " ++ _id ++ nl ++
  "            RETURNING id, title, salary, equity, company_handle AS " ++ dq ++ "companyHandle" ++ dq.

(** [update(id, data)] *)
Definition update (id : Z) (data : JS.obj) : M jsval :=
  '(setCols, values) <- sqlForPartialUpdate data [] ;;
  let _id := "$" ++ nat_to_string (List.length values + 1) in
  let query := update_sql setCols _id in
  updateRes <- db_query query (values ++ [JNum id])%list ;;
  let job := JS.first updateRes in
  if negb (truthy job) then
    throw (NotFoundError ("Job " ++ Z_to_string id ++ " not found."))
  else ret job.

Definition remove_sql : string :=
  "DELETE FROM jobs" ++ nl ++
  "           WHERE id = $1" ++ nl ++
  "           RETURNING id".

(** [remove(id)]; the function has no return statement. *)
Definition remove (id : Z) : M jsval :=
  result <- db_query remove_sql [JNum id] ;;
  let job := JS.first result in
  if negb (truthy job) then
    throw (NotFoundError ("Job " ++ Z_to_string id ++ " not found."))
  else ret JUndefined.

End Job.

(** ** The fixtures and expectations of the test suite (models/job.test.js) *)

Module Fixture.

Definition c1 : Store.company :=
  Store.MkCompany "c1" "C1" "Desc1" (Some 1%Z) (Some "http://c1.img").
Definition c2 : Store.company :=
  Store.MkCompany "c2" "C2" "Desc2" (Some 2%Z) (Some "http://c2.img").
Definition c3 : Store.company :=
  Store.MkCompany "c3" "C3" "Desc3" (Some 3%Z) (Some "http://c3.img").

Definition j1 : Store.job :=
  Store.MkJob 1 "t1" (Some 100%Z) (Some (Store.Numeric 1 1)) "c1".
Definition j2 : Store.job :=
  Store.MkJob 2 "t2" (Some 200%Z) (Some (Store.Numeric 2 1)) "c2".
Definition j3 : Store.job :=
  Store.MkJob 3 "t3" (Some 300%Z) (Some (Store.Numeric 3 1)) "c3".

Definition w : world := World (Store.Build [c1; c2; c3] [j1; j2; j3] 4) [].

(** The rows the tests of [findAll] expect. *)
Definition row1 : jsval :=
  JObj [("id", JNum 1); ("title", JStr "t1"); ("salary", JNum 100);
        ("equity", JStr "0.1"); ("companyHandle", JStr "c1");
        ("name", JStr "C1")].
Definition row2 : jsval :=
  JObj [("id", JNum 2); ("title", JStr "t2"); ("salary", JNum 200);
        ("equity", JStr "0.2"); ("companyHandle", JStr "c2");
        ("name", JStr "C2")].
Definition row3 : jsval :=
  JObj [("id", JNum 3); ("title", JStr "t3"); ("salary", JNum 300);
        ("equity", JStr "0.3"); ("companyHandle", JStr "c3");
        ("name", JStr "C3")].

Definition newJob : JS.obj :=
  [("company_handle", JStr "c1"); ("title", JStr "myTitle");
   ("salary", JNum 9999); ("equity", JStr "0.1")].

End Fixture.

(** ** A store with a job whose company is gone, one job without equity and
    one with equity zero *)

Module Sample.

Definition c1 : Store.company :=
  Store.MkCompany "c1" "C1" "Desc1" (Some 1%Z) (Some "http://c1.img").
Definition c2 : Store.company :=
  Store.MkCompany "c2" "C2" "Desc2" (Some 2%Z) (Some "http://c2.img").
Definition c3 : Store.company :=
  Store.MkCompany "c3" "C3" "Desc3" (Some 3%Z) None.

Definition j1 : Store.job :=
  Store.MkJob 1 "t1" (Some 100%Z) (Some (Store.Numeric 1 1)) "c1".
Definition j2 : Store.job :=
  Store.MkJob 2 "t2" (Some 200%Z) (Some (Store.Numeric 0 0)) "c2".
Definition j3 : Store.job :=
  Store.MkJob 3 "t3" None None "gone".

Definition store : Store.store := Store.Build [c3; c1; c2] [j3; j1; j2] 4.

Definition w : world := World store [].

End Sample.

(** ** Vocabulary of the specification *)

(** The public fields of a company row. *)
Definition company_fields (c : Store.company) : JS.obj :=
  [("handle", JStr (Store.c_handle c));
   ("name", JStr (Store.c_name c));
   ("description", JStr (Store.c_description c));
   ("numEmployees", Store.to_js (Store.of_opt Store.VInt (Store.c_num_employees c)));
   ("logoUrl", Store.to_js (Store.of_opt Store.VText (Store.c_logo_url c)))].

(** The public representation of a company row. *)
Definition company_obj (c : Store.company) : jsval := JObj (company_fields c).

(** The fields [id, title, salary, equity] of a job row. *)
Definition job_fields (j : Store.job) : JS.obj :=
  [("id", JNum (Store.j_id j));
   ("title", JStr (Store.j_title j));
   ("salary", Store.to_js (Store.of_opt Store.VInt (Store.j_salary j)));
   ("equity", Store.to_js (Store.of_opt Store.VNum (Store.j_equity j)))].

(** The public representation of a job row. *)
Definition job_obj (j : Store.job) : jsval :=
  JObj (job_fields j ++ [("companyHandle", JStr (Store.j_company_handle j))]).

(** A job paired with a company row of its handle, or with none. *)
Definition listing : Type := (Store.job * option Store.company)%type.

Definition listing_obj (p : listing) : jsval :=
  JObj (job_fields (fst p)
        ++ [("companyHandle", JStr (Store.j_company_handle (fst p)));
            ("name", match snd p with
                     | Some c => JStr (Store.c_name c)
                     | None => JNull
                     end)]).

Definition has_handle (h : string) (c : Store.company) : bool :=
  Store.c_handle c =? h.

Definition has_id (id : Z) (j : Store.job) : bool := (Store.j_id j =? id)%Z.

Definition owned_by (h : string) (j : Store.job) : bool :=
  Store.j_company_handle j =? h.

(** The rows of [jobs j LEFT JOIN companies c ON c.handle = j.company_handle]. *)
Definition listings (st : Store.store) : list listing :=
  flat_map
    (fun j =>
       match filter (has_handle (Store.j_company_handle j)) (Store.companies st) with
       | [] => [(j, None)]
       | cs => map (fun c => (j, Some c)) cs
       end) (Store.jobs st).

Definition positive_equity (j : Store.job) : bool :=
  match Store.j_equity j with
  | Some d => (0 <? Store.num_mant d)%Z
  | None => false
  end.

Definition by_name (a b : Store.company) : bool :=
  String.leb (Store.c_name a) (Store.c_name b).

Definition by_title (a b : listing) : bool :=
  String.leb (Store.j_title (fst a)) (Store.j_title (fst b)).

Definition no_company (h : string) (st : Store.store) : Prop :=
  forall c, In c (Store.companies st) -> Store.c_handle c <> h.

Definition no_job (id : Z) (st : Store.store) : Prop :=
  forall j, In j (Store.jobs st) -> Store.j_id j <> id.

Definition not_found {A : Type} (r : error + A) : Prop :=
  exists msg, r = inl (NotFoundError msg).

Definition bad_request {A : Type} (r : error + A) : Prop :=
  exists msg, r = inl (BadRequestError msg).

(** The call throws NotFound after having issued exactly the statement
    [sql] with [params], which the store ran and answered with no row. *)
Definition not_found_after {A : Type} (m : M A) (w : world)
  (sql : string) (params : list jsval) : Prop :=
  exists msg st,
    m w = (inl (NotFoundError msg), World st (issued w ++ [(sql, params)]))
    /\ Store.execute (db w) sql params = Some ([], st).

(** A key without the double-quote character. *)
Fixpoint plain (s : string) : bool :=
  match s with
  | EmptyString => true
  | String c r => negb (Ascii.eqb c (ascii_of_nat 34)) && plain r
  end.

Import Sql.

Definition not_found_iff {A : Type} (absent : Prop) (m : M A) (w : world)
  (sql : string) (params : list jsval) : Prop :=
  (absent <-> not_found (fst (m w)))
  /\ (absent -> not_found_after m w sql params).

(** A returned row is the company [c] of the store, with an employee count
    between [a] and [b]. *)
Definition within (a b : Z) (st : Store.store) (r : jsval) : Prop :=
  exists c e,
    In c (Store.companies st) /\ r = company_obj c
    /\ Store.c_num_employees c = Some e /\ (a <= e <= b)%Z.

(** A returned row is a job of the store with the name of a company of its
    handle, or with a null name when the store has no such company. *)
Definition listing_row (st : Store.store) (r : jsval) : Prop :=
  exists j name,
    In j (Store.jobs st)
    /\ r = JObj (job_fields j
                 ++ [("companyHandle", JStr (Store.j_company_handle j));
                     ("name", name)])
    /\ ((exists c, In c (Store.companies st)
                   /\ Store.c_handle c = Store.j_company_handle j
                   /\ name = JStr (Store.c_name c))
        \/ (no_company (Store.j_company_handle j) st /\ name = JNull)).

Definition count (b : bool) : nat := if b then 1 else 0.

Definition when {A : Type} (b : bool) (x : A) : list A := if b then [x] else [].

(** *** Search criteria

    The filter-query builders restated as an ordered iteration with an
    explicit index (section 9 of the specification): a list of criteria, and
    the numbering of their placeholders in list order. *)

(** A search criterion: a comparison of a column with a bound value, or with
    a literal written in the statement. *)
Inductive criterion : Type :=
| Bound (col : string) (op : cmp) (v : jsval)
| Fixed (col : string) (op : cmp) (z : Z).

(** The conditions of the criteria, placeholders numbered from [next] on in
    the order of the list. *)
Fixpoint number (cs : list criterion) (next : nat) : list cond :=
  match cs with
  | [] => []
  | Bound c o _ :: r => Cond c o (OParam next) :: number r (S next)
  | Fixed c o z :: r => Cond c o (OInt z) :: number r next
  end.

Definition bound_value (c : criterion) : option jsval :=
  match c with Bound _ _ v => Some v | Fixed _ _ _ => None end.

Definition bound_values (cs : list criterion) : list jsval :=
  flat_map (fun c => match bound_value c with Some v => [v] | None => [] end) cs.

Definition describe (c : criterion) : string * cmp * option jsval :=
  match c with
  | Bound col op v => (col, op, Some v)
  | Fixed col op _ => (col, op, None)
  end.

(** The value a condition is bound to by the parameter array. *)
Definition resolve (params : list jsval) (c : cond) : option jsval :=
  match cond_rhs c with
  | OParam (S n) => nth_error params n
  | _ => None
  end.

(** A condition as the store reads it: column, comparison, bound value. *)
Definition reads (params : list jsval) (c : cond)
  : string * cmp * option jsval :=
  (cond_col c, cond_op c, resolve params c).

Definition company_criteria (minEmployees maxEmployees name : jsval)
  : list criterion :=
  (when (is_defined minEmployees) (Bound "num_employees" CmpGe minEmployees)
   ++ when (is_defined maxEmployees) (Bound "num_employees" CmpLe maxEmployees)
   ++ when (truthy name)
           (Bound "name" CmpILike (JStr ("%" ++ ToString name ++ "%"))))%list.

Definition job_criteria (title minSalary hasEquity : jsval) : list criterion :=
  (when (is_defined title)
        (Bound "title" CmpILike (JStr ("%" ++ ToString title ++ "%")))
   ++ when (is_defined minSalary) (Bound "salary" CmpGe minSalary)
   ++ when (is_true hasEquity) (Fixed "equity" CmpGt 0))%list.

Definition criterion_cond (c : criterion) : cond :=
  match c with
  | Bound col op _ => Cond col op (OParam 1)
  | Fixed col op z => Cond col op (OInt z)
  end.

(** What a criterion selects in a relation. *)
Definition compile_criterion (R : Store.relation) (c : criterion)
  : option (Store.row R -> bool) :=
  Store.compile_cond R (match bound_value c with Some v => [v] | None => [] end)
                     (criterion_cond c).

(** *** The statements as the store reads them *)

Definition returning_company : list item :=
  [Item "handle" None; Item "name" None; Item "description" None;
   Item "num_employees" (Some "numEmployees"); Item "logo_url" (Some "logoUrl")].

Definition returning_job : list item :=
  [Item "id" None; Item "title" None; Item "salary" None; Item "equity" None;
   Item "company_handle" (Some "companyHandle")].

Definition listing_items : list item :=
  [Item "j.id" None; Item "j.title" None; Item "j.salary" None;
   Item "j.equity" None; Item "j.company_handle" (Some "companyHandle");
   Item "c.name" None].

Definition listing_source : source :=
  Source "jobs" (Some "j")
         (Some (Join "companies" "c" "c.handle" "j.company_handle")).

Definition listing_relation (st : Store.store) : Store.relation :=
  Store.Relation listing (listings st)
    (Store.join_col (Store.scan Store.jobs_table "j" st)
                    (Store.scan Store.companies_table "c" st)).

(** One item of a SET clause, and the clause as tokens and as syntax. *)
Definition set_item (c : string) (idx : nat) : string :=
  dq ++ c ++ dq ++ "=$" ++ nat_to_string (idx + 1).

Fixpoint set_tokens (cols : list string) (idx : nat) : list token :=
  match cols with
  | [] => []
  | c :: r =>
      TQuoted c :: TOp "=" :: TParam (idx + 1)
      :: match r with
         | [] => []
         | _ :: _ => TComma :: set_tokens r (S idx)
         end
  end.

Definition set_clauses (cols : list string) (idx : nat)
  : list (string * operand) :=
  mapi (fun c i => (c, OParam (i + 1))) idx cols.

(** The text of the UPDATE statement issued for a non-empty [data]. *)
Definition update_statement (sql : string -> string -> string)
  (m : list (string * string)) (data : JS.obj) : string :=
  sql (JS.join ", " (mapi set_item 0 (map (column_name m) (JS.keys data))))
      ("$" ++ nat_to_string (List.length (JS.values data) + 1)).

(** *** Vocabulary of the further properties *)

(** The row [r] after [f], or as it was where [f] has no answer. *)
Definition updated {A : Type} (f : A -> option A) (r : A) : A :=
  match f r with Some r' => r' | None => r end.

(** The statement is a SELECT. *)
Definition is_select (sql : string) : bool :=
  match Sql.parse sql with
  | Some (Select _ _ _ _) => true
  | _ => false
  end.

(** The statements a call has issued, in order. *)
Definition issued_by {A : Type} (m : M A) (w : world)
  : list (string * list jsval) :=
  skipn (List.length (issued w)) (issued (snd (m w))).









(** The keys of the store identify its rows: no two companies have the same
    handle, no two jobs the same id, and every id has been given out. *)
Definition well_keyed (st : Store.store) : Prop :=
  NoDup (map Store.c_handle (Store.companies st))
  /\ NoDup (map Store.j_id (Store.jobs st))
  /\ forall j, In j (Store.jobs st) -> (Store.j_id j < Store.next_job_id st)%Z.

(** * Verification *)

(** ** The test suite of the repository, run on the model *)

Example company_create_duplicate :
  fst (Company.create [("handle", JStr "c1"); ("name", JStr "C1");
                       ("description", JStr "Desc1")] Fixture.w)
  = inl (BadRequestError "Duplicate company: c1").
Proof. vm_compute. reflexivity. Qed.

Example company_create_new :
  fst (Company.create [("handle", JStr "new"); ("name", JStr "New");
                       ("description", JStr "New Description");
                       ("numEmployees", JNum 1);
                       ("logoUrl", JStr "http://new.img")] Fixture.w)
  = inr (JObj [("handle", JStr "new"); ("name", JStr "New");
               ("description", JStr "New Description"); ("numEmployees", JNum 1);
               ("logoUrl", JStr "http://new.img")]).
Proof. vm_compute. reflexivity. Qed.

Example test_create_works :
  fst (Job.create Fixture.newJob Fixture.w)
  = inr (JObj [("id", JNum 4); ("title", JStr "myTitle"); ("salary", JNum 9999);
               ("equity", JStr "0.1"); ("companyHandle", JStr "c1")]).
Proof. vm_compute. reflexivity. Qed.

Example test_findAll_no_filter :
  fst (Job.findAll [] Fixture.w)
  = inr [Fixture.row1; Fixture.row2; Fixture.row3].
Proof. vm_compute. reflexivity. Qed.

Example test_findAll_title :
  fst (Job.findAll [("title", JStr "1")] Fixture.w) = inr [Fixture.row1].
Proof. vm_compute. reflexivity. Qed.

Example test_findAll_minSalary :
  fst (Job.findAll [("minSalary", JNum 300)] Fixture.w) = inr [Fixture.row3].
Proof. vm_compute. reflexivity. Qed.

Example test_findAll_equity :
  fst (Job.findAll [("hasEquity", JBool true)] Fixture.w)
  = inr [Fixture.row1; Fixture.row2; Fixture.row3].
Proof. vm_compute. reflexivity. Qed.

Example test_findAll_minSalary_and_title :
  fst (Job.findAll [("title", JStr "2"); ("minSalary", JNum 100)] Fixture.w)
  = inr [Fixture.row2].
Proof. vm_compute. reflexivity. Qed.

Example test_findAll_all_filters :
  fst (Job.findAll [("title", JStr "1"); ("minSalary", JNum 100);
                    ("hasEquity", JBool true)] Fixture.w)
  = inr [Fixture.row1].
Proof. vm_compute. reflexivity. Qed.

Example test_get_works :
  fst (Job.get 1 Fixture.w)
  = inr (JObj [("id", JNum 1); ("title", JStr "t1"); ("salary", JNum 100);
               ("equity", JStr "0.1");
               ("company",
                JObj [("handle", JStr "c1"); ("name", JStr "C1");
                      ("description", JStr "Desc1"); ("numEmployees", JNum 1);
                      ("logoUrl", JStr "http://c1.img")])]).
Proof. vm_compute. reflexivity. Qed.

Example test_get_not_found :
  fst (Job.get 999 Fixture.w) = inl (NotFoundError "Job ID: 999 not found.").
Proof. vm_compute. reflexivity. Qed.

Example test_update_works :
  fst (Job.update 1 [("title", JStr "newT1")] Fixture.w)
  = inr (JObj [("id", JNum 1); ("title", JStr "newT1"); ("salary", JNum 100);
               ("equity", JStr "0.1"); ("companyHandle", JStr "c1")]).
Proof. vm_compute. reflexivity. Qed.

Example test_update_no_data :
  fst (Job.update 1 [] Fixture.w) = inl (BadRequestError "No data").
Proof. reflexivity. Qed.

Example test_remove_works :
  fst ((_ <- Job.remove 1 ;; db_query "SELECT id FROM jobs WHERE id=$1" [JNum 1])
         Fixture.w)
  = inr [].
Proof. vm_compute. reflexivity. Qed.

Example test_remove_not_found :
  fst (Job.remove 999 Fixture.w) = inl (NotFoundError "Job 999 not found.").
Proof. vm_compute. reflexivity. Qed.


(** ** Strings, comparisons and sorting *)

Lemma compare_refl (a : string) : String.compare a a = Eq.
Proof.
  pose proof (String.compare_antisym a a) as H.
  destruct (String.compare a a); simpl in H; congruence.
Qed.

Lemma compare_eqb (a b : string) :
  match String.compare a b with Eq => true | _ => false end = (a =? b).
Proof.
  destruct (String.eqb_spec a b) as [->|N].
  - now rewrite compare_refl.
  - destruct (String.compare a b) eqn:E; auto.
    apply String.compare_eq_iff in E. contradiction.
Qed.

Lemma Zcompare_eqb (a b : Z) :
  match (a ?= b)%Z with Eq => true | _ => false end = (a =? b)%Z.
Proof.
  destruct (Z.eqb_spec a b) as [->|N].
  - now rewrite Z.compare_refl.
  - destruct (a ?= b)%Z eqn:E; auto. apply Z.compare_eq in E. contradiction.
Qed.

Lemma append_assoc (a b c : string) : (a ++ b) ++ c = a ++ (b ++ c).
Proof. induction a as [|x a IH]; simpl; [|rewrite IH]; reflexivity. Qed.

Lemma append_nil_r (a : string) : a ++ EmptyString = a.
Proof. induction a as [|x a IH]; simpl; [|rewrite IH]; reflexivity. Qed.

Section Sorting.

Context {A : Type} (le : A -> A -> bool).

Lemma insert_perm (x : A) (l : list A) :
  Permutation (x :: l) (Store.insert le x l).
Proof.
  induction l as [|y l IH]; simpl; auto.
  destruct (le x y); auto.
  rewrite perm_swap. now constructor.
Qed.

Lemma sort_perm (l : list A) : Permutation l (Store.sort le l).
Proof.
  induction l as [|x l IH]; simpl; auto.
  rewrite <- insert_perm. now constructor.
Qed.

Lemma in_sort (x : A) (l : list A) : In x (Store.sort le l) <-> In x l.
Proof.
  split; apply Permutation_in; [symmetry|]; apply sort_perm.
Qed.

Hypothesis le_total : forall a b, le a b = true \/ le b a = true.

Lemma insert_sorted (x : A) (l : list A) :
  Sorted (fun a b => le a b = true) l ->
  Sorted (fun a b => le a b = true) (Store.insert le x l).
Proof.
  induction 1 as [|y l S IH H]; simpl.
  - repeat constructor.
  - destruct (le x y) eqn:E.
    + repeat constructor; assumption.
    + constructor; [assumption|].
      assert (Ryx : le y x = true) by (destruct (le_total x y); [congruence|assumption]).
      destruct l as [|z l]; simpl.
      * repeat constructor; assumption.
      * inversion H; subst. destruct (le x z); constructor; assumption.
Qed.

Lemma sort_sorted (l : list A) :
  Sorted (fun a b => le a b = true) (Store.sort le l).
Proof.
  induction l; simpl; [constructor | now apply insert_sorted].
Qed.

End Sorting.

Lemma sort_unordered {A : Type} (l : list A) :
  Store.sort (fun _ _ => true) l = l.
Proof. induction l as [|x l IH]; simpl; [|rewrite IH; destruct l]; reflexivity. Qed.

Lemma by_name_total (a b : Store.company) :
  by_name a b = true \/ by_name b a = true.
Proof. apply String.leb_total. Qed.

Lemma by_title_total (a b : listing) :
  by_title a b = true \/ by_title b a = true.
Proof. apply String.leb_total. Qed.

(** ** Lists, options and objects *)

Lemma filter_nil_iff {A : Type} (p : A -> bool) (l : list A) :
  filter p l = [] <-> forall x, In x l -> p x = false.
Proof.
  induction l as [|y l IH]; simpl.
  - split; [intros _ x []|reflexivity].
  - destruct (p y) eqn:E.
    + split; [discriminate|]. intros N. specialize (N y (or_introl eq_refl)). congruence.
    + rewrite IH. split.
      * intros N x [<-|I]; auto.
      * intros N x I. apply N. now right.
Qed.

Lemma map_nil_iff {A B : Type} (f : A -> B) (l : list A) :
  map f l = [] <-> l = [].
Proof. destruct l; simpl; split; congruence. Qed.

Lemma forallb_map {A B : Type} (p : B -> bool) (g : A -> B) (l : list A) :
  forallb p (map g l) = forallb (fun x => p (g x)) l.
Proof. induction l as [|x l IH]; simpl; [|rewrite IH]; reflexivity. Qed.

Lemma mapi_map {A B C : Type} (g : A -> B) (f : B -> nat -> C) (idx : nat) (l : list A) :
  mapi (fun x i => f (g x) i) idx l = mapi f idx (map g l).
Proof.
  revert idx. induction l as [|x l IH]; intros idx; simpl; [|rewrite IH]; reflexivity.
Qed.

Lemma find_filter {A : Type} (p : A -> bool) (l : list A) :
  find p l = hd_error (filter p l).
Proof.
  induction l as [|x l IH]; [reflexivity|]. simpl. destruct (p x); [reflexivity|assumption].
Qed.

Lemma sequence_snoc {A : Type} (l : list (option A)) (x : option A) :
  Sql.sequence (l ++ [x])
  = match Sql.sequence l, x with
    | Some a, Some y => Some (a ++ [y])%list
    | _, _ => None
    end.
Proof.
  induction l as [|[a|] l IH]; cbn [app Sql.sequence].
  - destruct x; reflexivity.
  - rewrite IH. destruct (Sql.sequence l), x; reflexivity.
  - reflexivity.
Qed.

Lemma update_rows_changed {A : Type} (hit : A -> bool) (f : A -> option A) (l all changed : list A) :
  Store.update_rows hit f l = Some (all, changed) ->
  (changed = [] <-> forall r, In r l -> hit r = false).
Proof.
  revert all changed. induction l as [|r l IH]; simpl; intros all changed H.
  - inversion H; subst. split; [intros _ r []|reflexivity].
  - destruct (hit r) eqn:E.
    + destruct (f r); [|discriminate].
      destruct (Store.update_rows hit f l) as [[al ch]|]; [|discriminate].
      inversion H; subst. split; [discriminate|].
      intros N. specialize (N r (or_introl eq_refl)). congruence.
    + destruct (Store.update_rows hit f l) as [[al ch]|]; [|discriminate].
      inversion H; subst. rewrite (IH al changed eq_refl).
      split.
      * intros N x [<-|I]; auto.
      * intros N x I. apply N. now right.
Qed.

Lemma get_absent (o : JS.obj) (k : string) :
  JS.has o k = false -> JS.get o k = JUndefined.
Proof.
  induction o as [|[x v] o IH]; [reflexivity|]. cbn [JS.has JS.get].
  destruct (x =? k); [discriminate|]. exact IH.
Qed.

Lemma get_delete_other (f : JS.obj) (k k' : string) :
  k <> k' -> JS.get (JS.delete f k) k' = JS.get f k'.
Proof.
  intros N. induction f as [|[x v] f IH]; [reflexivity|]. cbn [JS.delete JS.get].
  destruct (String.eqb_spec x k) as [->|Nk].
  - rewrite IH. apply String.eqb_neq in N. now rewrite N.
  - cbn [JS.get]. now rewrite IH.
Qed.

Lemma get_delete_same (f : JS.obj) (k : string) :
  JS.get (JS.delete f k) k = JUndefined.
Proof.
  induction f as [|[x v] f IH]; [reflexivity|]. cbn [JS.delete].
  destruct (String.eqb_spec x k) as [->|Nk]; [assumption|].
  cbn [JS.get]. apply String.eqb_neq in Nk. now rewrite Nk.
Qed.

Lemma undefined_iff (v : jsval) : is_defined v = false <-> v = JUndefined.
Proof. destruct v; cbn; split; congruence. Qed.

Lemma not_true_iff (v : jsval) : is_true v = false <-> v <> JBool true.
Proof. destruct v as [| |[|]| | | |]; cbn; split; congruence. Qed.

Lemma gt_num (a b : Z) : JS.gt (JNum a) (JNum b) = (b <? a)%Z.
Proof. reflexivity. Qed.

(** ** Conditions of the store *)

Lemma satisfies_one {R : Type} (p : R -> bool) (r : R) :
  Store.satisfies [p] r = p r.
Proof. unfold Store.satisfies; simpl. apply andb_true_r. Qed.

Lemma satisfies_snoc {R : Type} (ps : list (R -> bool)) (p : R -> bool) (r : R) :
  Store.satisfies (ps ++ [p]) r = Store.satisfies ps r && p r.
Proof.
  unfold Store.satisfies. rewrite forallb_app. cbn. now rewrite andb_true_r.
Qed.

Lemma filter_one {R : Type} (p q : R -> bool) (l : list R) :
  (forall r, p r = q r) -> filter (Store.satisfies [p]) l = filter q l.
Proof. intros E. apply filter_ext. intros r. rewrite satisfies_one. apply E. Qed.

Lemma filter_all {R : Type} (l : list R) : filter (Store.satisfies []) l = l.
Proof. induction l as [|x l IH]; simpl; [|rewrite IH]; reflexivity. Qed.

Lemma first_project {R : Type} (proj : list (string * (R -> Store.sqlval)))
  (l : list R) :
  l <> [] -> truthy (JS.first (map (Store.project proj) l)) = true.
Proof. destruct l; [contradiction|reflexivity]. Qed.

Lemma no_company_iff (h : string) (st : Store.store) :
  filter (has_handle h) (Store.companies st) = [] <-> no_company h st.
Proof.
  rewrite filter_nil_iff. unfold no_company, has_handle.
  split; intros N c I; specialize (N c I).
  - now apply String.eqb_neq.
  - now apply String.eqb_neq.
Qed.

Lemma no_job_iff (id : Z) (st : Store.store) :
  filter (has_id id) (Store.jobs st) = [] <-> no_job id st.
Proof.
  rewrite filter_nil_iff. unfold no_job, has_id.
  split; intros N c I; specialize (N c I).
  - now apply Z.eqb_neq.
  - now apply Z.eqb_neq.
Qed.

Lemma test_ge_int (o : option Z) (a : Z) :
  Store.test CmpGe (Store.of_opt Store.VInt o) (Store.VInt a) = true ->
  exists e, o = Some e /\ (a <= e)%Z.
Proof.
  destruct o as [e|]; [|discriminate]. cbn. intros H. exists e. split; [reflexivity|].
  destruct (e ?= a)%Z eqn:E; try discriminate.
  - apply Z.compare_eq in E. lia.
  - rewrite Z.compare_gt_iff in E. lia.
Qed.

Lemma test_le_int (o : option Z) (b : Z) :
  Store.test CmpLe (Store.of_opt Store.VInt o) (Store.VInt b) = true ->
  exists e, o = Some e /\ (e <= b)%Z.
Proof.
  destruct o as [e|]; [|discriminate]. cbn. intros H. exists e. split; [reflexivity|].
  destruct (e ?= b)%Z eqn:E; try discriminate.
  - apply Z.compare_eq in E. lia.
  - rewrite Z.compare_lt_iff in E. lia.
Qed.

Lemma test_positive (e : option Store.numeric) :
  Store.test CmpGt (Store.of_opt Store.VNum e) (Store.VNum (Store.Numeric 0 0))
  = match e with Some d => (0 <? Store.num_mant d)%Z | None => false end.
Proof.
  destruct e as [[m s]|]; [|reflexivity].
  cbn [Store.of_opt Store.test Store.compare Store.numeric_compare
       Store.num_mant Store.num_scale].
  unfold Store.numeric_compare. cbn [Store.num_mant Store.num_scale].
  change (10 ^ Z.of_nat 0)%Z with 1%Z.
  rewrite Z.mul_1_r, Z.mul_0_l. unfold Z.ltb. rewrite (Z.compare_antisym m 0).
  destruct (m ?= 0)%Z; reflexivity.
Qed.

Lemma operand_last (ty : Store.sqltype) (vals : list jsval) (v : jsval) :
  Store.operand_value ty (vals ++ [v]) (OParam (List.length vals + 1))
  = Store.bind ty v.
Proof.
  rewrite Nat.add_1_r. cbn [Store.operand_value].
  rewrite nth_error_app2 by lia. now rewrite Nat.sub_diag.
Qed.

Lemma params_ok_seq (s : stmt) (params : list jsval) :
  Store.used s = seq 1 (List.length params) -> Store.params_ok s params = true.
Proof.
  intros U. unfold Store.params_ok. rewrite U.
  apply andb_true_iff. split; apply forallb_forall; intros n I.
  - apply in_seq in I. apply andb_true_iff. split; apply Nat.leb_le; lia.
  - apply existsb_exists. exists n. split; [assumption|apply Nat.eqb_refl].
Qed.

Lemma in_listings (st : Store.store) (p : listing) :
  In p (listings st) ->
  In (fst p) (Store.jobs st)
  /\ match snd p with
     | Some c => In c (Store.companies st)
                 /\ Store.c_handle c = Store.j_company_handle (fst p)
     | None => no_company (Store.j_company_handle (fst p)) st
     end.
Proof.
  unfold listings. intros I. apply in_flat_map in I as [j [J I]].
  destruct (filter _ _) as [|c cs] eqn:F.
  - destruct I as [<-|[]]. split; [assumption|]. now apply no_company_iff.
  - apply in_map_iff in I as [c' [<- I]]. split; [assumption|].
    rewrite <- F in I. apply filter_In in I as [I H].
    split; [assumption|]. now apply String.eqb_eq.
Qed.

(** ** The fixed statements: get, remove, create *)

(** Runs a statement whose parse is given by the lemma [P]. *)
Ltac run_parsed P :=
  unfold Store.execute; rewrite P; cbn; rewrite ?sort_unordered.

Lemma parse_company_get :
  Sql.parse Company.get_company_sql
  = Some (Select [Item "handle" None; Item "name" None; Item "description" None;
                  Item "num_employees" (Some "numEmployees");
                  Item "logo_url" (Some "logoUrl")]
                 (Source "companies" None None)
                 [Cond "handle" CmpEq (OParam 1)] None).
Proof. vm_compute. reflexivity. Qed.

Lemma exec_company_get (st : Store.store) (h : string) :
  Store.execute st Company.get_company_sql [JStr h]
  = Some (map company_obj (filter (has_handle h) (Store.companies st)), st).
Proof.
  run_parsed parse_company_get.
  rewrite (filter_one _ (has_handle h)) by (intros; apply compare_eqb).
  reflexivity.
Qed.

Lemma parse_company_jobs :
  Sql.parse Company.get_jobs_sql
  = Some (Select [Item "id" None; Item "title" None; Item "salary" None;
                  Item "equity" None]
                 (Source "jobs" None None)
                 [Cond "company_handle" CmpEq (OParam 1)] None).
Proof. vm_compute. reflexivity. Qed.

Lemma exec_company_jobs (st : Store.store) (h : string) :
  Store.execute st Company.get_jobs_sql [JStr h]
  = Some (map (fun j => JObj (job_fields j))
              (filter (owned_by h) (Store.jobs st)), st).
Proof.
  run_parsed parse_company_jobs.
  rewrite (filter_one _ (owned_by h)) by (intros; apply compare_eqb).
  reflexivity.
Qed.

Lemma parse_company_remove :
  Sql.parse Company.remove_sql
  = Some (Delete "companies" [Cond "handle" CmpEq (OParam 1)]
                 [Item "handle" None]).
Proof. vm_compute. reflexivity. Qed.

Lemma exec_company_remove (st : Store.store) (h : string) :
  Store.execute st Company.remove_sql [JStr h]
  = Some (map (fun c => JObj [("handle", JStr (Store.c_handle c))])
              (filter (has_handle h) (Store.companies st)),
          Store.Build (filter (fun c => negb (has_handle h c)) (Store.companies st))
                      (Store.jobs st) (Store.next_job_id st)).
Proof.
  run_parsed parse_company_remove.
  rewrite (filter_one _ (has_handle h)) by (intros; apply compare_eqb).
  do 3 f_equal. apply filter_ext. intros c.
  now rewrite andb_true_r, compare_eqb.
Qed.

Lemma parse_job_get :
  Sql.parse Job.get_job_sql
  = Some (Select [Item "id" None; Item "title" None; Item "salary" None;
                  Item "equity" None;
                  Item "company_handle" (Some "companyHandle")]
                 (Source "jobs" None None)
                 [Cond "id" CmpEq (OParam 1)] None).
Proof. vm_compute. reflexivity. Qed.

Lemma exec_job_get (st : Store.store) (id : Z) :
  Store.execute st Job.get_job_sql [JNum id]
  = Some (map job_obj (filter (has_id id) (Store.jobs st)), st).
Proof.
  run_parsed parse_job_get.
  rewrite (filter_one _ (has_id id)) by (intros; apply Zcompare_eqb).
  reflexivity.
Qed.

Lemma parse_job_company :
  Sql.parse Job.get_company_sql
  = Some (Select [Item "handle" None; Item "name" None; Item "description" None;
                  Item "num_employees" (Some "numEmployees");
                  Item "logo_url" (Some "logoUrl")]
                 (Source "companies" None None)
                 [Cond "handle" CmpEq (OParam 1)] None).
Proof. vm_compute. reflexivity. Qed.

Lemma exec_job_company (st : Store.store) (h : string) :
  Store.execute st Job.get_company_sql [JStr h]
  = Some (map company_obj (filter (has_handle h) (Store.companies st)), st).
Proof.
  run_parsed parse_job_company.
  rewrite (filter_one _ (has_handle h)) by (intros; apply compare_eqb).
  reflexivity.
Qed.

Lemma parse_job_remove :
  Sql.parse Job.remove_sql
  = Some (Delete "jobs" [Cond "id" CmpEq (OParam 1)] [Item "id" None]).
Proof. vm_compute. reflexivity. Qed.

Lemma exec_job_remove (st : Store.store) (id : Z) :
  Store.execute st Job.remove_sql [JNum id]
  = Some (map (fun j => JObj [("id", JNum (Store.j_id j))])
              (filter (has_id id) (Store.jobs st)),
          Store.Build (Store.companies st)
                      (filter (fun j => negb (has_id id j)) (Store.jobs st))
                      (Store.next_job_id st)).
Proof.
  run_parsed parse_job_remove.
  rewrite (filter_one _ (has_id id)) by (intros; apply Zcompare_eqb).
  do 3 f_equal. apply filter_ext. intros c.
  now rewrite andb_true_r, Zcompare_eqb.
Qed.

Lemma parse_job_create :
  Sql.parse Job.create_sql
  = Some (Insert "jobs" ["title"; "salary"; "equity"; "company_handle"]
                 [OParam 1; OParam 2; OParam 3; OParam 4] returning_job).
Proof. vm_compute. reflexivity. Qed.

Lemma exec_job_create (st st' : Store.store) (t s e h : jsval) (rows : list jsval) :
  Store.execute st Job.create_sql [t; s; e; h] = Some (rows, st') ->
  exists j,
    rows = [job_obj j]
    /\ Store.bind Store.TyText h = Some (Store.VText (Store.j_company_handle j))
    /\ Store.j_id j = Store.next_job_id st
    /\ Store.jobs st' = (Store.jobs st ++ [j])%list.
Proof.
  unfold Store.execute. rewrite parse_job_create. cbn -[Store.bind Store.new_job].
  destruct (Store.bind Store.TyText t) as [vt|]; [|discriminate].
  destruct (Store.bind Store.TyInt s) as [vs|]; [|discriminate].
  destruct (Store.bind Store.TyNumeric e) as [ve|]; [|discriminate].
  destruct (Store.bind Store.TyText h) as [vh|]; [|discriminate].
  cbn [option_map]. unfold Store.new_job. cbn [Store.assoc String.eqb Ascii.eqb Bool.eqb].
  destruct (Store.required vt) as [x|]; [|discriminate].
  destruct (Store.to_int vs) as [y|]; [|discriminate].
  destruct (Store.to_num ve) as [z|]; [|discriminate].
  destruct vh as [| |hh|]; try discriminate. cbn [Store.required].
  intros E. inversion E; subst. clear E.
  eexists. repeat split.
Qed.

Lemma company_get_spec (h : string) (w : world) :
  Company.get h w =
  match filter (has_handle h) (Store.companies (db w)) with
  | [] => (inl (NotFoundError ("No company: " ++ h)),
           World (db w) (issued w ++ [(Company.get_company_sql, [JStr h])]))
  | c :: _ =>
      (inr (JObj (company_fields c
                  ++ [("jobs", JArr (map (fun j => JObj (job_fields j))
                                         (filter (owned_by (Store.c_handle c))
                                                 (Store.jobs (db w)))))])),
       World (db w) (issued w ++ [(Company.get_company_sql, [JStr h]);
                                  (Company.get_jobs_sql, [JStr (Store.c_handle c)])]))
  end.
Proof.
  unfold Company.get, bind, db_query.
  rewrite exec_company_get.
  destruct (filter (has_handle h) (Store.companies (db w))) as [|c cs].
  - reflexivity.
  - cbn [map JS.first hd truthy company_obj negb prop company_fields JS.get].
    cbn [String.eqb Ascii.eqb Bool.eqb db issued].
    rewrite exec_company_jobs.
    unfold ret, JS.push. rewrite <- app_assoc. reflexivity.
Qed.

Lemma job_get_spec (id : Z) (w : world) :
  Job.get id w =
  match filter (has_id id) (Store.jobs (db w)) with
  | [] => (inl (NotFoundError ("Job ID: " ++ Z_to_string id ++ " not found.")),
           World (db w) (issued w ++ [(Job.get_job_sql, [JNum id])]))
  | j :: _ =>
      (inr (JObj (job_fields j
                  ++ [("company",
                       JS.first (map company_obj
                                     (filter (has_handle (Store.j_company_handle j))
                                             (Store.companies (db w)))))])),
       World (db w) (issued w ++ [(Job.get_job_sql, [JNum id]);
                                  (Job.get_company_sql,
                                   [JStr (Store.j_company_handle j)])]))
  end.
Proof.
  unfold Job.get, bind, db_query.
  rewrite exec_job_get.
  destruct (filter (has_id id) (Store.jobs (db w))) as [|j js].
  - reflexivity.
  - cbn [map JS.first hd truthy job_obj negb prop job_fields JS.get app].
    cbn [String.eqb Ascii.eqb Bool.eqb db issued].
    rewrite exec_job_company.
    unfold ret, JS.push. rewrite <- app_assoc. reflexivity.
Qed.

Lemma company_remove_spec (h : string) (w : world) :
  Company.remove h w =
  match filter (has_handle h) (Store.companies (db w)) with
  | [] => (inl (NotFoundError ("No company: " ++ h)),
           World (db w) (issued w ++ [(Company.remove_sql, [JStr h])]))
  | _ :: _ =>
      (inr JUndefined,
       World (Store.Build
                (filter (fun c => negb (has_handle h c)) (Store.companies (db w)))
                (Store.jobs (db w)) (Store.next_job_id (db w)))
             (issued w ++ [(Company.remove_sql, [JStr h])]))
  end.
Proof.
  unfold Company.remove, bind, db_query.
  rewrite exec_company_remove.
  destruct (filter (has_handle h) (Store.companies (db w))) as [|c cs] eqn:E.
  - replace (filter (fun c => negb (has_handle h c)) (Store.companies (db w)))
      with (Store.companies (db w)).
    + destruct w as [[cs js n] l]; reflexivity.
    + symmetry. apply forallb_filter_id. apply forallb_forall. intros c I.
      rewrite filter_nil_iff in E. now rewrite (E c I).
  - reflexivity.
Qed.

Lemma job_remove_spec (id : Z) (w : world) :
  Job.remove id w =
  match filter (has_id id) (Store.jobs (db w)) with
  | [] => (inl (NotFoundError ("Job " ++ Z_to_string id ++ " not found.")),
           World (db w) (issued w ++ [(Job.remove_sql, [JNum id])]))
  | _ :: _ =>
      (inr JUndefined,
       World (Store.Build
                (Store.companies (db w))
                (filter (fun j => negb (has_id id j)) (Store.jobs (db w)))
                (Store.next_job_id (db w)))
             (issued w ++ [(Job.remove_sql, [JNum id])]))
  end.
Proof.
  unfold Job.remove, bind, db_query.
  rewrite exec_job_remove.
  destruct (filter (has_id id) (Store.jobs (db w))) as [|c cs] eqn:E.
  - replace (filter (fun c => negb (has_id id c)) (Store.jobs (db w)))
      with (Store.jobs (db w)).
    + destruct w as [[cs js n] l]; reflexivity.
    + symmetry. apply forallb_filter_id. apply forallb_forall. intros c I.
      rewrite filter_nil_iff in E. now rewrite (E c I).
  - reflexivity.
Qed.

Lemma job_create_spec (data : JS.obj) (w : world) :
  Job.create data w =
  let params := [JS.get data "title"; JS.get data "salary";
                 JS.get data "equity"; JS.get data "company_handle"] in
  let log := (issued w ++ [(Job.create_sql, params)])%list in
  match Store.execute (db w) Job.create_sql params with
  | Some (rows, st) => (inr (JS.first rows), World st log)
  | None => (inl DatabaseError, World (db w) log)
  end.
Proof.
  unfold Job.create, bind, db_query. cbv zeta.
  destruct (Store.execute _ _ _) as [[rows st]|]; reflexivity.
Qed.

(** The store takes [company_handle] as required (section 3): an INSERT that
    binds it to [undefined] is rejected. *)
Lemma create_without_handle (data : JS.obj) (w : world) :
  JS.has data "company_handle" = false ->
  fst (Job.create data w) = inl DatabaseError.
Proof.
  intros A. rewrite job_create_spec. cbv zeta. rewrite (get_absent _ _ A).
  destruct (Store.execute _ _ _) as [[rows st]|] eqn:E; [|reflexivity].
  apply exec_job_create in E as [j [_ [B _]]]. discriminate.
Qed.

(** ** The UPDATE statement: reading back the SET clause *)

Lemma lex_quoted (col a rest : string) :
  plain col = true ->
  lex_from (LQuoted a) (col ++ dq ++ rest)
  = TQuoted (a ++ col) :: lex_from LIdle rest.
Proof.
  revert a. induction col as [|c col IH]; intros a P.
  - simpl. now rewrite append_nil_r.
  - simpl in P. apply andb_true_iff in P as [Pc P].
    change ((String c col) ++ dq ++ rest) with (String c (col ++ dq ++ rest)).
    cbn [lex_from]. apply negb_true_iff in Pc. rewrite Pc.
    rewrite IH by assumption. unfold snoc. rewrite append_assoc. reflexivity.
Qed.

Lemma lex_digits (d : Decimal.uint) (acc : nat) (rest : string) :
  lex_from (LParam acc) (NilEmpty.string_of_uint d ++ rest)
  = lex_from (LParam (Nat.of_uint_acc d acc)) rest.
Proof.
  revert acc. induction d; intros acc; cbn [NilEmpty.string_of_uint Nat.of_uint_acc];
    try reflexivity;
    rewrite Nat.tail_mul_spec;
    change (String ?c ?s ++ rest) with (String c (s ++ rest));
    cbn [lex_from]; cbn [extend digit_of]; simpl nat_of_ascii; cbn - [Nat.mul lex_from];
    apply IHd.
Qed.

Lemma lex_param (n : nat) (rest : string) :
  lex_from (LParam 0) (nat_to_string n ++ rest) = lex_from (LParam n) rest.
Proof.
  unfold nat_to_string. rewrite lex_digits.
  change (Nat.of_uint_acc (Nat.to_uint n) 0) with (Nat.of_uint (Nat.to_uint n)).
  now rewrite Unsigned.of_to.
Qed.

Lemma lex_set_item (col : string) (idx : nat) (c : ascii) (toks : list token) (rest : string) :
  plain col = true -> digit_of c = None -> start c = (LIdle, toks) ->
  lex_from LIdle (set_item col idx ++ String c rest)
  = TQuoted col :: TOp "=" :: TParam (idx + 1) :: toks ++ lex_from LIdle rest.
Proof.
  intros P D S. unfold set_item.
  rewrite !append_assoc.
  change (dq ++ ?x) with (String (ascii_of_nat 34) x) at 1.
  cbn [lex_from extend]. 
  change (start (ascii_of_nat 34)) with (LQuoted EmptyString, @nil token).
  cbn [flush app].
  rewrite lex_quoted by assumption.
  change (EmptyString ++ col) with col.
  f_equal.
  change ("=$" ++ ?x) with (String "=" (String "$" x)).
  cbn [lex_from extend].
  change (start "=") with (LOp "=", @nil token).
  cbn [flush app lex_from extend].
  change (is_op_char "$") with false. cbv iota.
  change (start "$") with (LParam 0, @nil token).
  cbn [flush app]. f_equal.
  rewrite lex_param.
  cbn [lex_from extend]. rewrite D, S. reflexivity.
Qed.

Lemma lex_sets (cols : list string) (idx : nat) (c : ascii) (rest : string) :
  cols <> [] -> forallb plain cols = true ->
  digit_of c = None -> start c = (LIdle, []) ->
  lex_from LIdle (JS.join ", " (mapi set_item idx cols) ++ String c rest)
  = (set_tokens cols idx ++ lex_from LIdle rest)%list.
Proof.
  intros NE P D St. revert idx.
  induction cols as [|c0 cols IH]; [contradiction|]. intros idx.
  simpl in P. apply andb_true_iff in P as [P0 P].
  destruct cols as [|c1 cols].
  - cbn [mapi JS.join String.concat set_tokens].
    now rewrite (lex_set_item c0 idx c [] rest).
  - change (JS.join ", " (mapi set_item idx (c0 :: c1 :: cols)))
      with (set_item c0 idx ++ ", " ++ JS.join ", " (mapi set_item (S idx) (c1 :: cols))).
    rewrite !append_assoc.
    change (", " ++ ?x) with (String "," (String " " x)).
    rewrite (lex_set_item c0 idx "," [TComma]) by (assumption || reflexivity).
    cbn [set_tokens app]. do 4 f_equal.
    cbn [lex_from extend]. change (start " ") with (LIdle, @nil token).
    cbn [flush app].
    apply IH; [discriminate|assumption].
Qed.

Lemma break_app (stop : token -> bool) (a b : list token) :
  forallb (fun t => negb (stop t)) a = true ->
  match b with [] => True | t :: _ => stop t = true end ->
  break stop (a ++ b)%list = (a, b).
Proof.
  intros A B. induction a as [|t a IH]; simpl in *.
  - destruct b as [|t b]; [reflexivity|]. simpl. now rewrite B.
  - apply andb_true_iff in A as [At A]. apply negb_true_iff in At.
    rewrite At, IH by assumption. reflexivity.
Qed.

Lemma set_tokens_no_word (stop : token -> bool) (cols : list string) (idx : nat) :
  (forall w, stop (TQuoted w) = false) -> (forall o, stop (TOp o) = false) ->
  (forall n, stop (TParam n) = false) -> stop TComma = false ->
  forallb (fun t => negb (stop t)) (set_tokens cols idx) = true.
Proof.
  intros Q O Pm C. revert idx.
  induction cols as [|c cols IH]; intros idx; [reflexivity|].
  cbn [set_tokens forallb]. rewrite Q, O, Pm. cbn [negb andb].
  destruct cols as [|c1 cols]; [reflexivity|].
  cbn [forallb]. rewrite C. cbn [negb andb]. apply IH.
Qed.

Lemma split_sets (cols : list string) (idx : nat) :
  cols <> [] ->
  split is_comma (set_tokens cols idx)
  = mapi (fun c i => [TQuoted c; TOp "="; TParam (i + 1)]) idx cols.
Proof.
  intros NE. revert idx. induction cols as [|c cols IH]; [contradiction|].
  intros idx. destruct cols as [|c1 cols].
  - reflexivity.
  - change (split is_comma (set_tokens (c :: c1 :: cols) idx))
      with ([TQuoted c; TOp "="; TParam (idx + 1)]
              :: split is_comma (set_tokens (c1 :: cols) (S idx))).
    rewrite IH by discriminate. reflexivity.
Qed.

Lemma parse_sets (cols : list string) (idx : nat) :
  cols <> [] ->
  parse_each parse_set is_comma (set_tokens cols idx) = Some (set_clauses cols idx).
Proof.
  intros NE. unfold parse_each. rewrite split_sets by assumption.
  clear NE. revert idx. induction cols as [|c cols IH]; intros idx; [reflexivity|].
  cbn [mapi map Sql.sequence]. 
  change (parse_set [TQuoted c; TOp "="; TParam (idx + 1)]) with (Some (c, OParam (idx + 1))).
  cbn [Sql.sequence]. rewrite IH. reflexivity.
Qed.

Lemma parse_company_update (cols : list string) (k : nat) :
  cols <> [] -> forallb plain cols = true ->
  Sql.parse (Company.update_sql (JS.join ", " (mapi set_item 0 cols))
                                ("$" ++ nat_to_string k))
  = Some (Update "companies" (set_clauses cols 0)
                 [Cond "handle" CmpEq (OParam k)] returning_company).
Proof.
  intros NE P. unfold Sql.parse, lex, Company.update_sql.
  remember (JS.join ", " (mapi set_item 0 cols)) as sc eqn:Hsc.
  remember (nat_to_string k) as ds eqn:Hds.
  simpl. subst sc. rewrite lex_sets by (assumption || reflexivity).
  simpl. subst ds. rewrite lex_param. simpl.
  rewrite break_app.
  - rewrite parse_sets by assumption. reflexivity.
  - apply set_tokens_no_word; reflexivity.
  - reflexivity.
Qed.

Lemma parse_job_update (cols : list string) (k : nat) :
  cols <> [] -> forallb plain cols = true ->
  Sql.parse (Job.update_sql (JS.join ", " (mapi set_item 0 cols))
                            ("$" ++ nat_to_string k))
  = Some (Update "jobs" (set_clauses cols 0)
                 [Cond "id" CmpEq (OParam k)] returning_job).
Proof.
  intros NE P. unfold Sql.parse, lex, Job.update_sql.
  remember (JS.join ", " (mapi set_item 0 cols)) as sc eqn:Hsc.
  remember (nat_to_string k) as ds eqn:Hds.
  simpl. subst sc. rewrite lex_sets by (assumption || reflexivity).
  simpl. subst ds. rewrite lex_param. simpl.
  rewrite break_app.
  - rewrite parse_sets by assumption. reflexivity.
  - apply set_tokens_no_word; reflexivity.
  - reflexivity.
Qed.

Lemma used_sets (cols : list string) (idx : nat) :
  flat_map (fun o => match o with OParam n => [n] | OInt _ => [] end)
           (map snd (set_clauses cols idx))
  = seq (idx + 1) (List.length cols).
Proof.
  revert idx. induction cols as [|c cols IH]; intros idx; [reflexivity|].
  cbn [set_clauses mapi map snd flat_map List.length seq app].
  f_equal. exact (IH (S idx)).
Qed.

Lemma used_update (t c : string) (op : cmp) (cols : list string) (ret : list item) :
  Store.used (Update t (set_clauses cols 0) [Cond c op (OParam (List.length cols + 1))] ret)
  = seq 1 (List.length cols + 1).
Proof.
  unfold Store.used, Store.operands. rewrite flat_map_app, used_sets.
  cbn [map cond_rhs flat_map app].
  rewrite !(Nat.add_comm _ 1). cbn [Nat.add]. now rewrite seq_S.
Qed.

Lemma exec_company_update (st st' : Store.store) (cols : list string)
  (vals rows : list jsval) (h : string) :
  cols <> [] -> forallb plain cols = true ->
  List.length vals = List.length cols ->
  Store.execute st (Company.update_sql (JS.join ", " (mapi set_item 0 cols))
                       ("$" ++ nat_to_string (List.length vals + 1)))
                (vals ++ [JStr h]) = Some (rows, st') ->
  (rows = [] <-> no_company h st)
  /\ (rows <> [] -> truthy (JS.first rows) = true).
Proof.
  intros NE P L. unfold Store.execute.
  rewrite L, parse_company_update by assumption.
  rewrite params_ok_seq.
  2:{ rewrite used_update, length_app, L. reflexivity. }
  cbn [Store.run].
  change (Store.table_of "companies") with (Some Store.companies_table).
  cbv iota.
  destruct (sequence (map (Store.compile_set _ _) _)) as [asg|]; [|discriminate].
  cbn [map sequence]. unfold Store.compile_cond at 1.
  cbn [cond_col cond_op cond_rhs].
  change (Store.col (Store.scan Store.companies_table "companies" st) "handle")
    with (Some (Store.TyText, fun r : Store.company => Store.VText (Store.c_handle r))).
  cbv iota. rewrite <- L, operand_last. cbn [Store.bind option_map].
  change (sequence (map (Store.compile_item _) returning_company))
    with (Some [("handle", fun r : Store.company => Store.VText (Store.c_handle r));
                ("name", fun r => Store.VText (Store.c_name r));
                ("description", fun r => Store.VText (Store.c_description r));
                ("numEmployees", fun r => Store.of_opt Store.VInt (Store.c_num_employees r));
                ("logoUrl", fun r => Store.of_opt Store.VText (Store.c_logo_url r))]).
  cbv iota.
  destruct (Store.update_rows _ _ _) as [[all changed]|] eqn:U; [|discriminate].
  intros E. inversion E; subst. clear E.
  apply update_rows_changed in U. split.
  - rewrite map_nil_iff, U. cbn [Store.tget Store.companies_table].
    unfold no_company. split; intros N c I; specialize (N c I).
    + rewrite satisfies_one in N. cbn [Store.test Store.compare] in N.
      rewrite compare_eqb in N. now apply String.eqb_neq.
    + rewrite satisfies_one. cbn [Store.test Store.compare].
      rewrite compare_eqb. now apply String.eqb_neq.
  - intros N. apply first_project. intros ->. now apply N.
Qed.

Lemma exec_job_update (st st' : Store.store) (cols : list string)
  (vals rows : list jsval) (id : Z) :
  cols <> [] -> forallb plain cols = true ->
  List.length vals = List.length cols ->
  Store.execute st (Job.update_sql (JS.join ", " (mapi set_item 0 cols))
                       ("$" ++ nat_to_string (List.length vals + 1)))
                (vals ++ [JNum id]) = Some (rows, st') ->
  (rows = [] <-> no_job id st)
  /\ (rows <> [] -> truthy (JS.first rows) = true).
Proof.
  intros NE P L. unfold Store.execute.
  rewrite L, parse_job_update by assumption.
  rewrite params_ok_seq.
  2:{ rewrite used_update, length_app, L. reflexivity. }
  cbn [Store.run].
  change (Store.table_of "jobs") with (Some Store.jobs_table).
  cbv iota.
  destruct (sequence (map (Store.compile_set _ _) _)) as [asg|]; [|discriminate].
  cbn [map sequence]. unfold Store.compile_cond at 1.
  cbn [cond_col cond_op cond_rhs].
  change (Store.col (Store.scan Store.jobs_table "jobs" st) "id")
    with (Some (Store.TyInt, fun r : Store.job => Store.VInt (Store.j_id r))).
  cbv iota. rewrite <- L, operand_last. cbn [Store.bind option_map].
  change (sequence (map (Store.compile_item _) returning_job))
    with (Some [("id", fun r : Store.job => Store.VInt (Store.j_id r));
                ("title", fun r => Store.VText (Store.j_title r));
                ("salary", fun r => Store.of_opt Store.VInt (Store.j_salary r));
                ("equity", fun r => Store.of_opt Store.VNum (Store.j_equity r));
                ("companyHandle", fun r => Store.VText (Store.j_company_handle r))]).
  cbv iota.
  destruct (Store.update_rows _ _ _) as [[all changed]|] eqn:U; [|discriminate].
  intros E. inversion E; subst. clear E.
  apply update_rows_changed in U. split.
  - rewrite map_nil_iff, U. cbn [Store.tget Store.jobs_table].
    unfold no_job. split; intros N c I; specialize (N c I).
    + rewrite satisfies_one in N. cbn [Store.test Store.compare] in N.
      rewrite Zcompare_eqb in N. now apply Z.eqb_neq.
    + rewrite satisfies_one. cbn [Store.test Store.compare].
      rewrite Zcompare_eqb. now apply Z.eqb_neq.
  - intros N. apply first_project. intros ->. now apply N.
Qed.

Lemma partial_update_spec (data : JS.obj) (m : list (string * string)) (w : world) :
  data <> [] ->
  sqlForPartialUpdate data m w
  = (inr (JS.join ", " (mapi set_item 0 (map (column_name m) (JS.keys data))),
          JS.values data), w).
Proof.
  intros NE. unfold sqlForPartialUpdate.
  assert (L : (List.length (JS.keys data) =? 0)%nat = false)
    by (destruct data; [contradiction|reflexivity]).
  rewrite L. unfold ret, set_item. now rewrite <- mapi_map.
Qed.

Lemma plain_company_column (k : string) :
  plain k = true -> plain (column_name Company.jsToSql k) = true.
Proof.
  intros P. unfold column_name, Company.jsToSql. cbn [lookup].
  destruct ("numEmployees" =? k); [reflexivity|].
  destruct ("logoUrl" =? k); [reflexivity|assumption].
Qed.

Lemma company_update_spec (h : string) (data : JS.obj) (w : world) :
  data <> [] ->
  Company.update h data w =
  let sql := update_statement Company.update_sql Company.jsToSql data in
  let params := (JS.values data ++ [JStr h])%list in
  let log := (issued w ++ [(sql, params)])%list in
  match Store.execute (db w) sql params with
  | Some (rows, st) =>
      if truthy (JS.first rows) then (inr (JS.first rows), World st log)
      else (inl (NotFoundError ("No company: " ++ h)), World st log)
  | None => (inl DatabaseError, World (db w) log)
  end.
Proof.
  intros NE. unfold Company.update, bind.
  rewrite partial_update_spec by assumption.
  cbv iota beta zeta. unfold db_query, update_statement, JS.push.
  cbn [db issued].
  destruct (Store.execute _ _ _) as [[rows st]|]; [|reflexivity].
  destruct (truthy (JS.first rows)); reflexivity.
Qed.

Lemma job_update_spec (id : Z) (data : JS.obj) (w : world) :
  data <> [] ->
  Job.update id data w =
  let sql := update_statement Job.update_sql [] data in
  let params := (JS.values data ++ [JNum id])%list in
  let log := (issued w ++ [(sql, params)])%list in
  match Store.execute (db w) sql params with
  | Some (rows, st) =>
      if truthy (JS.first rows) then (inr (JS.first rows), World st log)
      else (inl (NotFoundError ("Job " ++ Z_to_string id ++ " not found.")),
            World st log)
  | None => (inl DatabaseError, World (db w) log)
  end.
Proof.
  intros NE. unfold Job.update, bind.
  rewrite partial_update_spec by assumption.
  cbv iota beta zeta. unfold db_query, update_statement, JS.push.
  cbn [db issued].
  destruct (Store.execute _ _ _) as [[rows st]|]; [|reflexivity].
  destruct (truthy (JS.first rows)); reflexivity.
Qed.

Lemma company_update_outcome (h : string) (data : JS.obj) (w : world) :
  data <> [] -> forallb plain (JS.keys data) = true ->
  fst (Company.update h data w) = inl DatabaseError
  \/ not_found_iff (no_company h (db w)) (Company.update h data) w
                   (update_statement Company.update_sql Company.jsToSql data)
                   (JS.values data ++ [JStr h]).
Proof.
  intros NE P. unfold not_found_iff, not_found_after.
  rewrite company_update_spec by assumption. cbv zeta.
  set (sql := update_statement _ _ _).
  destruct (Store.execute (db w) sql (JS.values data ++ [JStr h]))
    as [[rows st']|] eqn:E; [right|left; reflexivity].
  pose proof E as E'. apply exec_company_update in E'.
  - destruct E' as [E' T]. destruct rows as [|r rows].
    + cbn [JS.first hd truthy fst]. split.
      * split; [intros _; eexists; reflexivity|intros _; now apply E'].
      * intros _. exists ("No company: " ++ h), st'. split; reflexivity.
    + assert (N : ~ no_company h (db w)) by (intros N; apply E' in N; discriminate).
      rewrite T by discriminate. cbn [fst].
      split; [|contradiction].
      split; [contradiction|]. intros [msg M]. discriminate.
  - intros M. apply map_eq_nil in M. unfold JS.keys in M.
    apply map_eq_nil in M. contradiction.
  - rewrite forallb_map.
    rewrite forallb_forall in P. apply forallb_forall. intros k I.
    apply plain_company_column. now apply P.
  - unfold JS.values, JS.keys. now rewrite !length_map.
Qed.

Lemma job_update_outcome (id : Z) (data : JS.obj) (w : world) :
  data <> [] -> forallb plain (JS.keys data) = true ->
  fst (Job.update id data w) = inl DatabaseError
  \/ not_found_iff (no_job id (db w)) (Job.update id data) w
                   (update_statement Job.update_sql [] data)
                   (JS.values data ++ [JNum id]).
Proof.
  intros NE P. unfold not_found_iff, not_found_after.
  rewrite job_update_spec by assumption. cbv zeta.
  set (sql := update_statement _ _ _).
  destruct (Store.execute (db w) sql (JS.values data ++ [JNum id]))
    as [[rows st']|] eqn:E; [right|left; reflexivity].
  pose proof E as E'. apply exec_job_update in E'.
  - destruct E' as [E' T]. destruct rows as [|r rows].
    + cbn [JS.first hd truthy fst]. split.
      * split; [intros _; eexists; reflexivity|intros _; now apply E'].
      * intros _. exists ("Job " ++ Z_to_string id ++ " not found."), st'.
        split; reflexivity.
    + assert (N : ~ no_job id (db w)) by (intros N; apply E' in N; discriminate).
      rewrite T by discriminate. cbn [fst].
      split; [|contradiction].
      split; [contradiction|]. intros [msg M]. discriminate.
  - intros M. apply map_eq_nil in M. unfold JS.keys in M.
    apply map_eq_nil in M. contradiction.
  - rewrite forallb_map.
    rewrite forallb_forall in P. apply forallb_forall. intros k I.
    now apply P.
  - unfold JS.values, JS.keys. now rewrite !length_map.
Qed.

(** ** The filtered SELECT: criteria and their numbering *)

Lemma compile_number (R : Store.relation) (pre : list jsval) (cs : list criterion) :
  map (Store.compile_cond R (pre ++ bound_values cs)) (number cs (S (List.length pre)))
  = map (compile_criterion R) cs.
Proof.
  revert pre. induction cs as [|c cs IH]; intros pre; [reflexivity|].
  destruct c as [col op v|col op z]; cbn [number map].
  - apply (f_equal2 cons).
    + unfold compile_criterion, Store.compile_cond. cbn.
      destruct (Store.col R col) as [[ty f]|]; [|reflexivity].
      rewrite nth_error_app2 by lia. rewrite Nat.sub_diag. reflexivity.
    + specialize (IH (pre ++ [v])%list). rewrite length_app, Nat.add_1_r in IH.
      rewrite <- IH. unfold bound_values. cbn [flat_map bound_value].
      now rewrite <- app_assoc.
  - apply (f_equal2 cons).
    + unfold compile_criterion, Store.compile_cond. cbn.
      destruct (Store.col R col) as [[ty f]|]; reflexivity.
    + apply IH.
Qed.

Lemma resolve_number (pre : list jsval) (cs : list criterion) :
  map (resolve (pre ++ bound_values cs)) (number cs (S (List.length pre)))
  = map bound_value cs.
Proof.
  revert pre. induction cs as [|c cs IH]; intros pre; [reflexivity|].
  destruct c as [col op v|col op z]; cbn [number map].
  - apply (f_equal2 cons).
    + unfold resolve. cbn. rewrite nth_error_app2 by lia.
      now rewrite Nat.sub_diag.
    + specialize (IH (pre ++ [v])%list). rewrite length_app, Nat.add_1_r in IH.
      rewrite <- IH. unfold bound_values. cbn [flat_map bound_value].
      now rewrite <- app_assoc.
  - f_equal. apply IH.
Qed.

Lemma reads_number (pre : list jsval) (cs : list criterion) :
  map (reads (pre ++ bound_values cs)) (number cs (S (List.length pre)))
  = map describe cs.
Proof.
  revert pre. induction cs as [|c cs IH]; intros pre; [reflexivity|].
  destruct c as [col op v|col op z]; cbn [number map].
  - apply (f_equal2 cons).
    + unfold reads, resolve. cbn. rewrite nth_error_app2 by lia.
      now rewrite Nat.sub_diag.
    + specialize (IH (pre ++ [v])%list). rewrite length_app, Nat.add_1_r in IH.
      rewrite <- IH. unfold bound_values. cbn [flat_map bound_value].
      now rewrite <- app_assoc.
  - apply (f_equal2 cons); [reflexivity|apply IH].
Qed.

Lemma used_number (pre : nat) (cs : list criterion) :
  flat_map (fun o => match o with OParam n => [n] | OInt _ => [] end)
           (map cond_rhs (number cs (S pre)))
  = seq (S pre) (List.length (bound_values cs)).
Proof.
  revert pre. induction cs as [|c cs IH]; intros pre; [reflexivity|].
  destruct c as [col op v|col op z]; cbn [number map flat_map cond_rhs].
  - unfold bound_values. cbn [flat_map bound_value app List.length seq].
    f_equal. apply IH.
  - apply IH.
Qed.

Lemma params_ok_select (items : list item) (src : source) (order : option string)
  (cs : list criterion) :
  Store.params_ok (Select items src (number cs 1) order) (bound_values cs) = true.
Proof. apply params_ok_seq. apply (used_number 0). Qed.

Lemma company_findAll_statement (minEmployees maxEmployees name : jsval) :
  fst (Company.findAll_where minEmployees maxEmployees name)
  = bound_values (company_criteria minEmployees maxEmployees name)
  /\ Sql.parse (Company.findAll_query
                  (snd (Company.findAll_where minEmployees maxEmployees name)))
     = Some (Select returning_company (Source "companies" None None)
                    (number (company_criteria minEmployees maxEmployees name) 1)
                    (Some "name")).
Proof.
  unfold Company.findAll_where, company_criteria.
  destruct (is_defined minEmployees), (is_defined maxEmployees), (truthy name);
    (split; [reflexivity | vm_compute; reflexivity]).
Qed.

Lemma job_findAll_statement (title minSalary hasEquity : jsval) :
  fst (Job.findAll_where title minSalary hasEquity)
  = bound_values (job_criteria title minSalary hasEquity)
  /\ Sql.parse (Job.findAll_query
                  (snd (Job.findAll_where title minSalary hasEquity)))
     = Some (Select listing_items listing_source
                    (number (job_criteria title minSalary hasEquity) 1)
                    (Some "title")).
Proof.
  unfold Job.findAll_where, job_criteria.
  destruct (is_defined title), (is_defined minSalary), (is_true hasEquity);
    (split; [reflexivity | vm_compute; reflexivity]).
Qed.

Lemma exec_company_findAll (st : Store.store) (minEmployees maxEmployees name : jsval) :
  Store.execute st
    (Company.findAll_query (snd (Company.findAll_where minEmployees maxEmployees name)))
    (fst (Company.findAll_where minEmployees maxEmployees name))
  = match Sql.sequence
            (map (compile_criterion (Store.scan Store.companies_table "companies" st))
                 (company_criteria minEmployees maxEmployees name)) with
    | Some ps =>
        Some (map company_obj
                  (Store.sort by_name
                              (filter (Store.satisfies ps) (Store.companies st))), st)
    | None => None
    end.
Proof.
  destruct (company_findAll_statement minEmployees maxEmployees name) as [V P].
  unfold Store.execute. rewrite P, V, params_ok_select.
  cbn [Store.run].
  change (Store.source_relation st (Source "companies" None None))
    with (Some (Store.scan Store.companies_table "companies" st)).
  cbv iota.
  rewrite (compile_number _ [] (company_criteria minEmployees maxEmployees name)).
  destruct (Sql.sequence _) as [ps|]; [|reflexivity].
  reflexivity.
Qed.

Lemma source_listing (st : Store.store) :
  Store.source_relation st listing_source = Some (listing_relation st).
Proof.
  cbn. unfold listing_relation.
  match goal with
  | |- Some (Store.Relation _ ?l _) = _ => assert (E : l = listings st)
  end.
  { unfold listings. apply flat_map_ext. intros j.
    erewrite filter_ext; [reflexivity|].
    intros c. apply compare_eqb. }
  rewrite E. reflexivity.
Qed.

Lemma exec_job_findAll (st : Store.store) (title minSalary hasEquity : jsval) :
  Store.execute st
    (Job.findAll_query (snd (Job.findAll_where title minSalary hasEquity)))
    (fst (Job.findAll_where title minSalary hasEquity))
  = match Sql.sequence
            (map (compile_criterion (listing_relation st))
                 (job_criteria title minSalary hasEquity)) with
    | Some ps =>
        Some (map listing_obj
                  (Store.sort by_title (filter (Store.satisfies ps) (listings st))),
              st)
    | None => None
    end.
Proof.
  destruct (job_findAll_statement title minSalary hasEquity) as [V P].
  unfold Store.execute. rewrite P, V, params_ok_select.
  cbn [Store.run]. rewrite source_listing.
  rewrite (compile_number _ [] (job_criteria title minSalary hasEquity)).
  destruct (Sql.sequence _) as [ps|]; [|reflexivity].
  cbn. do 2 f_equal. apply map_ext. intros [j [c|]]; reflexivity.
Qed.

Lemma company_findAll_spec (f : JS.obj) (w : world) :
  Company.findAll f w =
  let minEmployees := JS.get f "minEmployees" in
  let maxEmployees := JS.get f "maxEmployees" in
  let name := JS.get f "name" in
  let cw := Company.findAll_where minEmployees maxEmployees name in
  let log := (issued w ++ [(Company.findAll_query (snd cw), fst cw)])%list in
  if JS.gt minEmployees maxEmployees then
    (inl (BadRequestError
            "Minimum employees cannot be greater than max employees."), w)
  else
    match Sql.sequence
            (map (compile_criterion
                    (Store.scan Store.companies_table "companies" (db w)))
                 (company_criteria minEmployees maxEmployees name)) with
    | Some ps =>
        (inr (map company_obj
                  (Store.sort by_name
                     (filter (Store.satisfies ps) (Store.companies (db w))))),
         World (db w) log)
    | None => (inl DatabaseError, World (db w) log)
    end.
Proof.
  unfold Company.findAll. cbv zeta.
  destruct (JS.gt _ _); [reflexivity|].
  rewrite (surjective_pairing (Company.findAll_where _ _ _)).
  unfold bind, db_query. rewrite exec_company_findAll.
  destruct (Sql.sequence _); reflexivity.
Qed.

Lemma job_findAll_spec (f : JS.obj) (w : world) :
  Job.findAll f w =
  let title := JS.get f "title" in
  let minSalary := JS.get f "minSalary" in
  let hasEquity := JS.get f "hasEquity" in
  let jw := Job.findAll_where title minSalary hasEquity in
  let log := (issued w ++ [(Job.findAll_query (snd jw), fst jw)])%list in
  match Sql.sequence
          (map (compile_criterion (listing_relation (db w)))
               (job_criteria title minSalary hasEquity)) with
  | Some ps =>
      (inr (map listing_obj
                (Store.sort by_title
                   (filter (Store.satisfies ps) (listings (db w))))),
       World (db w) log)
  | None => (inl DatabaseError, World (db w) log)
  end.
Proof.
  unfold Job.findAll. cbv zeta.
  rewrite (surjective_pairing (Job.findAll_where _ _ _)).
  unfold bind, db_query. rewrite exec_job_findAll.
  destruct (Sql.sequence _); reflexivity.
Qed.

Lemma company_no_predicate (minEmployees maxEmployees name : jsval) :
  snd (Company.findAll_where minEmployees maxEmployees name) = [] ->
  company_criteria minEmployees maxEmployees name = []
  /\ JS.gt minEmployees maxEmployees = false.
Proof.
  unfold Company.findAll_where, company_criteria.
  destruct (is_defined minEmployees) eqn:A, (is_defined maxEmployees) eqn:B,
           (truthy name); cbn; try discriminate.
  intros _. apply undefined_iff in A, B. subst. split; reflexivity.
Qed.

Lemma job_no_predicate (title minSalary hasEquity : jsval) :
  snd (Job.findAll_where title minSalary hasEquity) = [] ->
  job_criteria title minSalary hasEquity = [].
Proof.
  unfold Job.findAll_where, job_criteria.
  destruct (is_defined title), (is_defined minSalary), (is_true hasEquity);
    cbn; try discriminate. reflexivity.
Qed.

Lemma job_where_ignores (title minSalary hasEquity : jsval) :
  is_true hasEquity = false ->
  Job.findAll_where title minSalary hasEquity
  = Job.findAll_where title minSalary JUndefined.
Proof. intros E. unfold Job.findAll_where. now rewrite E. Qed.

(** ** The claims *)

(** C1.  [Company.findAll] with integer bounds [minEmployees = a] and
    [maxEmployees = b]: when [a > b] the call throws BadRequest and leaves
    the world as it was (no statement has been issued); when [a <= b] it
    returns rows, and every row is a company of the store whose employee
    count [e] satisfies [a <= e <= b]. *)
Theorem C1_employee_range (f : JS.obj) (a b : Z) (w : world) :
  JS.get f "minEmployees" = JNum a ->
  JS.get f "maxEmployees" = JNum b ->
  ((b < a)%Z -> exists msg, Company.findAll f w = (inl (BadRequestError msg), w))
  /\ ((a <= b)%Z ->
      exists rows w',
        Company.findAll f w = (inr rows, w')
        /\ Forall (within a b (db w)) rows).
Proof.
  intros Hmin Hmax. rewrite company_findAll_spec. cbv zeta.
  rewrite Hmin, Hmax, gt_num. split; intros O.
  - apply Z.ltb_lt in O. rewrite O. eexists; reflexivity.
  - assert (N : (b <? a)%Z = false) by (apply Z.ltb_ge; lia). rewrite N.
    unfold company_criteria. cbn [is_defined when app map].
    destruct (truthy (JS.get f "name")); cbn [when app map];
      cbn -[Store.sort Store.test filter Company.findAll_query Company.findAll_where];
      do 2 eexists; (split; [reflexivity|]);
      apply Forall_forall; intros r I; unfold within; apply in_map_iff in I as [c [<- I]];
      apply in_sort, filter_In in I as [I S];
      unfold Store.satisfies in S; cbn [forallb] in S;
      apply andb_true_iff in S as [S1 S]; apply andb_true_iff in S as [S2 _];
      apply test_ge_int in S1 as [e [E1 L1]]; apply test_le_int in S2 as [e' [E2 L2]];
      assert (e' = e) by congruence; subst e';
      exists c, e; repeat split; (assumption || reflexivity).
Qed.

Lemma C1_employee_range_witness :
  (exists msg,
      Company.findAll [("minEmployees", JNum 3); ("maxEmployees", JNum 2)] Sample.w
      = (inl (BadRequestError msg), Sample.w))
  /\ (exists rows w',
        Company.findAll [("minEmployees", JNum 2); ("maxEmployees", JNum 3)] Sample.w
        = (inr rows, w')
        /\ Forall (within 2 3 (db Sample.w)) rows).
Proof.
  split.
  - apply (proj1 (C1_employee_range
                    [("minEmployees", JNum 3); ("maxEmployees", JNum 2)]
                    3 2 Sample.w eq_refl eq_refl)).
    lia.
  - apply (proj2 (C1_employee_range
                    [("minEmployees", JNum 2); ("maxEmployees", JNum 3)]
                    2 3 Sample.w eq_refl eq_refl)).
    lia.
Defined.

(** C2.  [Job.findAll]: when [hasEquity] is exactly [true] the builder
    appends the literal condition [equity > 0] and binds no value for it,
    and the rows returned are exactly those rows selected by the other
    criteria whose job has a positive equity (with no other criterion: the
    rows of positive equity).  For any other value of [hasEquity] nothing is
    appended, and the call is the call on the filter without that key. *)
Theorem C2_has_equity (f : JS.obj) (w : world) :
  let title := JS.get f "title" in
  let minSalary := JS.get f "minSalary" in
  let without := Job.findAll_where title minSalary JUndefined in
  (JS.get f "hasEquity" = JBool true ->
     Job.findAll_where title minSalary (JBool true)
     = (fst without, JS.push (snd without) "equity > 0")
     /\ ((fst (Job.findAll (JS.delete f "hasEquity") w) = inl DatabaseError
          /\ fst (Job.findAll f w) = inl DatabaseError)
         \/ exists sel : listing -> bool,
              fst (Job.findAll (JS.delete f "hasEquity") w)
              = inr (map listing_obj
                       (Store.sort by_title (filter sel (listings (db w)))))
              /\ fst (Job.findAll f w)
                 = inr (map listing_obj
                          (Store.sort by_title
                             (filter (fun p => sel p && positive_equity (fst p))
                                     (listings (db w)))))))
  /\ (JS.get f "hasEquity" <> JBool true ->
      Job.findAll_where title minSalary (JS.get f "hasEquity") = without
      /\ Job.findAll f w = Job.findAll (JS.delete f "hasEquity") w)
  /\ fst (Job.findAll [("hasEquity", JBool true)] w)
     = inr (map listing_obj
              (Store.sort by_title
                 (filter (fun p => positive_equity (fst p)) (listings (db w))))).
Proof.
  cbv zeta. refine (conj _ (conj _ _)).
  - intros T. split.
    + unfold Job.findAll_where. cbn [is_defined is_true].
      destruct (is_defined (JS.get f "title")), (is_defined (JS.get f "minSalary"));
        reflexivity.
    + rewrite !job_findAll_spec. cbv zeta.
      rewrite get_delete_same, !get_delete_other, T by discriminate.
      assert (C : job_criteria (JS.get f "title") (JS.get f "minSalary") (JBool true)
                  = (job_criteria (JS.get f "title") (JS.get f "minSalary") JUndefined
                     ++ [Fixed "equity" CmpGt 0])%list).
      { unfold job_criteria. cbn [is_true is_defined when].
        now rewrite !app_nil_r, <- !app_assoc. }
      rewrite C, map_app. cbn [map]. rewrite sequence_snoc.
      destruct (Sql.sequence _) as [ps|]; [right|left; split; reflexivity].
      exists (Store.satisfies ps). split; [reflexivity|].
      change (compile_criterion (listing_relation (db w)) (Fixed "equity" CmpGt 0))
        with (Some (fun p : listing =>
                      Store.test CmpGt (Store.of_opt Store.VNum (Store.j_equity (fst p)))
                                 (Store.VNum (Store.Numeric 0 0)))).
      cbn [map fst]. do 3 f_equal. apply filter_ext. intros [j c].
      rewrite satisfies_snoc. f_equal. cbn [fst]. apply test_positive.
  - intros N. apply not_true_iff in N. split; [now apply job_where_ignores|].
    unfold Job.findAll.
    rewrite get_delete_same, !get_delete_other by discriminate.
    now rewrite (job_where_ignores _ _ _ N).
  - rewrite job_findAll_spec. cbv zeta. cbn [JS.get String.eqb Ascii.eqb Bool.eqb].
    cbn [job_criteria is_defined is_true when app map fst Sql.sequence].
    change (compile_criterion (listing_relation (db w)) (Fixed "equity" CmpGt 0))
      with (Some (fun p : listing =>
                    Store.test CmpGt (Store.of_opt Store.VNum (Store.j_equity (fst p)))
                               (Store.VNum (Store.Numeric 0 0)))).
    cbn [Sql.sequence option_map fst]. do 3 f_equal. apply filter_ext. intros [j c].
    rewrite satisfies_one. apply test_positive.
Qed.

Lemma C2_has_equity_witness :
  Job.findAll_where (JS.get [("hasEquity", JBool true)] "title")
                    (JS.get [("hasEquity", JBool true)] "minSalary") (JBool true)
  = ([], ["equity > 0"])
  /\ Job.findAll [("hasEquity", JNum 1)] Sample.w
     = Job.findAll (JS.delete [("hasEquity", JNum 1)] "hasEquity") Sample.w.
Proof.
  split.
  - apply (proj1 (proj1 (C2_has_equity [("hasEquity", JBool true)] Sample.w)
                        eq_refl)).
  - apply (proj2 (proj1 (proj2 (C2_has_equity [("hasEquity", JNum 1)] Sample.w))
                        ltac:(discriminate))).
Defined.

(** C3 (amended).  [findAll] appends one predicate for each of
    minEmployees, maxEmployees, title and minSalary whose value is not
    [undefined], one for [hasEquity] when it is exactly [true], and one for
    a [name] that is truthy, and none for a key that is absent; a truthy
    name and a defined title each give one ILIKE predicate bound to
    [%value%]; keys other than the recognized ones have no effect on the
    call.  (Nothing is said of a name that is set to a falsy value.) *)
Theorem C3_one_predicate_per_criterion (f : JS.obj) :
  let minEmployees := JS.get f "minEmployees" in
  let maxEmployees := JS.get f "maxEmployees" in
  let name := JS.get f "name" in
  let title := JS.get f "title" in
  let minSalary := JS.get f "minSalary" in
  let hasEquity := JS.get f "hasEquity" in
  let cw := Company.findAll_where minEmployees maxEmployees name in
  let jw := Job.findAll_where title minSalary hasEquity in
  (name = JUndefined \/ truthy name = true ->
     List.length (snd cw)
     = count (is_defined minEmployees) + count (is_defined maxEmployees)
       + count (is_defined name))
  /\ List.length (snd jw)
     = count (is_defined title) + count (is_defined minSalary)
       + count (is_true hasEquity)
  /\ (truthy name = true ->
      exists k, In ("name ILIKE $" ++ nat_to_string (S k)) (snd cw)
                /\ nth_error (fst cw) k = Some (JStr ("%" ++ ToString name ++ "%")))
  /\ (is_defined title = true ->
      In "title ILIKE $1" (snd jw)
      /\ nth_error (fst jw) 0 = Some (JStr ("%" ++ ToString title ++ "%")))
  /\ (forall g,
        (forall k, In k ["minEmployees"; "maxEmployees"; "name"] ->
                   JS.get g k = JS.get f k) ->
        Company.findAll g = Company.findAll f)
  /\ (forall g,
        (forall k, In k ["title"; "minSalary"; "hasEquity"] ->
                   JS.get g k = JS.get f k) ->
        Job.findAll g = Job.findAll f).
Proof.
  cbv zeta. refine (conj _ (conj _ (conj _ (conj _ (conj _ _))))).
  - unfold Company.findAll_where. intros [-> | T].
    + destruct (is_defined (JS.get f "minEmployees")),
               (is_defined (JS.get f "maxEmployees")); reflexivity.
    + rewrite T. assert (D : is_defined (JS.get f "name") = true)
        by (destruct (JS.get f "name"); (discriminate || reflexivity)).
      rewrite D.
      destruct (is_defined (JS.get f "minEmployees")),
               (is_defined (JS.get f "maxEmployees")); reflexivity.
  - unfold Job.findAll_where.
    destruct (is_defined _), (is_defined _), (is_true _); reflexivity.
  - intros T. unfold Company.findAll_where. rewrite T.
    destruct (is_defined (JS.get f "minEmployees")),
             (is_defined (JS.get f "maxEmployees"));
      [exists 2|exists 1|exists 1|exists 0]; cbn;
      (split; [tauto|reflexivity]).
  - intros T. unfold Job.findAll_where. rewrite T.
    destruct (is_defined (JS.get f "minSalary")), (is_true (JS.get f "hasEquity"));
      cbn; (split; [tauto|reflexivity]).
  - intros g E. unfold Company.findAll.
    rewrite !E by (cbn; tauto). reflexivity.
  - intros g E. unfold Job.findAll.
    rewrite !E by (cbn; tauto). reflexivity.
Qed.

Lemma C3_one_predicate_per_criterion_witness :
  List.length
    (snd (Company.findAll_where
            (JS.get [("name", JStr "net"); ("minEmployees", JNum 2)] "minEmployees")
            (JS.get [("name", JStr "net"); ("minEmployees", JNum 2)] "maxEmployees")
            (JS.get [("name", JStr "net"); ("minEmployees", JNum 2)] "name")))
  = 2.
Proof.
  apply (proj1 (C3_one_predicate_per_criterion
                  [("name", JStr "net"); ("minEmployees", JNum 2)])).
  right. reflexivity.
Defined.

(** C3, as stated, fails: [hasEquity: false] is a present recognized key
    and yields no predicate, and so does the present text key [name] when
    it holds the empty string. *)
Lemma C3_counterexample :
  (JS.has [("hasEquity", JBool false)] "hasEquity" = true
   /\ snd (Job.findAll_where (JS.get [("hasEquity", JBool false)] "title")
                             (JS.get [("hasEquity", JBool false)] "minSalary")
                             (JS.get [("hasEquity", JBool false)] "hasEquity")) = [])
  /\ (JS.has [("name", JStr EmptyString)] "name" = true
      /\ snd (Company.findAll_where (JS.get [("name", JStr EmptyString)] "minEmployees")
                                    (JS.get [("name", JStr EmptyString)] "maxEmployees")
                                    (JS.get [("name", JStr EmptyString)] "name")) = []).
Proof. repeat split. Qed.

(** C4.  For every filter object, the placeholders of the statement built by
    [Company.findAll] and by [Job.findAll] are [$1 .. $n] in the order of
    the text, [n] being the length of the parameter array; and the store
    reads each condition with the value its predicate was pushed with: the
    conditions, resolved through the parameter array, are the criteria in
    the order they were appended. *)
Theorem C4_placeholders_sequential (f : JS.obj) :
  let minEmployees := JS.get f "minEmployees" in
  let maxEmployees := JS.get f "maxEmployees" in
  let name := JS.get f "name" in
  let title := JS.get f "title" in
  let minSalary := JS.get f "minSalary" in
  let hasEquity := JS.get f "hasEquity" in
  let cw := Company.findAll_where minEmployees maxEmployees name in
  let jw := Job.findAll_where title minSalary hasEquity in
  (Sql.placeholders (Company.findAll_query (snd cw)) = seq 1 (List.length (fst cw))
   /\ exists items src conds order,
        Sql.parse (Company.findAll_query (snd cw))
        = Some (Select items src conds order)
        /\ map (reads (fst cw)) conds
           = map describe (company_criteria minEmployees maxEmployees name))
  /\ (Sql.placeholders (Job.findAll_query (snd jw)) = seq 1 (List.length (fst jw))
      /\ exists items src conds order,
           Sql.parse (Job.findAll_query (snd jw))
           = Some (Select items src conds order)
           /\ map (reads (fst jw)) conds
              = map describe (job_criteria title minSalary hasEquity)).
Proof.
  cbv zeta. split; split.
  - unfold Company.findAll_where.
    destruct (is_defined _), (is_defined _), (truthy _); vm_compute; reflexivity.
  - destruct (company_findAll_statement (JS.get f "minEmployees")
                (JS.get f "maxEmployees") (JS.get f "name")) as [V P].
    do 4 eexists. split; [exact P|]. rewrite V.
    apply (reads_number []).
  - unfold Job.findAll_where.
    destruct (is_defined _), (is_defined _), (is_true _); vm_compute; reflexivity.
  - destruct (job_findAll_statement (JS.get f "title")
                (JS.get f "minSalary") (JS.get f "hasEquity")) as [V P].
    do 4 eexists. split; [exact P|]. rewrite V.
    apply (reads_number []).
Qed.

(** C5.  [Company.update] and [Job.update] with a data object without keys
    throw BadRequest and leave the world as it was: nothing has been issued
    to the store, whether or not the key exists. *)
Theorem C5_empty_update (w : world) (handle : string) (id : Z) :
  (bad_request (fst (Company.update handle [] w))
   /\ snd (Company.update handle [] w) = w)
  /\ (bad_request (fst (Job.update id [] w))
      /\ snd (Job.update id [] w) = w).
Proof.
  repeat split; try (eexists; reflexivity).
Qed.

(** C6 (amended).  [get] and [remove], on a company handle or a job id,
    throw NotFound exactly when no row of the store has that key, after the
    statement has been issued and the store has answered with no row;
    [remove] returns [undefined] when a row has the key.  [update] with a
    non-empty data object whose keys contain no double quote either is
    rejected by the store, or throws NotFound exactly when no row has the
    key, again after the statement has been run. *)
Theorem C6_not_found_after_query (w : world) :
  (forall h, not_found_iff (no_company h (db w)) (Company.get h) w
                           Company.get_company_sql [JStr h])
  /\ (forall h, not_found_iff (no_company h (db w)) (Company.remove h) w
                              Company.remove_sql [JStr h]
                /\ (~ no_company h (db w) ->
                    fst (Company.remove h w) = inr JUndefined))
  /\ (forall id, not_found_iff (no_job id (db w)) (Job.get id) w
                               Job.get_job_sql [JNum id])
  /\ (forall id, not_found_iff (no_job id (db w)) (Job.remove id) w
                               Job.remove_sql [JNum id]
                 /\ (~ no_job id (db w) -> fst (Job.remove id w) = inr JUndefined))
  /\ (forall h data,
        data <> [] -> forallb plain (JS.keys data) = true ->
        fst (Company.update h data w) = inl DatabaseError
        \/ not_found_iff (no_company h (db w)) (Company.update h data) w
                         (update_statement Company.update_sql Company.jsToSql data)
                         (JS.values data ++ [JStr h]))
  /\ (forall id data,
        data <> [] -> forallb plain (JS.keys data) = true ->
        fst (Job.update id data w) = inl DatabaseError
        \/ not_found_iff (no_job id (db w)) (Job.update id data) w
                         (update_statement Job.update_sql [] data)
                         (JS.values data ++ [JNum id])).
Proof.
  refine (conj _ (conj _ (conj _ (conj _ (conj _ _))))).
  - intros h. unfold not_found_iff, not_found_after.
    rewrite company_get_spec, exec_company_get, <- no_company_iff.
    destruct (filter _ _) as [|c cs]; cbn [fst map].
    + split; [split; [intros _; eexists|]; reflexivity|].
      intros _. do 2 eexists. split; reflexivity.
    + split; [split; [discriminate|intros [m E]; discriminate]|discriminate].
  - intros h. unfold not_found_iff, not_found_after.
    rewrite company_remove_spec, exec_company_remove, <- no_company_iff.
    destruct (filter _ _) as [|c cs] eqn:F; cbn [fst map].
    + split; [|intros N; now contradiction N].
      split; [split; [intros _; eexists|]; reflexivity|].
      intros _. do 2 eexists. split; [reflexivity|].
      do 2 f_equal. destruct w as [[cs js n] l].
      cbn [db Store.companies Store.jobs Store.next_job_id] in *.
      f_equal. apply forallb_filter_id, forallb_forall. intros c I.
      rewrite filter_nil_iff in F. now rewrite (F c I).
    + split; [|reflexivity].
      split; [split; [discriminate|intros [m E]; discriminate]|discriminate].
  - intros id. unfold not_found_iff, not_found_after.
    rewrite job_get_spec, exec_job_get, <- no_job_iff.
    destruct (filter _ _) as [|c cs]; cbn [fst map].
    + split; [split; [intros _; eexists|]; reflexivity|].
      intros _. do 2 eexists. split; reflexivity.
    + split; [split; [discriminate|intros [m E]; discriminate]|discriminate].
  - intros id. unfold not_found_iff, not_found_after.
    rewrite job_remove_spec, exec_job_remove, <- no_job_iff.
    destruct (filter _ _) as [|c cs] eqn:F; cbn [fst map].
    + split; [|intros N; now contradiction N].
      split; [split; [intros _; eexists|]; reflexivity|].
      intros _. do 2 eexists. split; [reflexivity|].
      do 2 f_equal. destruct w as [[cs js n] l].
      cbn [db Store.companies Store.jobs Store.next_job_id] in *.
      f_equal. apply forallb_filter_id, forallb_forall. intros c I.
      rewrite filter_nil_iff in F. now rewrite (F c I).
    + split; [|reflexivity].
      split; [split; [discriminate|intros [m E]; discriminate]|discriminate].
  - intros h data. apply company_update_outcome.
  - intros id data. apply job_update_outcome.
Qed.

Lemma C6_not_found_after_query_witness :
  fst (Company.update "c9" [("name", JStr "New")] Sample.w) = inl DatabaseError
  \/ not_found_iff (no_company "c9" (db Sample.w))
                   (Company.update "c9" [("name", JStr "New")]) Sample.w
                   (update_statement Company.update_sql Company.jsToSql
                                     [("name", JStr "New")])
                   [JStr "New"; JStr "c9"].
Proof.
  apply (proj1 (proj2 (proj2 (proj2 (proj2
           (C6_not_found_after_query Sample.w))))) "c9" [("name", JStr "New")]).
  - discriminate.
  - reflexivity.
Defined.

(** C6, as stated, fails for [update]: no company has the handle, yet an
    update with an empty data object throws BadRequest, not NotFound. *)
Lemma C6_counterexample :
  no_company "c9" (db Sample.w)
  /\ fst (Company.update "c9" [] Sample.w) = inl (BadRequestError "No data")
  /\ ~ not_found (fst (Company.update "c9" [] Sample.w)).
Proof.
  split; [|split].
  - apply no_company_iff. reflexivity.
  - reflexivity.
  - intros [m E]. discriminate.
Qed.

(** C7.  [Company.get] on an existing handle returns the company's public
    fields followed by [jobs]: the list of the jobs of that handle, each
    with exactly the fields id, title, salary, equity.  [Job.get] on an
    existing id returns the job's fields id, title, salary, equity followed
    by [company]: the public fields handle, name, description,
    numEmployees, logoUrl of the owning company ([undefined] if the store
    has no company of that handle); the result has no [companyHandle]
    field. *)
Theorem C7_get_attaches_relation (w : world) :
  (forall h c,
      find (has_handle h) (Store.companies (db w)) = Some c ->
      fst (Company.get h w)
      = inr (JObj (company_fields c
                   ++ [("jobs",
                        JArr (map (fun j => JObj (job_fields j))
                                  (filter (owned_by (Store.c_handle c))
                                          (Store.jobs (db w)))))])))
  /\ (forall id j,
        find (has_id id) (Store.jobs (db w)) = Some j ->
        fst (Job.get id w)
        = inr (JObj (job_fields j
                     ++ [("company",
                          match find (has_handle (Store.j_company_handle j))
                                     (Store.companies (db w)) with
                          | Some c => JObj (company_fields c)
                          | None => JUndefined
                          end)])))
  /\ (forall j, JS.keys (job_fields j) = ["id"; "title"; "salary"; "equity"])
  /\ (forall c, JS.keys (company_fields c)
                = ["handle"; "name"; "description"; "numEmployees"; "logoUrl"]).
Proof.
  refine (conj _ (conj _ (conj _ _))).
  - intros h c F. rewrite find_filter in F. rewrite company_get_spec.
    destruct (filter _ _) as [|c' cs]; [discriminate|].
    inversion F; subst. reflexivity.
  - intros id j F. rewrite find_filter in F. rewrite job_get_spec.
    destruct (filter (has_id id) _) as [|j' js]; [discriminate|].
    inversion F; subst. cbn [fst]. rewrite find_filter.
    destruct (filter (has_handle _) _); reflexivity.
  - reflexivity.
  - reflexivity.
Qed.

Lemma C7_get_attaches_relation_witness :
  fst (Company.get "c1" Sample.w)
  = inr (JObj (company_fields Sample.c1
               ++ [("jobs", JArr [JObj (job_fields Sample.j1)])]))
  /\ fst (Job.get 1 Sample.w)
     = inr (JObj (job_fields Sample.j1
                  ++ [("company", JObj (company_fields Sample.c1))])).
Proof.
  split.
  - apply (proj1 (C7_get_attaches_relation Sample.w) "c1" Sample.c1).
    reflexivity.
  - apply (proj1 (proj2 (C7_get_attaches_relation Sample.w)) 1%Z Sample.j1).
    reflexivity.
Defined.

(** C8.  A filter object none of whose recognized keys is set produces no
    predicate.  Whenever no predicate is produced, the statement is the
    SELECT followed directly by ORDER BY (no WHERE clause) and the call
    returns every row: the companies of the store, or the jobs joined with
    their companies.  The text of every statement ends with ORDER BY on the
    display name (name, or title), and the rows of every successful call are
    in ascending order of it. *)
Theorem C8_no_where_and_ordered (f : JS.obj) (w : world) :
  let cw := Company.findAll_where (JS.get f "minEmployees")
              (JS.get f "maxEmployees") (JS.get f "name") in
  let jw := Job.findAll_where (JS.get f "title") (JS.get f "minSalary")
              (JS.get f "hasEquity") in
  (JS.has f "minEmployees" = false -> JS.has f "maxEmployees" = false ->
   JS.has f "name" = false -> snd cw = [])
  /\ (JS.has f "title" = false -> JS.has f "minSalary" = false ->
      JS.has f "hasEquity" = false -> snd jw = [])
  /\ (snd cw = [] ->
     Company.findAll_query (snd cw) = Company.findAll_select ++ " ORDER BY name"
     /\ exists l, Permutation l (Store.companies (db w))
                  /\ fst (Company.findAll f w) = inr (map company_obj l))
  /\ (snd jw = [] ->
     Job.findAll_query (snd jw) = Job.findAll_select ++ " ORDER BY title"
     /\ exists l, Permutation l (listings (db w))
                  /\ fst (Job.findAll f w) = inr (map listing_obj l))
  /\ (exists body, Company.findAll_query (snd cw) = body ++ " ORDER BY name")
  /\ (exists body, Job.findAll_query (snd jw) = body ++ " ORDER BY title")
  /\ (forall rows, fst (Company.findAll f w) = inr rows ->
        exists l, rows = map company_obj l
                  /\ Sorted (fun a b => String.leb (Store.c_name a) (Store.c_name b) = true) l)
  /\ (forall rows, fst (Job.findAll f w) = inr rows ->
        exists l, rows = map listing_obj l
                  /\ Sorted (fun a b => String.leb (Store.j_title (fst a))
                                                   (Store.j_title (fst b)) = true) l).
Proof.
  cbv zeta.
  refine (conj _ (conj _ (conj _ (conj _ (conj _ (conj _ (conj _ _))))))).
  - intros A B C. now rewrite !get_absent by assumption.
  - intros A B C. now rewrite !get_absent by assumption.
  - intros Z. split; [now rewrite Z|].
    rewrite company_findAll_spec. cbv zeta.
    destruct (company_no_predicate _ _ _ Z) as [-> ->]. cbn [map Sql.sequence fst].
    rewrite filter_all. eexists. split; [|reflexivity].
    symmetry. apply sort_perm.
  - intros Z. split; [now rewrite Z|].
    rewrite job_findAll_spec. cbv zeta.
    rewrite (job_no_predicate _ _ _ Z). cbn [map Sql.sequence fst].
    rewrite filter_all. eexists. split; [|reflexivity].
    symmetry. apply sort_perm.
  - unfold Company.findAll_query. eexists. reflexivity.
  - unfold Job.findAll_query. eexists. reflexivity.
  - intros rows. rewrite company_findAll_spec. cbv zeta.
    destruct (JS.gt _ _); [discriminate|].
    destruct (Sql.sequence _) as [ps|]; [|discriminate].
    cbn [fst]. intros E. inversion E; subst. eexists. split; [reflexivity|].
    apply (sort_sorted by_name by_name_total).
  - intros rows. rewrite job_findAll_spec. cbv zeta.
    destruct (Sql.sequence _) as [ps|]; [|discriminate].
    cbn [fst]. intros E. inversion E; subst. eexists. split; [reflexivity|].
    apply (sort_sorted by_title by_title_total).
Qed.

Lemma C8_no_where_and_ordered_witness :
  Company.findAll_query [] = Company.findAll_select ++ " ORDER BY name"
  /\ exists l, Permutation l (Store.companies (db Sample.w))
               /\ fst (Company.findAll [] Sample.w) = inr (map company_obj l).
Proof.
  apply (proj1 (proj2 (proj2 (C8_no_where_and_ordered [] Sample.w)))).
  reflexivity.
Defined.

(** C9.  [Job.create] binds the fourth parameter of its INSERT, the one of
    the [company_handle] column, to [data.company_handle]: for every input
    without a [company_handle] key (whatever it holds under
    [companyHandle]) the bound value is [undefined].  A row that is
    returned carries the handle under the key [companyHandle], and that
    handle is the value read from [company_handle]; a row is returned, for
    one, when the title and [company_handle] are strings and salary and
    equity are not given. *)
Theorem C9_create_reads_company_handle (data : JS.obj) (w : world) :
  (JS.has data "company_handle" = false ->
     issued (snd (Job.create data w))
     = (issued w
        ++ [(Job.create_sql,
             [JS.get data "title"; JS.get data "salary"; JS.get data "equity";
              JUndefined])])%list)
  /\ (exists returning,
        Sql.parse Job.create_sql
        = Some (Insert "jobs" ["title"; "salary"; "equity"; "company_handle"]
                       [OParam 1; OParam 2; OParam 3; OParam 4] returning))
  /\ (forall row, fst (Job.create data w) = inr row ->
        exists j,
          row = JObj (job_fields j
                      ++ [("companyHandle", JStr (Store.j_company_handle j))])
          /\ Store.bind Store.TyText (JS.get data "company_handle")
             = Some (Store.VText (Store.j_company_handle j)))
  /\ (forall t h,
        JS.get data "title" = JStr t -> JS.get data "salary" = JUndefined ->
        JS.get data "equity" = JUndefined ->
        JS.get data "company_handle" = JStr h ->
        fst (Job.create data w)
        = inr (JObj [("id", JNum (Store.next_job_id (db w))); ("title", JStr t);
                     ("salary", JNull); ("equity", JNull);
                     ("companyHandle", JStr h)])).
Proof.
  rewrite job_create_spec. cbv zeta. refine (conj _ (conj _ (conj _ _))).
  - intros A. rewrite (get_absent _ _ A).
    destruct (Store.execute _ _ _) as [[rows st]|]; reflexivity.
  - eexists. apply parse_job_create.
  - intros row. destruct (Store.execute _ _ _) as [[rows st]|] eqn:E; [|discriminate].
    apply exec_job_create in E as [j [-> [B _]]].
    cbn [fst JS.first hd]. intros R. inversion R; subst.
    exists j. split; [reflexivity|assumption].
  - intros t h -> -> -> ->. unfold Store.execute. rewrite parse_job_create.
    reflexivity.
Qed.

Lemma C9_create_reads_company_handle_witness :
  issued (snd (Job.create [("title", JStr "t4"); ("companyHandle", JStr "c1")]
                          Sample.w))
  = [(Job.create_sql, [JStr "t4"; JUndefined; JUndefined; JUndefined])]
  /\ exists j,
       JObj [("id", JNum 4); ("title", JStr "t4"); ("salary", JNull);
             ("equity", JNull); ("companyHandle", JStr "c1")]
       = JObj (job_fields j
               ++ [("companyHandle", JStr (Store.j_company_handle j))])
       /\ Store.bind Store.TyText
                     (JS.get [("title", JStr "t4"); ("company_handle", JStr "c1")]
                             "company_handle")
          = Some (Store.VText (Store.j_company_handle j)).
Proof.
  split.
  - apply (proj1 (C9_create_reads_company_handle
                    [("title", JStr "t4"); ("companyHandle", JStr "c1")]
                    Sample.w)).
    reflexivity.
  - apply (proj1 (proj2 (proj2 (C9_create_reads_company_handle
                           [("title", JStr "t4"); ("company_handle", JStr "c1")]
                           Sample.w)))).
    reflexivity.
Defined.

(** C10.  Every row returned by [Job.findAll] carries the job fields id,
    title, salary, equity and companyHandle and a [name] field: the name of
    a company of the store with the job's handle, or null when the store has
    no such company.  The statement reads jobs LEFT JOIN companies ON the
    company handle. *)
Theorem C10_listing_carries_company_name (f : JS.obj) (w : world) (rows : list jsval) :
  fst (Job.findAll f w) = inr rows ->
  Forall (listing_row (db w)) rows
  /\ exists filter order,
       Sql.parse (Job.findAll_query
                    (snd (Job.findAll_where (JS.get f "title") (JS.get f "minSalary")
                                            (JS.get f "hasEquity"))))
       = Some (Select listing_items
                      (Source "jobs" (Some "j")
                         (Some (Join "companies" "c" "c.handle" "j.company_handle")))
                      filter order).
Proof.
  intros E. split.
  - rewrite job_findAll_spec in E. cbv zeta in E.
    destruct (Sql.sequence _) as [ps|]; [|discriminate].
    cbn [fst] in E. inversion E; subst. clear E.
    apply Forall_forall. intros r I. unfold listing_row. apply in_map_iff in I as [[j c] [<- I]].
    apply in_sort, filter_In in I as [I _]. apply in_listings in I as [J C].
    cbn [fst snd] in *. exists j.
    destruct c as [c|].
    + exists (JStr (Store.c_name c)). repeat split; try assumption.
      left. exists c. destruct C. repeat split; assumption.
    + exists JNull. repeat split; try assumption. right. split; [assumption|reflexivity].
  - destruct (job_findAll_statement (JS.get f "title") (JS.get f "minSalary")
                                     (JS.get f "hasEquity")) as [_ P].
    rewrite P. do 2 eexists. reflexivity.
Qed.

Lemma C10_listing_carries_company_name_witness :
  Forall (listing_row (db Sample.w))
         (map listing_obj
              [(Sample.j1, Some Sample.c1); (Sample.j2, Some Sample.c2);
               (Sample.j3, None)])
  /\ exists filter order,
       Sql.parse (Job.findAll_query
                    (snd (Job.findAll_where (JS.get [] "title")
                                            (JS.get [] "minSalary")
                                            (JS.get [] "hasEquity"))))
       = Some (Select listing_items
                      (Source "jobs" (Some "j")
                         (Some (Join "companies" "c" "c.handle" "j.company_handle")))
                      filter order).
Proof.
  apply (C10_listing_carries_company_name [] Sample.w). reflexivity.
Defined.

(** ** Further properties: what a statement does to the store *)

Lemma update_rows_spec {A : Type} (hit : A -> bool) (f : A -> option A)
  (l all changed : list A) :
  Store.update_rows hit f l = Some (all, changed) ->
  all = map (fun r => if hit r then updated f r else r) l
  /\ changed = map (updated f) (filter hit l).
Proof.
  revert all changed. induction l as [|r l IH]; intros all changed H.
  - inversion H; subst. split; reflexivity.
  - cbn [Store.update_rows] in H. cbn [map filter].
    destruct (hit r) eqn:E.
    + destruct (f r) as [r'|] eqn:Fr; [|discriminate].
      destruct (Store.update_rows hit f l) as [[al ch]|]; [|discriminate].
      inversion H; subst. destruct (IH al ch eq_refl) as [Ha Hc].
      cbn [map]. unfold updated at 1 3. rewrite Fr. split; f_equal; assumption.
    + destruct (Store.update_rows hit f l) as [[al ch]|]; [|discriminate].
      inversion H; subst. destruct (IH al changed eq_refl) as [Ha Hc].
      split; [f_equal|]; assumption.
Qed.








(** ** Reading and failing *)

Lemma execute_select (st st' : Store.store) (sql : string)
  (params rows : list jsval) :
  is_select sql = true ->
  Store.execute st sql params = Some (rows, st') -> st' = st.
Proof.
  unfold is_select, Store.execute.
  destruct (Sql.parse sql) as [[items src cs order|t cols vals ret|t sets cs ret|t cs ret]|];
    try discriminate.
  intros _. destruct (Store.params_ok _ _); [|discriminate]. cbn [Store.run].
  destruct (Store.source_relation st src) as [R|]; [|discriminate].
  destruct (sequence _) as [ps|]; [|discriminate].
  destruct (sequence _) as [proj|]; [|discriminate].
  destruct (Store.compile_order R order) as [le|]; [|discriminate].
  intros E. now inversion E.
Qed.

Lemma skipn_app_length {A : Type} (l k : list A) :
  skipn (List.length l) (l ++ k) = k.
Proof. induction l as [|x l IH]; [reflexivity|exact IH]. Qed.

Lemma company_create_spec (data : JS.obj) (w : world) :
  Company.create data w =
  let handle := JS.get data "handle" in
  let params := [handle; JS.get data "name"; JS.get data "description";
                 JS.get data "numEmployees"; JS.get data "logoUrl"] in
  let check := (Company.duplicate_check_sql, [handle]) in
  let log1 := (issued w ++ [check])%list in
  let log2 := (issued w ++ [check; (Company.create_sql, params)])%list in
  match Store.execute (db w) Company.duplicate_check_sql [handle] with
  | None => (inl DatabaseError, World (db w) log1)
  | Some (rows, _) =>
      if truthy (JS.first rows) then
        (inl (BadRequestError ("Duplicate company: " ++ ToString handle)),
         World (db w) log1)
      else
        match Store.execute (db w) Company.create_sql params with
        | None => (inl DatabaseError, World (db w) log2)
        | Some (rows', st) => (inr (JS.first rows'), World st log2)
        end
  end.
Proof.
  unfold Company.create, bind, db_query. cbv zeta.
  destruct (Store.execute (db w) Company.duplicate_check_sql _)
    as [[rows st1]|] eqn:E; [|reflexivity].
  apply execute_select in E; [|reflexivity]. subst st1.
  destruct (truthy (JS.first rows)); [reflexivity|].
  cbn [db issued]. unfold JS.push. rewrite <- app_assoc. cbn [app].
  destruct (Store.execute (db w) Company.create_sql _) as [[rows' st]|];
    reflexivity.
Qed.

(** X1.  The read operations [Company.findAll], [Company.get],
    [Job.findAll] and [Job.get] leave the store as it was, whatever their
    outcome, and every statement they issue is a SELECT. *)
Theorem X1_reads_keep_store (w : world) :
  (forall f, db (snd (Company.findAll f w)) = db w
             /\ forallb (fun q => is_select (fst q))
                        (issued_by (Company.findAll f) w) = true)
  /\ (forall h, db (snd (Company.get h w)) = db w
                /\ forallb (fun q => is_select (fst q))
                           (issued_by (Company.get h) w) = true)
  /\ (forall f, db (snd (Job.findAll f w)) = db w
                /\ forallb (fun q => is_select (fst q))
                           (issued_by (Job.findAll f) w) = true)
  /\ (forall id, db (snd (Job.get id w)) = db w
                 /\ forallb (fun q => is_select (fst q))
                            (issued_by (Job.get id) w) = true).
Proof.
  unfold issued_by. refine (conj _ (conj _ (conj _ _))).
  - intros f. rewrite company_findAll_spec. cbv zeta.
    destruct (company_findAll_statement (JS.get f "minEmployees")
                (JS.get f "maxEmployees") (JS.get f "name")) as [_ P].
    destruct (JS.gt _ _).
    + cbn [snd]. split; [reflexivity|]. now rewrite skipn_all.
    + destruct (sequence _); cbn [snd db issued]; rewrite skipn_app_length;
        (split; [reflexivity|]); cbn [forallb fst]; unfold is_select;
        rewrite P; reflexivity.
  - intros h. rewrite company_get_spec.
    destruct (filter _ _); cbn [snd db issued]; rewrite skipn_app_length;
      (split; [reflexivity|]); reflexivity.
  - intros f. rewrite job_findAll_spec. cbv zeta.
    destruct (job_findAll_statement (JS.get f "title")
                (JS.get f "minSalary") (JS.get f "hasEquity")) as [_ P].
    destruct (sequence _); cbn [snd db issued]; rewrite skipn_app_length;
      (split; [reflexivity|]); cbn [forallb fst]; unfold is_select;
      rewrite P; reflexivity.
  - intros id. rewrite job_get_spec.
    destruct (filter _ _); cbn [snd db issued]; rewrite skipn_app_length;
      (split; [reflexivity|]); reflexivity.
Qed.



(** ** Creating a company *)

Lemma parse_duplicate_check :
  Sql.parse Company.duplicate_check_sql
  = Some (Select [Item "handle" None] (Source "companies" None None)
                 [Cond "handle" CmpEq (OParam 1)] None).
Proof. vm_compute. reflexivity. Qed.

Lemma exec_duplicate_check (st : Store.store) (h : string) :
  Store.execute st Company.duplicate_check_sql [JStr h]
  = Some (map (fun c => JObj [("handle", JStr (Store.c_handle c))])
              (filter (has_handle h) (Store.companies st)), st).
Proof.
  run_parsed parse_duplicate_check.
  rewrite (filter_one _ (has_handle h)) by (intros; apply compare_eqb).
  reflexivity.
Qed.

Lemma parse_company_create :
  Sql.parse Company.create_sql
  = Some (Insert "companies"
                 ["handle"; "name"; "description"; "num_employees"; "logo_url"]
                 [OParam 1; OParam 2; OParam 3; OParam 4; OParam 5]
                 returning_company).
Proof. vm_compute. reflexivity. Qed.

Lemma exec_company_create (st st' : Store.store) (h n d e l : jsval)
  (rows : list jsval) :
  Store.execute st Company.create_sql [h; n; d; e; l] = Some (rows, st') ->
  exists c,
    rows = [company_obj c]
    /\ st' = Store.Build (Store.companies st ++ [c]) (Store.jobs st)
                         (Store.next_job_id st)
    /\ Store.bind Store.TyText h = Some (Store.VText (Store.c_handle c))
    /\ Store.bind Store.TyText n = Some (Store.VText (Store.c_name c))
    /\ Store.bind Store.TyText d = Some (Store.VText (Store.c_description c))
    /\ Store.bind Store.TyInt e
       = Some (Store.of_opt Store.VInt (Store.c_num_employees c))
    /\ Store.bind Store.TyText l
       = Some (Store.of_opt Store.VText (Store.c_logo_url c)).
Proof.
  unfold Store.execute. rewrite parse_company_create.
  cbn -[Store.bind Store.new_company].
  destruct (Store.bind Store.TyText h) as [vh|]; [|discriminate].
  destruct (Store.bind Store.TyText n) as [vn|]; [|discriminate].
  destruct (Store.bind Store.TyText d) as [vd|]; [|discriminate].
  destruct (Store.bind Store.TyInt e) as [ve|]; [|discriminate].
  destruct (Store.bind Store.TyText l) as [vl|]; [|discriminate].
  cbn [option_map]. unfold Store.new_company.
  cbn [Store.assoc String.eqb Ascii.eqb Bool.eqb].
  destruct vh as [| |hh|]; try discriminate.
  destruct vn as [| |nn|]; try discriminate.
  destruct vd as [| |dd|]; try discriminate.
  cbn [Store.required].
  destruct ve as [|ee| |]; try discriminate;
    destruct vl as [| |ll|]; try discriminate;
    cbn [Store.to_int Store.to_text];
    intros E; inversion E; subst; clear E;
    eexists; repeat split.
Qed.

Lemma filter_app_one {A : Type} (p : A -> bool) (l : list A) (x : A) :
  filter p l = [] -> p x = true -> filter p (l ++ [x]) = [x].
Proof. intros F P. rewrite filter_app, F. cbn. now rewrite P. Qed.

(** X3.  [Company.create] with a string handle throws BadRequest
    exactly when the store holds a company of that handle; it has then
    issued the duplicate check only, the store is as it was, and the message
    is [Duplicate company: ] followed by the handle. *)
Theorem X3_create_duplicate (data : JS.obj) (h : string) (w : world) :
  JS.get data "handle" = JStr h ->
  ((exists c, In c (Store.companies (db w)) /\ Store.c_handle c = h) <->
   bad_request (fst (Company.create data w)))
  /\ ((exists c, In c (Store.companies (db w)) /\ Store.c_handle c = h) ->
      Company.create data w
      = (inl (BadRequestError ("Duplicate company: " ++ h)),
         World (db w)
               (issued w ++ [(Company.duplicate_check_sql, [JStr h])]))).
Proof.
  intros H. rewrite company_create_spec. cbv zeta. rewrite H.
  rewrite exec_duplicate_check. cbn [ToString].
  destruct (filter (has_handle h) (Store.companies (db w))) as [|c cs] eqn:F.
  - assert (N : ~ exists c, In c (Store.companies (db w)) /\ Store.c_handle c = h).
    { intros [c [I E]]. apply no_company_iff in F. now apply (F c I). }
    cbn [map JS.first hd truthy]. split; [split|]; try (intros X; now contradiction N).
    destruct (Store.execute _ _ _) as [[rows st]|]; intros [m E]; discriminate.
  - assert (Y : exists c, In c (Store.companies (db w)) /\ Store.c_handle c = h).
    { exists c. assert (I : In c (filter (has_handle h) (Store.companies (db w))))
        by (rewrite F; now left).
      apply filter_In in I as [I E]. split; [assumption|]. now apply String.eqb_eq. }
    cbn [map JS.first hd truthy]. split; [split|]; intros _;
      try assumption; try reflexivity. eexists. reflexivity.
Qed.

Lemma X3_create_duplicate_witness :
  Company.create [("handle", JStr "c1"); ("name", JStr "Again")] Sample.w
  = (inl (BadRequestError "Duplicate company: c1"),
     World (db Sample.w) [(Company.duplicate_check_sql, [JStr "c1"])]).
Proof.
  apply (proj2 (X3_create_duplicate
                  [("handle", JStr "c1"); ("name", JStr "Again")] "c1" Sample.w
                  eq_refl)).
  exists Sample.c1. split; [right; left; reflexivity|reflexivity].
Defined.



(** ** Creating a job, removing, and the two views of a job *)

Lemma exec_job_create_store (st st' : Store.store) (t s e h : jsval)
  (rows : list jsval) :
  Store.execute st Job.create_sql [t; s; e; h] = Some (rows, st') ->
  exists j,
    rows = [job_obj j]
    /\ Store.j_id j = Store.next_job_id st
    /\ st' = Store.Build (Store.companies st) (Store.jobs st ++ [j])
                         (Store.next_job_id st + 1).
Proof.
  unfold Store.execute. rewrite parse_job_create. cbn -[Store.bind Store.new_job].
  destruct (Store.bind Store.TyText t) as [vt|]; [|discriminate].
  destruct (Store.bind Store.TyInt s) as [vs|]; [|discriminate].
  destruct (Store.bind Store.TyNumeric e) as [ve|]; [|discriminate].
  destruct (Store.bind Store.TyText h) as [vh|]; [|discriminate].
  cbn [option_map]. unfold Store.new_job. cbn [Store.assoc String.eqb Ascii.eqb Bool.eqb].
  destruct (Store.required vt) as [x|]; [|discriminate].
  destruct (Store.to_int vs) as [y|]; [|discriminate].
  destruct (Store.to_num ve) as [z|]; [|discriminate].
  destruct (Store.required vh) as [hh|]; [|discriminate].
  intros E. inversion E; subst. clear E.
  eexists. repeat split.
Qed.

Lemma first_filter {A : Type} (g : A -> jsval) (p : A -> bool) (l : list A) :
  JS.first (map g (filter p l))
  = match find p l with Some x => g x | None => JUndefined end.
Proof. rewrite find_filter. destruct (filter p l); reflexivity. Qed.

(** X5.  When [Job.create] succeeds in a store where the next id
    is not in use, the returned object is the one row added at the end of the
    jobs, its id is the next id of the store, which has moved on by one, the
    companies are as they were, and [Job.get] of that id in the resulting
    world returns the fields of the row with the first company of its handle
    ([undefined] when there is none). *)
Theorem X5_job_create_then_get (data : JS.obj) (w w' : world) (row : jsval) :
  Job.create data w = (inr row, w') ->
  no_job (Store.next_job_id (db w)) (db w) ->
  exists j,
    row = job_obj j
    /\ Store.j_id j = Store.next_job_id (db w)
    /\ Store.jobs (db w') = (Store.jobs (db w) ++ [j])%list
    /\ Store.companies (db w') = Store.companies (db w)
    /\ Store.next_job_id (db w') = (Store.next_job_id (db w) + 1)%Z
    /\ fst (Job.get (Store.j_id j) w')
       = inr (JObj (job_fields j
                    ++ [("company",
                         match find (has_handle (Store.j_company_handle j))
                                    (Store.companies (db w)) with
                         | Some c => JObj (company_fields c)
                         | None => JUndefined
                         end)])).
Proof.
  rewrite job_create_spec. cbv zeta.
  destruct (Store.execute _ _ _) as [[rows st]|] eqn:E; [|discriminate].
  apply exec_job_create_store in E as [j [-> [I ->]]].
  intros R N. inversion R; subst row w'. clear R. exists j.
  cbn [JS.first hd db Store.jobs Store.companies Store.next_job_id].
  refine (conj eq_refl (conj I (conj eq_refl (conj eq_refl (conj eq_refl _))))).
  rewrite job_get_spec. cbn [db Store.jobs Store.companies].
  rewrite filter_app_one.
  - cbn [fst]. rewrite first_filter. reflexivity.
  - rewrite I. now apply no_job_iff.
  - apply Z.eqb_refl.
Qed.

Lemma X5_job_create_then_get_witness :
  exists j,
    JObj [("id", JNum 4); ("title", JStr "myTitle"); ("salary", JNum 9999);
          ("equity", JStr "0.1"); ("companyHandle", JStr "c1")] = job_obj j
    /\ Store.j_id j = 4%Z
    /\ fst (Job.get (Store.j_id j) (snd (Job.create Fixture.newJob Fixture.w)))
       = inr (JObj (job_fields j ++ [("company", JObj (company_fields Fixture.c1))])).
Proof.
  destruct (X5_job_create_then_get
              Fixture.newJob Fixture.w
              (snd (Job.create Fixture.newJob Fixture.w))
              (JObj [("id", JNum 4); ("title", JStr "myTitle");
                     ("salary", JNum 9999); ("equity", JStr "0.1");
                     ("companyHandle", JStr "c1")]))
    as [j [R [I [J [_ [_ G]]]]]].
  - vm_compute. reflexivity.
  - intros j [<-|[<-|[<-|[]]]]; discriminate.
  - exists j. split; [exact R|]. split; [exact I|].
    rewrite G. inversion R. reflexivity.
Defined.

Lemma filter_filter_neg {A : Type} (p : A -> bool) (l : list A) :
  filter p (filter (fun x => negb (p x)) l) = [].
Proof.
  apply filter_nil_iff. intros x I. apply filter_In in I as [_ N].
  now apply negb_true_iff.
Qed.

(** X6.  After [Company.remove] (resp. [Job.remove]) of a key the
    store holds, the table is the rows of the other keys in their order (and
    for [Job.remove] the companies are as they were), no row has the key, and
    a [get] or a second [remove] of the key throws NotFound. *)
Theorem X6_remove_then_gone (w : world) :
  (forall h,
      ~ no_company h (db w) ->
      Store.companies (db (snd (Company.remove h w)))
      = filter (fun c => negb (has_handle h c)) (Store.companies (db w))
      /\ no_company h (db (snd (Company.remove h w)))
      /\ not_found (fst (Company.get h (snd (Company.remove h w))))
      /\ not_found (fst (Company.remove h (snd (Company.remove h w)))))
  /\ (forall id,
        ~ no_job id (db w) ->
        Store.jobs (db (snd (Job.remove id w)))
        = filter (fun j => negb (has_id id j)) (Store.jobs (db w))
        /\ Store.companies (db (snd (Job.remove id w))) = Store.companies (db w)
        /\ no_job id (db (snd (Job.remove id w)))
        /\ not_found (fst (Job.get id (snd (Job.remove id w))))
        /\ not_found (fst (Job.remove id (snd (Job.remove id w))))).
Proof.
  split.
  - intros h N. rewrite <- no_company_iff in N.
    rewrite (company_remove_spec h w).
    destruct (filter (has_handle h) (Store.companies (db w))) eqn:F;
      [contradiction|]. cbn [snd db Store.companies].
    assert (G : filter (has_handle h)
                  (filter (fun c => negb (has_handle h c)) (Store.companies (db w)))
                = []) by apply filter_filter_neg.
    split; [reflexivity|]. split; [now apply no_company_iff|].
    rewrite company_get_spec, company_remove_spec. cbn [db Store.companies].
    rewrite G. split; eexists; reflexivity.
  - intros id N. rewrite <- no_job_iff in N.
    rewrite (job_remove_spec id w).
    destruct (filter (has_id id) (Store.jobs (db w))) eqn:F;
      [contradiction|]. cbn [snd db Store.jobs Store.companies].
    assert (G : filter (has_id id)
                  (filter (fun c => negb (has_id id c)) (Store.jobs (db w)))
                = []) by apply filter_filter_neg.
    split; [reflexivity|]. split; [reflexivity|]. split; [now apply no_job_iff|].
    rewrite job_get_spec, job_remove_spec. cbn [db Store.jobs].
    rewrite G. split; eexists; reflexivity.
Qed.

Lemma X6_remove_then_gone_witness :
  not_found (fst (Company.get "c1" (snd (Company.remove "c1" Sample.w))))
  /\ not_found (fst (Job.get 1 (snd (Job.remove 1 Sample.w)))).
Proof.
  split.
  - apply (proj1 (X6_remove_then_gone Sample.w) "c1").
    intros N. apply (N Sample.c1); [right; left; reflexivity|reflexivity].
  - apply (proj2 (X6_remove_then_gone Sample.w) 1%Z).
    intros N. apply (N Sample.j1); [right; left; reflexivity|reflexivity].
Defined.

(** X7.  [Job.get] and [Company.get] agree: for the first job [j]
    of an id and the first company of [j]'s handle, the [company] of
    [Job.get id] is what [Company.get] of the handle returns less its [jobs],
    and what [Job.get id] returns, less its [company], is among those
    [jobs]. *)
Theorem X7_job_company_agrees (id : Z) (j : Store.job) (c : Store.company)
  (w : world) :
  find (has_id id) (Store.jobs (db w)) = Some j ->
  find (has_handle (Store.j_company_handle j)) (Store.companies (db w)) = Some c ->
  exists job company jobs,
    fst (Job.get id w) = inr job
    /\ fst (Company.get (Store.j_company_handle j) w) = inr company
    /\ prop job "company" = remove_prop company "jobs"
    /\ prop company "jobs" = JArr jobs
    /\ In (remove_prop (remove_prop job "company") "companyHandle") jobs.
Proof.
  intros J C. rewrite job_get_spec, company_get_spec.
  rewrite find_filter in J. rewrite find_filter in C.
  destruct (filter (has_id id) _) as [|j' js] eqn:FJ; [discriminate|].
  destruct (filter (has_handle _) _) as [|c' cs] eqn:FC; [discriminate|].
  inversion J; inversion C; subst j' c'. clear J C.
  do 3 eexists. cbn [fst].
  refine (conj eq_refl (conj eq_refl (conj _ (conj _ _)))).
  - cbn. rewrite FC. reflexivity.
  - reflexivity.
  - cbn. apply in_map_iff. exists j. split; [reflexivity|].
    apply filter_In. split.
    + assert (I : In j (filter (has_id id) (Store.jobs (db w))))
        by (rewrite FJ; now left).
      now apply filter_In in I.
    + assert (I : In c (filter (has_handle (Store.j_company_handle j))
                               (Store.companies (db w))))
        by (rewrite FC; now left).
      apply filter_In in I as [_ E]. unfold has_handle in E. unfold owned_by.
      apply String.eqb_eq in E. rewrite E. apply String.eqb_refl.
Qed.

Lemma X7_job_company_agrees_witness :
  exists job company jobs,
    fst (Job.get 1 Sample.w) = inr job
    /\ fst (Company.get "c1" Sample.w) = inr company
    /\ prop job "company" = remove_prop company "jobs"
    /\ prop company "jobs" = JArr jobs
    /\ In (remove_prop (remove_prop job "company") "companyHandle") jobs.
Proof.
  apply (X7_job_company_agrees 1 Sample.j1 Sample.c1 Sample.w); reflexivity.
Defined.

(** ** Updating *)

Lemma set_clauses_names (cols : list string) (idx : nat) :
  map fst (set_clauses cols idx) = cols.
Proof.
  revert idx. induction cols as [|c cols IH]; intros idx; [reflexivity|].
  cbn [set_clauses mapi map fst]. f_equal. apply IH.
Qed.

Lemma compile_sets_values (T : Store.table) (cols : list string)
  (pre vals post : list jsval) (asg : list (string * Store.sqlval)) :
  List.length vals = List.length cols ->
  sequence (map (Store.compile_set T (pre ++ vals ++ post))
                (set_clauses cols (List.length pre))) = Some asg ->
  Forall2 (fun cv kv =>
             fst cv = fst kv
             /\ exists ty f, Store.tcol T (fst kv) = Some (ty, f)
                             /\ Store.bind ty (snd kv) = Some (snd cv))
          asg (combine cols vals).
Proof.
  revert pre vals asg.
  induction cols as [|c cols IH]; intros pre vals asg L; destruct vals as [|v vals];
    try discriminate; cbn [set_clauses mapi map sequence combine].
  - intros E. inversion E. constructor.
  - unfold Store.compile_set at 1. cbn [fst snd].
    destruct (Store.tcol T c) as [[ty f]|] eqn:C; [|discriminate].
    rewrite Nat.add_1_r. cbn [Store.operand_value].
    rewrite nth_error_app2 by lia. rewrite Nat.sub_diag. cbn [nth_error app].
    destruct (Store.bind ty v) as [x|] eqn:B; [|discriminate].
    cbn [option_map].
    change (mapi (fun (c0 : string) (i : nat) => (c0, OParam (i + 1)))
                 (S (List.length pre)) cols)
      with (set_clauses cols (S (List.length pre))).
    replace (pre ++ v :: vals ++ post)%list with ((pre ++ [v]) ++ vals ++ post)%list
      by (now rewrite <- app_assoc).
    replace (S (List.length pre)) with (List.length (pre ++ [v])%list)
      by (rewrite length_app; cbn; lia).
    destruct (sequence _) as [rest|] eqn:R; [|discriminate].
    cbn [option_map]. intros E. inversion E; subst asg.
    constructor.
    + cbn [fst snd]. split; [reflexivity|]. exists ty, f. now split.
    + apply (IH (pre ++ [v])%list vals rest); [|assumption].
      cbn in L. lia.
Qed.

Lemma bound_names {A B C : Type} (R : A * B -> A * C -> Prop)
  (asg : list (A * B)) (cols : list A) (vals : list C) :
  List.length vals = List.length cols ->
  Forall2 (fun cv kv => fst cv = fst kv /\ R cv kv) asg (combine cols vals) ->
  map fst asg = cols.
Proof.
  revert asg vals. induction cols as [|c cols IH]; intros asg vals L F;
    destruct vals as [|v vals]; try discriminate; cbn [combine] in F.
  - now inversion F.
  - inversion F as [|cv kv asg' l' [H _] F']; subst. cbn [map].
    cbn [fst] in H. rewrite H. f_equal. apply (IH asg' vals); [|assumption].
    cbn in L. lia.
Qed.

Lemma update_rows_defined {A : Type} (hit : A -> bool) (f : A -> option A)
  (l all changed : list A) :
  Store.update_rows hit f l = Some (all, changed) ->
  forall r, In r l -> hit r = true -> f r <> None.
Proof.
  revert all changed. induction l as [|x l IH]; intros all changed U r I H;
    [contradiction|].
  cbn [Store.update_rows] in U.
  destruct (hit x) eqn:Hx.
  - destruct (f x) as [x'|] eqn:Fx; [|discriminate].
    destruct (Store.update_rows hit f l) as [[a c]|] eqn:U'; [|discriminate].
    destruct I as [<-|I]; [congruence|]. now apply (IH a c).
  - destruct (Store.update_rows hit f l) as [[a c]|] eqn:U'; [|discriminate].
    destruct I as [<-|I]; [congruence|]. now apply (IH a c).
Qed.

Lemma exec_company_update_store (st st' : Store.store) (cols : list string)
  (vals rows : list jsval) (h : string) :
  cols <> [] -> forallb plain cols = true ->
  List.length vals = List.length cols ->
  Store.execute st (Company.update_sql (JS.join ", " (mapi set_item 0 cols))
                       ("$" ++ nat_to_string (List.length vals + 1)))
                (vals ++ [JStr h]) = Some (rows, st') ->
  exists asg,
    Forall2 (fun cv kv =>
               fst cv = fst kv
               /\ exists ty f, Store.company_col (fst kv) = Some (ty, f)
                               /\ Store.bind ty (snd kv) = Some (snd cv))
            asg (combine cols vals)
    /\ (forall c, In c (Store.companies st) -> has_handle h c = true ->
                  Store.assign Store.companies_table asg c <> None)
    /\ st' = Store.Build
               (map (fun c => if has_handle h c
                              then updated (Store.assign Store.companies_table asg) c
                              else c) (Store.companies st))
               (Store.jobs st) (Store.next_job_id st)
    /\ rows = map company_obj
                  (map (updated (Store.assign Store.companies_table asg))
                       (filter (has_handle h) (Store.companies st))).
Proof.
  intros NE P L. unfold Store.execute.
  rewrite L, parse_company_update by assumption.
  rewrite params_ok_seq.
  2:{ rewrite used_update, length_app, L. reflexivity. }
  cbn [Store.run].
  change (Store.table_of "companies") with (Some Store.companies_table).
  cbv iota.
  destruct (sequence (map (Store.compile_set _ _) _)) as [asg|] eqn:A; [|discriminate].
  change (set_clauses cols 0) with (set_clauses cols (List.length (@nil jsval))) in A.
  change (vals ++ [JStr h])%list with ([] ++ vals ++ [JStr h])%list in A.
  apply (compile_sets_values _ cols [] vals) in A; [|assumption].
  cbn [map sequence]. unfold Store.compile_cond at 1.
  cbn [cond_col cond_op cond_rhs].
  change (Store.col (Store.scan Store.companies_table "companies" st) "handle")
    with (Some (Store.TyText, fun r : Store.company => Store.VText (Store.c_handle r))).
  cbv iota. rewrite <- L, operand_last. cbn [Store.bind option_map].
  change (sequence (map (Store.compile_item _) returning_company))
    with (Some [("handle", fun r : Store.company => Store.VText (Store.c_handle r));
                ("name", fun r => Store.VText (Store.c_name r));
                ("description", fun r => Store.VText (Store.c_description r));
                ("numEmployees", fun r => Store.of_opt Store.VInt (Store.c_num_employees r));
                ("logoUrl", fun r => Store.of_opt Store.VText (Store.c_logo_url r))]).
  cbv iota.
  destruct (Store.update_rows _ _ _) as [[all changed]|] eqn:U; [|discriminate].
  intros E. inversion E; subst rows st'. clear E.
  pose proof (update_rows_defined _ _ _ _ _ U) as D.
  apply update_rows_spec in U as [-> ->].
  assert (H : forall c : Store.company,
             Store.satisfies
               [fun r => Store.test CmpEq (Store.VText (Store.c_handle r)) (Store.VText h)] c
             = has_handle h c).
  { intros c. rewrite satisfies_one. apply compare_eqb. }
  exists asg. split; [assumption|]. split.
  { intros c I Hc. apply D; [assumption|]. now rewrite H. }
  split.
  - cbn [Store.tput Store.companies_table Store.tget]. f_equal.
    apply map_ext. intros c. now rewrite H.
  - cbn [Store.tget Store.companies_table]. rewrite (filter_ext _ _ H). reflexivity.
Qed.

Lemma exec_job_update_store (st st' : Store.store) (cols : list string)
  (vals rows : list jsval) (id : Z) :
  cols <> [] -> forallb plain cols = true ->
  List.length vals = List.length cols ->
  Store.execute st (Job.update_sql (JS.join ", " (mapi set_item 0 cols))
                       ("$" ++ nat_to_string (List.length vals + 1)))
                (vals ++ [JNum id]) = Some (rows, st') ->
  exists asg,
    Forall2 (fun cv kv =>
               fst cv = fst kv
               /\ exists ty f, Store.job_col (fst kv) = Some (ty, f)
                               /\ Store.bind ty (snd kv) = Some (snd cv))
            asg (combine cols vals)
    /\ (forall j, In j (Store.jobs st) -> has_id id j = true ->
                  Store.assign Store.jobs_table asg j <> None)
    /\ st' = Store.Build
               (Store.companies st)
               (map (fun j => if has_id id j
                              then updated (Store.assign Store.jobs_table asg) j
                              else j) (Store.jobs st))
               (Store.next_job_id st)
    /\ rows = map job_obj
                  (map (updated (Store.assign Store.jobs_table asg))
                       (filter (has_id id) (Store.jobs st))).
Proof.
  intros NE P L. unfold Store.execute.
  rewrite L, parse_job_update by assumption.
  rewrite params_ok_seq.
  2:{ rewrite used_update, length_app, L. reflexivity. }
  cbn [Store.run].
  change (Store.table_of "jobs") with (Some Store.jobs_table).
  cbv iota.
  destruct (sequence (map (Store.compile_set _ _) _)) as [asg|] eqn:A; [|discriminate].
  change (set_clauses cols 0) with (set_clauses cols (List.length (@nil jsval))) in A.
  change (vals ++ [JNum id])%list with ([] ++ vals ++ [JNum id])%list in A.
  apply (compile_sets_values _ cols [] vals) in A; [|assumption].
  cbn [map sequence]. unfold Store.compile_cond at 1.
  cbn [cond_col cond_op cond_rhs].
  change (Store.col (Store.scan Store.jobs_table "jobs" st) "id")
    with (Some (Store.TyInt, fun r : Store.job => Store.VInt (Store.j_id r))).
  cbv iota. rewrite <- L, operand_last. cbn [Store.bind option_map].
  change (sequence (map (Store.compile_item _) returning_job))
    with (Some [("id", fun r : Store.job => Store.VInt (Store.j_id r));
                ("title", fun r => Store.VText (Store.j_title r));
                ("salary", fun r => Store.of_opt Store.VInt (Store.j_salary r));
                ("equity", fun r => Store.of_opt Store.VNum (Store.j_equity r));
                ("companyHandle", fun r => Store.VText (Store.j_company_handle r))]).
  cbv iota.
  destruct (Store.update_rows _ _ _) as [[all changed]|] eqn:U; [|discriminate].
  intros E. inversion E; subst rows st'. clear E.
  pose proof (update_rows_defined _ _ _ _ _ U) as D.
  apply update_rows_spec in U as [-> ->].
  assert (H : forall j : Store.job,
             Store.satisfies
               [fun r => Store.test CmpEq (Store.VInt (Store.j_id r)) (Store.VInt id)] j
             = has_id id j).
  { intros j. rewrite satisfies_one. apply Zcompare_eqb. }
  exists asg. split; [assumption|]. split.
  { intros j I Hj. apply D; [assumption|]. now rewrite H. }
  split.
  - cbn [Store.tput Store.jobs_table Store.tget]. f_equal.
    apply map_ext. intros j. now rewrite H.
  - cbn [Store.tget Store.jobs_table]. rewrite (filter_ext _ _ H). reflexivity.
Qed.

Lemma company_update_store (h : string) (data : JS.obj) (w : world) :
  data <> [] -> forallb plain (JS.keys data) = true ->
  (fst (Company.update h data w) = inl DatabaseError
   /\ db (snd (Company.update h data w)) = db w)
  \/ exists asg,
       Forall2 (fun cv kv =>
                  fst cv = fst kv
                  /\ exists ty f, Store.company_col (fst kv) = Some (ty, f)
                                  /\ Store.bind ty (snd kv) = Some (snd cv))
               asg (combine (map (column_name Company.jsToSql) (JS.keys data))
                            (JS.values data))
       /\ (forall c, In c (Store.companies (db w)) -> has_handle h c = true ->
                     Store.assign Store.companies_table asg c <> None)
       /\ db (snd (Company.update h data w))
          = Store.Build
              (map (fun c => if has_handle h c
                             then updated (Store.assign Store.companies_table asg) c
                             else c) (Store.companies (db w)))
              (Store.jobs (db w)) (Store.next_job_id (db w))
       /\ fst (Company.update h data w)
          = match filter (has_handle h) (Store.companies (db w)) with
            | [] => inl (NotFoundError ("No company: " ++ h))
            | c :: _ =>
                inr (company_obj
                       (updated (Store.assign Store.companies_table asg) c))
            end.
Proof.
  intros NE P. rewrite company_update_spec by assumption. cbv zeta.
  destruct (Store.execute (db w) _ (JS.values data ++ [JStr h]))
    as [[rows st']|] eqn:E; [right|left; split; reflexivity].
  apply exec_company_update_store in E.
  - destruct E as [asg [A [D [-> ->]]]]. exists asg.
    split; [assumption|]. split; [assumption|].
    destruct (filter (has_handle h) (Store.companies (db w))) as [|c cs];
      split; reflexivity.
  - intros M. apply map_eq_nil in M. unfold JS.keys in M.
    apply map_eq_nil in M. contradiction.
  - rewrite forallb_map.
    rewrite forallb_forall in P. apply forallb_forall. intros k I.
    apply plain_company_column. now apply P.
  - unfold JS.values, JS.keys. now rewrite !length_map.
Qed.

Lemma job_update_store (id : Z) (data : JS.obj) (w : world) :
  data <> [] -> forallb plain (JS.keys data) = true ->
  (fst (Job.update id data w) = inl DatabaseError
   /\ db (snd (Job.update id data w)) = db w)
  \/ exists asg,
       Forall2 (fun cv kv =>
                  fst cv = fst kv
                  /\ exists ty f, Store.job_col (fst kv) = Some (ty, f)
                                  /\ Store.bind ty (snd kv) = Some (snd cv))
               asg (combine (JS.keys data) (JS.values data))
       /\ (forall j, In j (Store.jobs (db w)) -> has_id id j = true ->
                     Store.assign Store.jobs_table asg j <> None)
       /\ db (snd (Job.update id data w))
          = Store.Build
              (Store.companies (db w))
              (map (fun j => if has_id id j
                             then updated (Store.assign Store.jobs_table asg) j
                             else j) (Store.jobs (db w)))
              (Store.next_job_id (db w))
       /\ fst (Job.update id data w)
          = match filter (has_id id) (Store.jobs (db w)) with
            | [] => inl (NotFoundError ("Job " ++ Z_to_string id ++ " not found."))
            | j :: _ =>
                inr (job_obj (updated (Store.assign Store.jobs_table asg) j))
            end.
Proof.
  intros NE P. rewrite job_update_spec by assumption. cbv zeta.
  destruct (Store.execute (db w) _ (JS.values data ++ [JNum id]))
    as [[rows st']|] eqn:E; [right|left; split; reflexivity].
  apply exec_job_update_store in E.
  - destruct E as [asg [A [D [-> ->]]]]. exists asg.
    assert (K : map (column_name []) (JS.keys data) = JS.keys data)
      by (unfold column_name; cbn [lookup]; apply map_id).
    rewrite K in A.
    split; [assumption|]. split; [assumption|].
    destruct (filter (has_id id) (Store.jobs (db w))) as [|j js];
      split; reflexivity.
  - intros M. apply map_eq_nil in M. unfold JS.keys in M.
    apply map_eq_nil in M. contradiction.
  - rewrite forallb_map.
    rewrite forallb_forall in P. apply forallb_forall. intros k I.
    now apply P.
  - unfold JS.values, JS.keys. now rewrite !length_map.
Qed.

Lemma length_keys_values (m : list (string * string)) (data : JS.obj) :
  List.length (JS.values data) = List.length (map (column_name m) (JS.keys data)).
Proof. unfold JS.values, JS.keys. now rewrite !length_map. Qed.

Lemma length_values (data : JS.obj) :
  List.length (JS.values data) = List.length (JS.keys data).
Proof. unfold JS.values, JS.keys. now rewrite !length_map. Qed.

Ltac other_column S C N :=
  match type of S with
  | context [String.eqb ?c ?k] =>
      let E := fresh "E" in
      destruct (String.eqb c k) eqn:E;
      [ apply String.eqb_eq in E; subst c;
        match type of C with
        | context [String.eqb ?c0 k] =>
            let F := fresh "F" in
            destruct (String.eqb c0 k) eqn:F;
            [ apply String.eqb_eq in F; congruence | ]
        end
      | ]
  end.

Lemma company_set_other (c c0 : string) (v : Store.sqlval) (r r' : Store.company)
  (ty : Store.sqltype) (f : Store.company -> Store.sqlval) :
  Store.company_set c v r = Some r' -> c0 <> c ->
  Store.company_col c0 = Some (ty, f) -> f r' = f r.
Proof.
  intros S N C. destruct r as [h n d e l].
  unfold Store.company_set in S. unfold Store.company_col in C.
  repeat
    (other_column S C N;
     [ match type of S with
       | option_map _ ?o = _ => destruct o; [|discriminate]
       end;
       cbn [option_map] in S; inversion S; subst r';
       repeat match type of C with
              | (if ?b then _ else _) = _ =>
                  destruct b; [inversion C; reflexivity|]
              end; discriminate
     | ]).
  discriminate.
Qed.

Lemma job_set_other (c c0 : string) (v : Store.sqlval) (r r' : Store.job)
  (ty : Store.sqltype) (f : Store.job -> Store.sqlval) :
  Store.job_set c v r = Some r' -> c0 <> c ->
  Store.job_col c0 = Some (ty, f) -> f r' = f r.
Proof.
  intros S N C. destruct r as [i t s e h].
  unfold Store.job_set in S. unfold Store.job_col in C.
  other_column S C N.
  { destruct v; try discriminate. inversion S; subst r'.
    repeat match type of C with
           | (if ?b then _ else _) = _ =>
               destruct b; [inversion C; reflexivity|]
           end; discriminate. }
  repeat
    (other_column S C N;
     [ match type of S with
       | option_map _ ?o = _ => destruct o; [|discriminate]
       end;
       cbn [option_map] in S; inversion S; subst r';
       repeat match type of C with
              | (if ?b then _ else _) = _ =>
                  destruct b; [inversion C; reflexivity|]
              end; discriminate
     | ]).
  discriminate.
Qed.

Lemma assign_other (T : Store.table)
  (keeps : forall c c0 v r r' ty f,
      Store.tset T c v r = Some r' -> c0 <> c ->
      Store.tcol T c0 = Some (ty, f) -> f r' = f r)
  (asg : list (string * Store.sqlval)) (c0 : string) (ty : Store.sqltype)
  (f : Store.trow T -> Store.sqlval) (r : Store.trow T) :
  ~ In c0 (map fst asg) -> Store.tcol T c0 = Some (ty, f) ->
  f (updated (Store.assign T asg) r) = f r.
Proof.
  intros N C. unfold updated.
  destruct (Store.assign T asg r) as [r'|] eqn:A; [|reflexivity].
  revert r A. induction asg as [|[c v] asg IH]; intros r A; cbn [Store.assign] in A.
  - now inversion A.
  - destruct (Store.tset T c v r) as [r1|] eqn:S; [|discriminate].
    cbn [map fst] in N.
    rewrite (IH (fun I => N (or_intror I)) r1 A).
    apply (keeps c c0 v r r1 ty f S); [|assumption].
    intros ->. apply N. now left.
Qed.

Lemma Forall2_map_self {A : Type} (P : A -> A -> Prop) (g : A -> A) (l : list A) :
  (forall x, P x (g x)) -> Forall2 P l (map g l).
Proof. intros H. induction l; cbn; constructor; auto. Qed.

Lemma filter_map_hit {A : Type} (hit : A -> bool) (g : A -> A) (l : list A) :
  (forall x, hit (g x) = hit x) -> filter hit (map g l) = map g (filter hit l).
Proof.
  intros H. induction l as [|x l IH]; [reflexivity|].
  cbn [map filter]. rewrite H. destruct (hit x); cbn [map]; now rewrite IH.
Qed.

(** X8.  [Company.update] with a non-empty [data] whose keys hold
    no double quote (the SET clause being the one of helpers/sql.js as
    modelled) adds and removes no row and keeps the order of the companies; a
    company of another handle is as it was; in every company each column that
    [data] does not name, through [jsToSql], keeps its value; the jobs and
    the next job id are as they were. *)
Theorem X8_company_update_scope (h : string) (data : JS.obj) (w : world) :
  data <> [] -> forallb plain (JS.keys data) = true ->
  let st' := db (snd (Company.update h data w)) in
  Forall2
    (fun c c' =>
       (Store.c_handle c <> h -> c' = c)
       /\ forall col ty f,
            Store.company_col col = Some (ty, f) ->
            ~ In col (map (column_name Company.jsToSql) (JS.keys data)) ->
            f c' = f c)
    (Store.companies (db w)) (Store.companies st')
  /\ Store.jobs st' = Store.jobs (db w)
  /\ Store.next_job_id st' = Store.next_job_id (db w).
Proof.
  intros NE P. cbv zeta.
  destruct (company_update_store h data w NE P) as [[_ ->]|[asg [A [_ [-> _]]]]].
  - refine (conj _ (conj eq_refl eq_refl)).
    rewrite <- (map_id (Store.companies (db w))) at 2.
    apply Forall2_map_self. intros c. split; reflexivity.
  - cbn [Store.companies Store.jobs Store.next_job_id].
    refine (conj _ (conj eq_refl eq_refl)).
    apply Forall2_map_self. intros c. unfold has_handle.
    destruct (Store.c_handle c =? h) eqn:E.
    + split; [apply String.eqb_eq in E; contradiction|].
      apply bound_names in A; [|apply length_keys_values].
      intros col ty f C N. rewrite <- A in N.
      now apply (assign_other Store.companies_table company_set_other asg col ty f c).
    + split; reflexivity.
Qed.

Lemma X8_company_update_scope_witness :
  Store.jobs (db (snd (Company.update "c1" [("numEmployees", JNum 10)] Sample.w)))
  = Store.jobs (db Sample.w)
  /\ Store.next_job_id
       (db (snd (Company.update "c1" [("numEmployees", JNum 10)] Sample.w)))
     = Store.next_job_id (db Sample.w).
Proof.
  apply (proj2 (X8_company_update_scope "c1" [("numEmployees", JNum 10)] Sample.w
                  ltac:(discriminate) eq_refl)).
Defined.



(** X10.  What a successful [update] returns is what a [get] of the
    same key then finds: when [data] does not name the key column ([handle],
    resp. [id]), the row returned by [Company.update] (resp. [Job.update])
    has the key it was asked for, and [Company.get] (resp. [Job.get]) in the
    resulting world returns the fields of that row, with the jobs of the
    handle (resp. the first company of the row's handle). *)
Theorem X10_update_then_get (data : JS.obj) (w : world) :
  data <> [] -> forallb plain (JS.keys data) = true ->
  (forall h row,
      ~ In "handle" (JS.keys data) ->
      fst (Company.update h data w) = inr row ->
      exists c',
        row = company_obj c' /\ Store.c_handle c' = h
        /\ fst (Company.get h (snd (Company.update h data w)))
           = inr (JObj (company_fields c'
                        ++ [("jobs", JArr (map (fun j => JObj (job_fields j))
                                               (filter (owned_by h)
                                                       (Store.jobs (db w)))))])))
  /\ (forall id row,
        ~ In "id" (JS.keys data) ->
        fst (Job.update id data w) = inr row ->
        exists j',
          row = job_obj j' /\ Store.j_id j' = id
          /\ fst (Job.get id (snd (Job.update id data w)))
             = inr (JObj (job_fields j'
                          ++ [("company",
                               JS.first
                                 (map company_obj
                                      (filter (has_handle (Store.j_company_handle j'))
                                              (Store.companies (db w)))))]))).
Proof.
  intros NE P. split.
  - intros h row N R.
    destruct (company_update_store h data w NE P) as [[D _]|[asg [A [_ [S F]]]]];
      [congruence|].
    apply bound_names in A; [|apply length_keys_values].
    rewrite R in F.
    destruct (filter (has_handle h) (Store.companies (db w))) as [|c cs] eqn:Fc;
      [discriminate|].
    inversion F; subst row. clear F.
    set (upd := updated (Store.assign Store.companies_table asg)) in *.
    assert (K : forall x, Store.c_handle (upd x) = Store.c_handle x).
    { intros x.
      assert (H : Store.VText (Store.c_handle (upd x)) = Store.VText (Store.c_handle x)).
      { apply (assign_other Store.companies_table company_set_other asg "handle"
                 Store.TyText (fun r => Store.VText (Store.c_handle r)) x);
          [|reflexivity].
        rewrite A. intros I. apply in_map_iff in I as [k [E I]].
        unfold column_name, Company.jsToSql in E. cbn [lookup] in E.
        destruct ("numEmployees" =? k); [discriminate|].
        destruct ("logoUrl" =? k); [discriminate|]. subst k. contradiction. }
      now inversion H. }
    assert (Hc : Store.c_handle c = h).
    { assert (I : In c (filter (has_handle h) (Store.companies (db w))))
        by (rewrite Fc; now left).
      apply filter_In in I as [_ I]. now apply String.eqb_eq in I. }
    exists (upd c). split; [reflexivity|]. split; [now rewrite K|].
    rewrite company_get_spec, S. cbn [Store.companies Store.jobs].
    rewrite filter_map_hit.
    2:{ intros x. unfold has_handle. destruct (Store.c_handle x =? h) eqn:E.
        - now rewrite K, E.
        - assumption. }
    assert (Hh : has_handle h c = true) by (now apply String.eqb_eq).
    rewrite Fc. cbn [map]. rewrite !Hh. cbn [fst].
    now rewrite K, Hc.
  - intros id row N R.
    destruct (job_update_store id data w NE P) as [[D _]|[asg [A [_ [S F]]]]];
      [congruence|].
    apply bound_names in A; [|apply length_values].
    rewrite R in F.
    destruct (filter (has_id id) (Store.jobs (db w))) as [|j js] eqn:Fj;
      [discriminate|].
    inversion F; subst row. clear F.
    set (upd := updated (Store.assign Store.jobs_table asg)) in *.
    assert (K : forall x, Store.j_id (upd x) = Store.j_id x).
    { intros x.
      assert (H : Store.VInt (Store.j_id (upd x)) = Store.VInt (Store.j_id x)).
      { apply (assign_other Store.jobs_table job_set_other asg "id"
                 Store.TyInt (fun r => Store.VInt (Store.j_id r)) x);
          [|reflexivity].
        now rewrite A. }
      now inversion H. }
    assert (Hj : Store.j_id j = id).
    { assert (I : In j (filter (has_id id) (Store.jobs (db w))))
        by (rewrite Fj; now left).
      apply filter_In in I as [_ I]. now apply Z.eqb_eq in I. }
    exists (upd j). split; [reflexivity|]. split; [now rewrite K|].
    rewrite job_get_spec, S. cbn [Store.companies Store.jobs].
    rewrite filter_map_hit.
    2:{ intros x. unfold has_id. destruct (Store.j_id x =? id)%Z eqn:E.
        - now rewrite K, E.
        - assumption. }
    assert (Hh : has_id id j = true) by (now apply Z.eqb_eq).
    rewrite Fj. cbn [map]. rewrite !Hh. reflexivity.
Qed.

Lemma X10_update_then_get_witness :
  exists j',
    JObj [("id", JNum 1); ("title", JStr "New"); ("salary", JNum 100);
          ("equity", JStr "0.1"); ("companyHandle", JStr "c1")] = job_obj j'
    /\ Store.j_id j' = 1%Z
    /\ fst (Job.get 1 (snd (Job.update 1 [("title", JStr "New")] Sample.w)))
       = inr (JObj (job_fields j'
                    ++ [("company",
                         JS.first
                           (map company_obj
                                (filter (has_handle (Store.j_company_handle j'))
                                        (Store.companies (db Sample.w)))))])).
Proof.
  apply (proj2 (X10_update_then_get [("title", JStr "New")] Sample.w
                  ltac:(discriminate) eq_refl) 1%Z).
  - intros [H|[]]. discriminate.
  - vm_compute. reflexivity.
Defined.

Lemma company_set_same (c : string) (v : Store.sqlval) (r r' : Store.company)
  (ty : Store.sqltype) (f : Store.company -> Store.sqlval) :
  Store.company_set c v r = Some r' ->
  Store.company_col c = Some (ty, f) -> f r' = v.
Proof.
  intros S C. destruct r as [h n d e l].
  unfold Store.company_set in S. unfold Store.company_col in C.
  repeat
    match type of S with
    | (if ?b then _ else _) = _ =>
        destruct b;
        [ inversion C; subst f; destruct v; try discriminate;
          inversion S; reflexivity | ]
    end.
  discriminate.
Qed.

Lemma job_set_same (c : string) (v : Store.sqlval) (r r' : Store.job)
  (ty : Store.sqltype) (f : Store.job -> Store.sqlval) :
  Store.job_set c v r = Some r' ->
  Store.job_col c = Some (ty, f) -> f r' = v.
Proof.
  intros S C. destruct r as [i t s e h].
  unfold Store.job_set in S. unfold Store.job_col in C.
  repeat
    match type of S with
    | (if ?b then _ else _) = _ =>
        destruct b;
        [ inversion C; subst f; destruct v; try discriminate;
          inversion S; reflexivity | ]
    end.
  discriminate.
Qed.

Lemma assign_writes (T : Store.table)
  (keeps : forall c c0 v r r' ty f,
      Store.tset T c v r = Some r' -> c0 <> c ->
      Store.tcol T c0 = Some (ty, f) -> f r' = f r)
  (writes : forall c v r r' ty f,
      Store.tset T c v r = Some r' ->
      Store.tcol T c = Some (ty, f) -> f r' = v)
  (asg : list (string * Store.sqlval)) (r r' : Store.trow T) :
  Store.assign T asg r = Some r' -> NoDup (map fst asg) ->
  forall c v ty f,
    In (c, v) asg -> Store.tcol T c = Some (ty, f) -> f r' = v.
Proof.
  revert r. induction asg as [|[c1 v1] asg IH]; intros r A ND c v ty f I C;
    [contradiction|].
  cbn [Store.assign] in A.
  destruct (Store.tset T c1 v1 r) as [r1|] eqn:S; [|discriminate].
  cbn [map fst] in ND. inversion ND as [|x l N1 ND']; subst.
  destruct I as [I|I].
  - inversion I; subst c1 v1.
    pose proof (assign_other T keeps asg c ty f r1 N1 C) as K.
    unfold updated in K. rewrite A in K. rewrite K.
    now apply (writes c v r r1 ty f).
  - now apply (IH r1 A ND' c v ty f).
Qed.

Lemma Forall2_In_r {A B : Type} (R : A -> B -> Prop) (l : list A) (l' : list B)
  (y : B) :
  Forall2 R l l' -> In y l' -> exists x, In x l /\ R x y.
Proof.
  induction 1 as [|a b l l' H F IH]; intros I; [contradiction|].
  destruct I as [<-|I].
  - exists a. split; [now left|assumption].
  - destruct (IH I) as [x [Ix Rx]]. exists x. split; [now right|assumption].
Qed.

Lemma combine_columns (g : string -> string) (data : JS.obj) :
  combine (map g (JS.keys data)) (JS.values data)
  = map (fun kv => (g (fst kv), snd kv)) data.
Proof.
  unfold JS.keys, JS.values. induction data as [|[k v] data IH]; [reflexivity|].
  cbn [map combine fst snd]. now rewrite IH.
Qed.

(** X11.  A successful [update] writes what it was given: when no
    column is named twice, the row returned by [Company.update] (resp.
    [Job.update]) holds, in the column of every key of [data], the value
    bound for that key. *)
Theorem X11_update_writes (data : JS.obj) (w : world) :
  data <> [] -> forallb plain (JS.keys data) = true ->
  (forall h row,
      NoDup (map (column_name Company.jsToSql) (JS.keys data)) ->
      fst (Company.update h data w) = inr row ->
      exists c',
        row = company_obj c'
        /\ forall k v,
             In (k, v) data ->
             exists ty f,
               Store.company_col (column_name Company.jsToSql k) = Some (ty, f)
               /\ Store.bind ty v = Some (f c'))
  /\ (forall id row,
        NoDup (JS.keys data) ->
        fst (Job.update id data w) = inr row ->
        exists j',
          row = job_obj j'
          /\ forall k v,
               In (k, v) data ->
               exists ty f,
                 Store.job_col k = Some (ty, f)
                 /\ Store.bind ty v = Some (f j')).
Proof.
  intros NE P. split.
  - intros h row ND R.
    destruct (company_update_store h data w NE P) as [[D _]|[asg [A [D [_ F]]]]];
      [congruence|].
    rewrite R in F.
    destruct (filter (has_handle h) (Store.companies (db w))) as [|c cs] eqn:Fc;
      [discriminate|].
    inversion F; subst row. clear F.
    assert (I : In c (filter (has_handle h) (Store.companies (db w))))
      by (rewrite Fc; now left).
    apply filter_In in I as [I Hc].
    specialize (D c I Hc). unfold updated.
    destruct (Store.assign Store.companies_table asg c) as [c'|] eqn:Ac;
      [|contradiction].
    exists c'. split; [reflexivity|]. intros k v Ik.
    pose proof (bound_names _ _ _ _ (length_keys_values _ data) A) as Names.
    rewrite combine_columns in A.
    destruct (Forall2_In_r _ _ _ (column_name Company.jsToSql k, v) A)
      as [[col x] [Ix [Ec [ty [f [C B]]]]]].
    { apply in_map_iff. exists (k, v). now split. }
    cbn [fst snd] in Ec, C, B. subst col.
    exists ty, f. split; [assumption|]. rewrite B. f_equal. symmetry.
    apply (assign_writes Store.companies_table company_set_other company_set_same
             asg c c' Ac) with (c := column_name Company.jsToSql k) (ty := ty);
      [now rewrite Names|assumption|assumption].
  - intros id row ND R.
    destruct (job_update_store id data w NE P) as [[D _]|[asg [A [D [_ F]]]]];
      [congruence|].
    rewrite R in F.
    destruct (filter (has_id id) (Store.jobs (db w))) as [|j js] eqn:Fj;
      [discriminate|].
    inversion F; subst row. clear F.
    assert (I : In j (filter (has_id id) (Store.jobs (db w))))
      by (rewrite Fj; now left).
    apply filter_In in I as [I Hj].
    specialize (D j I Hj). unfold updated.
    destruct (Store.assign Store.jobs_table asg j) as [j'|] eqn:Aj;
      [|contradiction].
    exists j'. split; [reflexivity|]. intros k v Ik.
    pose proof (bound_names _ _ _ _ (length_values data) A) as Names.
    rewrite <- (map_id (JS.keys data)) in A. rewrite combine_columns in A.
    destruct (Forall2_In_r _ _ _ (k, v) A)
      as [[col x] [Ix [Ec [ty [f [C B]]]]]].
    { apply in_map_iff. exists (k, v). now split. }
    cbn [fst snd] in Ec, C, B. subst col.
    exists ty, f. split; [assumption|]. rewrite B. f_equal. symmetry.
    apply (assign_writes Store.jobs_table job_set_other job_set_same
             asg j j' Aj) with (c := k) (ty := ty);
      [now rewrite Names|assumption|assumption].
Qed.

Lemma X11_update_writes_witness :
  exists c',
    JObj [("handle", JStr "c1"); ("name", JStr "C1"); ("description", JStr "Desc1");
          ("numEmployees", JNum 10); ("logoUrl", JNull)] = company_obj c'
    /\ forall k v,
         In (k, v) [("numEmployees", JNum 10); ("logoUrl", JNull)] ->
         exists ty f,
           Store.company_col (column_name Company.jsToSql k) = Some (ty, f)
           /\ Store.bind ty v = Some (f c').
Proof.
  apply (proj1 (X11_update_writes [("numEmployees", JNum 10); ("logoUrl", JNull)]
                  Sample.w ltac:(discriminate) eq_refl) "c1").
  - constructor; [intros [H|[]]; discriminate|].
    constructor; [intros []|constructor].
  - vm_compute. reflexivity.
Defined.

(** ** Searching *)

















(** ** The keys of the store *)

Lemma NoDup_map_filter {A B : Type} (g : A -> B) (p : A -> bool) (l : list A) :
  NoDup (map g l) -> NoDup (map g (filter p l)).
Proof.
  induction l as [|x l IH]; intros N; [constructor|].
  cbn [map] in N. inversion N as [|y l' Nx N']; subst.
  cbn [filter]. destruct (p x); [|now apply IH].
  cbn [map]. constructor; [|now apply IH].
  intros I. apply Nx. apply in_map_iff in I as [z [E I]].
  apply filter_In in I as [I _]. apply in_map_iff. now exists z.
Qed.

Lemma map_updated_hit {A B : Type} (g : A -> B) (hit : A -> bool) (upd : A -> A)
  (l : list A) :
  (forall x, g (upd x) = g x) ->
  map g (map (fun x => if hit x then upd x else x) l) = map g l.
Proof.
  intros K. rewrite map_map. apply map_ext. intros x.
  destruct (hit x); [apply K|reflexivity].
Qed.

Lemma company_handle_kept (asg : list (string * Store.sqlval)) (keys : list string)
  (c : Store.company) :
  map fst asg = map (column_name Company.jsToSql) keys ->
  ~ In "handle" keys ->
  Store.c_handle (updated (Store.assign Store.companies_table asg) c)
  = Store.c_handle c.
Proof.
  intros A N.
  assert (H : Store.VText (Store.c_handle
                             (updated (Store.assign Store.companies_table asg) c))
              = Store.VText (Store.c_handle c)).
  { apply (assign_other Store.companies_table company_set_other asg "handle"
             Store.TyText (fun r => Store.VText (Store.c_handle r)) c);
      [|reflexivity].
    rewrite A. intros I. apply in_map_iff in I as [k [E I]].
    unfold column_name, Company.jsToSql in E. cbn [lookup] in E.
    destruct ("numEmployees" =? k); [discriminate|].
    destruct ("logoUrl" =? k); [discriminate|]. subst k. contradiction. }
  now inversion H.
Qed.

Lemma job_id_kept (asg : list (string * Store.sqlval)) (j : Store.job) :
  ~ In "id" (map fst asg) ->
  Store.j_id (updated (Store.assign Store.jobs_table asg) j) = Store.j_id j.
Proof.
  intros N.
  assert (H : Store.VInt (Store.j_id (updated (Store.assign Store.jobs_table asg) j))
              = Store.VInt (Store.j_id j)).
  { now apply (assign_other Store.jobs_table job_set_other asg "id"
                 Store.TyInt (fun r => Store.VInt (Store.j_id r)) j). }
  now inversion H.
Qed.

(** X14.  In a store where no two companies have the same handle,
    no two jobs the same id, and every id in use is below the next id, this
    still holds after [Company.create] with a string handle, [Job.create],
    [Company.remove], [Job.remove], and after [Company.update] and
    [Job.update] with [data] that does not name the key column, whatever
    their outcome: the duplicate check of [Company.create] is what keeps the
    handles apart. *)
Theorem X14_keys_stay_unique (w : world) :
  well_keyed (db w) ->
  (forall data h, JS.get data "handle" = JStr h ->
                  well_keyed (db (snd (Company.create data w))))
  /\ (forall data, well_keyed (db (snd (Job.create data w))))
  /\ (forall h, well_keyed (db (snd (Company.remove h w))))
  /\ (forall id, well_keyed (db (snd (Job.remove id w))))
  /\ (forall h data, forallb plain (JS.keys data) = true ->
                     ~ In "handle" (JS.keys data) ->
                     well_keyed (db (snd (Company.update h data w))))
  /\ (forall id data, forallb plain (JS.keys data) = true ->
                      ~ In "id" (JS.keys data) ->
                      well_keyed (db (snd (Job.update id data w)))).
Proof.
  intros [Hc [Hj Hn]].
  refine (conj _ (conj _ (conj _ (conj _ (conj _ _))))).
  - intros data h H. rewrite company_create_spec. cbv zeta. rewrite H.
    rewrite exec_duplicate_check.
    destruct (filter (has_handle h) (Store.companies (db w))) as [|c0 cs] eqn:F;
      [|exact (conj Hc (conj Hj Hn))].
    cbn [map JS.first hd truthy].
    destruct (Store.execute _ _ _) as [[rows st]|] eqn:E; [|exact (conj Hc (conj Hj Hn))].
    apply exec_company_create in E as [c [-> [-> [B _]]]].
    cbn [Store.bind] in B. inversion B as [Hh].
    cbn [snd db]. unfold well_keyed.
    cbn [Store.companies Store.jobs Store.next_job_id].
    refine (conj _ (conj Hj Hn)).
    rewrite map_app. apply NoDup_app; [assumption|repeat constructor; intros []|].
    intros a I [<-|[]]. apply in_map_iff in I as [c1 [E1 I]].
    apply no_company_iff in F. apply (F c1 I). congruence.
  - intros data. rewrite job_create_spec. cbv zeta.
    destruct (Store.execute _ _ _) as [[rows st]|] eqn:E; [|exact (conj Hc (conj Hj Hn))].
    apply exec_job_create_store in E as [j [-> [Ej ->]]].
    cbn [snd db]. unfold well_keyed.
    cbn [Store.companies Store.jobs Store.next_job_id].
    refine (conj Hc (conj _ _)).
    + rewrite map_app. apply NoDup_app; [assumption|repeat constructor; intros []|].
      intros a I [<-|[]]. apply in_map_iff in I as [j1 [E1 I]].
      specialize (Hn j1 I). lia.
    + intros j1 I. apply in_app_iff in I as [I|[<-|[]]].
      * specialize (Hn j1 I). lia.
      * lia.
  - intros h. rewrite company_remove_spec.
    destruct (filter (has_handle h) (Store.companies (db w))) as [|c0 cs];
      [exact (conj Hc (conj Hj Hn))|].
    cbn [snd db]. unfold well_keyed.
    cbn [Store.companies Store.jobs Store.next_job_id].
    refine (conj _ (conj Hj Hn)). now apply NoDup_map_filter.
  - intros id. rewrite job_remove_spec.
    destruct (filter (has_id id) (Store.jobs (db w))) as [|j0 js]; [exact (conj Hc (conj Hj Hn))|].
    cbn [snd db]. unfold well_keyed.
    cbn [Store.companies Store.jobs Store.next_job_id].
    refine (conj Hc (conj _ _)); [now apply NoDup_map_filter|].
    intros j I. apply filter_In in I as [I _]. now apply Hn.
  - intros h data P N. destruct data as [|kv data]; [exact (conj Hc (conj Hj Hn))|].
    destruct (company_update_store h (kv :: data) w ltac:(discriminate) P)
      as [[_ ->]|[asg [A [_ [-> _]]]]]; [exact (conj Hc (conj Hj Hn))|].
    apply bound_names in A; [|apply length_keys_values].
    unfold well_keyed. cbn [Store.companies Store.jobs Store.next_job_id].
    refine (conj _ (conj Hj Hn)).
    rewrite map_updated_hit; [assumption|].
    intros c. now apply (company_handle_kept asg (JS.keys (kv :: data))).
  - intros id data P N. destruct data as [|kv data]; [exact (conj Hc (conj Hj Hn))|].
    destruct (job_update_store id (kv :: data) w ltac:(discriminate) P)
      as [[_ ->]|[asg [A [_ [-> _]]]]]; [exact (conj Hc (conj Hj Hn))|].
    apply bound_names in A; [|apply length_values].
    unfold well_keyed. cbn [Store.companies Store.jobs Store.next_job_id].
    assert (K : forall j, Store.j_id (updated (Store.assign Store.jobs_table asg) j)
                          = Store.j_id j).
    { intros j. apply job_id_kept. now rewrite A. }
    refine (conj Hc (conj _ _)).
    + rewrite map_updated_hit; assumption.
    + intros j I. apply in_map_iff in I as [j0 [<- I]].
      destruct (has_id id j0); [rewrite K|]; now apply Hn.
Qed.

Lemma X14_keys_stay_unique_witness :
  well_keyed (db (snd (Job.create Fixture.newJob Sample.w)))
  /\ well_keyed (db (snd (Company.remove "c1" Sample.w))).
Proof.
  assert (K : well_keyed (db Sample.w)).
  { split; [|split].
    - repeat constructor; cbn; intuition discriminate.
    - repeat constructor; cbn; intuition discriminate.
    - intros j [<-|[<-|[<-|[]]]]; reflexivity. }
  split.
  - apply (proj1 (proj2 (X14_keys_stay_unique Sample.w K))).
  - apply (proj1 (proj2 (proj2 (X14_keys_stay_unique Sample.w K)))).
Defined.

(** ** The range check and the text of the filtered SELECT *)

Lemma company_findAll_issued (f : JS.obj) (w : world) :
  issued_by (Company.findAll f) w
  = if JS.gt (JS.get f "minEmployees") (JS.get f "maxEmployees") then []
    else
      let cw := Company.findAll_where (JS.get f "minEmployees")
                                      (JS.get f "maxEmployees") (JS.get f "name") in
      [(Company.findAll_query (snd cw), fst cw)].
Proof.
  unfold issued_by. rewrite company_findAll_spec. cbv zeta.
  destruct (JS.gt _ _).
  - cbn [snd]. rewrite <- (app_nil_r (issued w)) at 2. apply skipn_app_length.
  - destruct (Sql.sequence _); cbn [snd issued]; apply skipn_app_length.
Qed.

Lemma job_findAll_issued (f : JS.obj) (w : world) :
  issued_by (Job.findAll f) w
  = let jw := Job.findAll_where (JS.get f "title") (JS.get f "minSalary")
                                (JS.get f "hasEquity") in
    [(Job.findAll_query (snd jw), fst jw)].
Proof.
  unfold issued_by. rewrite job_findAll_spec. cbv zeta.
  destruct (Sql.sequence _); cbn [snd issued]; apply skipn_app_length.
Qed.



(** X16.  The text of the statement [findAll] issues depends only
    on which criteria are asked for, never on their values: two filters that
    agree on which of [title] and [minSalary] are defined and on whether
    [hasEquity] is [true] (resp. on which of [minEmployees] and
    [maxEmployees] are defined, on whether [name] is truthy, and on the range
    check) give the same text. *)
Theorem X16_filter_text_fixed (f f' : JS.obj) (w : world) :
  (is_defined (JS.get f "title") = is_defined (JS.get f' "title") ->
   is_defined (JS.get f "minSalary") = is_defined (JS.get f' "minSalary") ->
   is_true (JS.get f "hasEquity") = is_true (JS.get f' "hasEquity") ->
   map fst (issued_by (Job.findAll f) w) = map fst (issued_by (Job.findAll f') w))
  /\ (is_defined (JS.get f "minEmployees") = is_defined (JS.get f' "minEmployees") ->
      is_defined (JS.get f "maxEmployees") = is_defined (JS.get f' "maxEmployees") ->
      truthy (JS.get f "name") = truthy (JS.get f' "name") ->
      JS.gt (JS.get f "minEmployees") (JS.get f "maxEmployees")
      = JS.gt (JS.get f' "minEmployees") (JS.get f' "maxEmployees") ->
      map fst (issued_by (Company.findAll f) w)
      = map fst (issued_by (Company.findAll f') w)).
Proof.
  split.
  - intros T S E. rewrite !job_findAll_issued. cbv zeta. cbn [map fst].
    unfold Job.findAll_where. rewrite T, S, E.
    destruct (is_defined (JS.get f' "title")),
             (is_defined (JS.get f' "minSalary")),
             (is_true (JS.get f' "hasEquity")); reflexivity.
  - intros A B N G. rewrite !company_findAll_issued, G. cbv zeta.
    destruct (JS.gt (JS.get f' "minEmployees") (JS.get f' "maxEmployees"));
      [reflexivity|]. cbn [map fst].
    unfold Company.findAll_where. rewrite A, B, N.
    destruct (is_defined (JS.get f' "minEmployees")),
             (is_defined (JS.get f' "maxEmployees")),
             (truthy (JS.get f' "name")); reflexivity.
Qed.

Lemma X16_filter_text_fixed_witness :
  map fst (issued_by (Job.findAll [("title", JStr "t1")]) Sample.w)
  = map fst (issued_by (Job.findAll [("title", JStr "x' OR 1=1 --")]) Sample.w).
Proof.
  apply (proj1 (X16_filter_text_fixed [("title", JStr "t1")]
                  [("title", JStr "x' OR 1=1 --")] Sample.w));
    reflexivity.
Defined.
